(** * The animal-speed bar chart and the species card, as a shallow embedding

    Source: [src/app/species-speed/animal-speed-graph.tsx], which holds two
    components: [AnimalSpeedGraph] (CSV loader and D3 renderer) and
    [SpeciesCard] (edit dialog backed by a record store).

    Conventions.
    - A JavaScript [number] is a value of [JsNum.num]: [NaN], the two
      infinities, or an exact rational.  Arithmetic is exact: IEEE-754
      rounding, overflow, underflow and the sign of zero are not
      represented.  Comparisons, [NaN] and the infinities behave as in
      the code; a computed pixel value may differ from the double of the
      code in its last digits.  Statements about such values are
      therefore made within rounding ([Rounding.near], [Rounding.eps]),
      and those about the ticks of [nice()] for values of ordinary size
      ([Rounding.ordinary]).
    - Strings are strings of ASCII characters; white space is the ASCII
      white space.
    - Pixel sizes read from the DOM ([clientWidth], [clientHeight]) are
      integers, hence [Z].
    - The pieces of d3 that the component calls ([d3.max], [scaleBand],
      [scaleLinear().nice()], [scaleOrdinal]) are transcribed from the
      published sources of d3-array 3 and d3-scale 4; each definition names
      the library function it follows. *)

From Stdlib Require Import ZArith QArith Qround Qminmax Qabs Qpower.
From Stdlib Require Import List String Ascii Bool Lia Lqa.
From ExtLib Require Import Structures.Monad Structures.MonadState Data.Monads.StateMonad.
Import ListNotations.
Import MonadNotation.

Local Open Scope Z_scope.

(* ===================================================================== *)
(** ** JavaScript numbers *)
(* ===================================================================== *)

Module JsNum.

Inductive num : Type :=
| NaN
| PInf
| NInf
| Fin (q : Q).

Definition isNaN (x : num) : bool :=
  match x with NaN => true | _ => false end.

Definition isFinite (x : num) : bool :=
  match x with Fin _ => true | _ => false end.

Definition ofZ (z : Z) : num := Fin (inject_Z z).

Definition Qlt_bool (a b : Q) : bool := negb (Qle_bool b a).

(** Sign of a rational: -1, 0 or 1. *)
Definition Qsgn (q : Q) : Z := Z.sgn (Qnum q).

(** [-x] *)
Definition neg (x : num) : num :=
  match x with
  | NaN => NaN
  | PInf => NInf
  | NInf => PInf
  | Fin q => Fin (- q)
  end.

(** [x + y] *)
Definition add (x y : num) : num :=
  match x, y with
  | NaN, _ | _, NaN => NaN
  | PInf, NInf | NInf, PInf => NaN
  | PInf, _ | _, PInf => PInf
  | NInf, _ | _, NInf => NInf
  | Fin a, Fin b => Fin (a + b)
  end.

(** [x - y] *)
Definition sub (x y : num) : num := add x (neg y).

(** An infinity with the sign of [s] ([NaN] when [s] is 0). *)
Definition infOfSign (s : Z) : num :=
  match s with
  | Z0 => NaN
  | Zpos _ => PInf
  | Zneg _ => NInf
  end.

Definition sgn (x : num) : Z :=
  match x with
  | NaN => 0
  | PInf => 1
  | NInf => -1
  | Fin q => Qsgn q
  end.

(** [x * y]: zero times infinity is [NaN]. *)
Definition mul (x y : num) : num :=
  match x, y with
  | NaN, _ | _, NaN => NaN
  | Fin a, Fin b => Fin (a * b)
  | _, _ => infOfSign (sgn x * sgn y)
  end.

(** [x / y]: a finite value over an infinity is 0, a non-zero value over
    zero is an infinity, 0/0 and inf/inf are [NaN]. *)
Definition div (x y : num) : num :=
  match x, y with
  | NaN, _ | _, NaN => NaN
  | Fin a, Fin b =>
      if Qeq_bool b 0 then infOfSign (Qsgn a) else Fin (a / b)
  | Fin _, _ => Fin 0
  | _, Fin b => infOfSign (sgn x * (if Qeq_bool b 0 then 1 else Qsgn b))
  | _, _ => NaN
  end.

(** [x < y]; every comparison with [NaN] is false. *)
Definition lt (x y : num) : bool :=
  match x, y with
  | NaN, _ | _, NaN => false
  | _, NInf => false
  | PInf, _ => false
  | NInf, _ => true
  | _, PInf => true
  | Fin a, Fin b => Qlt_bool a b
  end.

(** [x <= y] *)
Definition le (x y : num) : bool :=
  match x, y with
  | NaN, _ | _, NaN => false
  | NInf, _ => true
  | _, PInf => true
  | _, NInf => false
  | PInf, _ => false
  | Fin a, Fin b => Qle_bool a b
  end.

Definition gt (x y : num) : bool := lt y x.
Definition ge (x y : num) : bool := le y x.

(** [x === y] on numbers. *)
Definition strictEq (x y : num) : bool :=
  match x, y with
  | PInf, PInf | NInf, NInf => true
  | Fin a, Fin b => Qeq_bool a b
  | _, _ => false
  end.

(** [Math.floor] and [Math.ceil]. *)
Definition floor (x : num) : num :=
  match x with Fin q => ofZ (Qfloor q) | _ => x end.

Definition ceil (x : num) : num :=
  match x with Fin q => ofZ (Qceiling q) | _ => x end.

(** [Math.max(x, y)]: [NaN] as soon as one argument is. *)
Definition max (x y : num) : num :=
  match x, y with
  | NaN, _ | _, NaN => NaN
  | _, _ => if lt x y then y else x
  end.

(** Number of decimal digits of a positive integer ([fuel] bounds the
    number of divisions). *)
Fixpoint digitCount (fuel : nat) (z : Z) : Z :=
  match fuel with
  | O => 0
  | S f => if z <? 10 then 1 else 1 + digitCount f (z / 10)
  end.

Definition decimalDigits (z : Z) : Z :=
  digitCount (S (Z.to_nat (Z.log2 z))) z.

(** The integer [k] with [10^k <= q < 10^(k+1)], for [q > 0]. *)
Definition ilog10 (q : Q) : Z :=
  let k := decimalDigits (Qnum q) - decimalDigits (Zpos (Qden q)) in
  if Qle_bool (Qpower (inject_Z 10) k) q then k else k - 1.

(** [Math.floor(Math.log10(x))], computed exactly. *)
Definition floorLog10 (x : num) : num :=
  match x with
  | NaN | NInf => NaN
  | PInf => PInf
  | Fin q =>
      match Qsgn q with
      | Z0 => NInf
      | Zpos _ => ofZ (ilog10 q)
      | Zneg _ => NaN
      end
  end.

(** [Math.pow(10, p)]; the callers pass integers, so a finite [p] is read
    through its integer part. *)
Definition pow10 (p : num) : num :=
  match p with
  | NaN => NaN
  | PInf => PInf
  | NInf => Fin 0
  | Fin q => Fin (Qpower (inject_Z 10) (Qfloor q))
  end.

(** [x >= Math.sqrt(c)] for an integer [c >= 0], decided on squares. *)
Definition geSqrt (x : num) (c : Z) : bool :=
  match x with
  | NaN | NInf => false
  | PInf => true
  | Fin q => Qle_bool 0 q && Qle_bool (inject_Z c) (q * q)
  end.

(** Two numbers denote the same value. *)
Definition equiv (x y : num) : Prop :=
  match x, y with
  | NaN, NaN | PInf, PInf | NInf, NInf => True
  | Fin a, Fin b => a == b
  | _, _ => False
  end.

(** *** [parseFloat] (ECMA-262, 19.2.4), on strings of ASCII characters *)

(** TAB, LF, VT, FF, CR and SPACE: the ASCII part of [WhiteSpace] and
    [LineTerminator]. *)
Definition isStrWhiteSpace (c : ascii) : bool :=
  let n := nat_of_ascii c in
  ((9 <=? n) && (n <=? 13))%nat || (n =? 32)%nat.

Fixpoint trimStart (s : string) : string :=
  match s with
  | String c r => if isStrWhiteSpace c then trimStart r else s
  | EmptyString => s
  end.

Definition digitOf (c : ascii) : option Z :=
  let n := nat_of_ascii c in
  if ((48 <=? n) && (n <=? 57))%nat then Some (Z.of_nat (n - 48)) else None.

(** Reads the longest run of decimal digits at the head of [s], pushing
    them onto the value [acc]; returns the value, the number of digits read
    and the rest of the string. *)
Fixpoint digits (s : string) (acc : Z) (cnt : nat) : Z * nat * string :=
  match s with
  | String c r =>
      match digitOf c with
      | Some d => digits r (10 * acc + d) (S cnt)
      | None => (acc, cnt, s)
      end
  | EmptyString => (acc, cnt, s)
  end.

(** Value of the [ExponentPart] at the head of [s]; 0 when there is none
    (an [e] that no digit follows is not part of the literal). *)
Definition exponentPart (s : string) : Z :=
  match s with
  | String c r =>
      if (Ascii.eqb c "e" || Ascii.eqb c "E")%char then
        let '(sg, r1) :=
          match r with
          | String "+"%char r' => (1, r')
          | String "-"%char r' => (-1, r')
          | _ => (1, r)
          end in
        let '(v, n, _) := digits r1 0 0%nat in
        if (n =? 0)%nat then 0 else sg * v
      else 0
  | EmptyString => 0
  end.

(** The longest prefix of [s] that is a [StrUnsignedDecimalLiteral] other
    than [Infinity], as a rational; [None] when there is no such prefix. *)
Definition unsignedDecimal (s : string) : option Q :=
  let '(ip, ni, r) := digits s 0 0%nat in
  let '(m, nf, r') :=
    match r with
    | String "."%char r1 => digits r1 ip 0%nat
    | _ => (ip, 0%nat, r)
    end in
  if (ni + nf =? 0)%nat then None
  else Some (inject_Z m * Qpower (inject_Z 10) (exponentPart r' - Z.of_nat nf))%Q.

Definition unsignedLiteral (s : string) : num :=
  if String.prefix "Infinity" s then PInf
  else match unsignedDecimal s with
       | Some q => Fin q
       | None => NaN
       end.

Definition parseFloat (s : string) : num :=
  match trimStart s with
  | String "+"%char r => unsignedLiteral r
  | String "-"%char r => neg (unsignedLiteral r)
  | t => unsignedLiteral t
  end.

End JsNum.

Import JsNum.


Local Open Scope string_scope.

(* ===================================================================== *)
(** ** The CSV loader of [AnimalSpeedGraph] *)
(* ===================================================================== *)

Module Loader.

(** A row of [d3.csv]: every column is a string, or [undefined] when the
    file has no such column. *)
Record Row : Type := mkRow {
  Animal : option string;
  Diet : option string;
  AverageSpeed : option string   (* column "Average Speed (km/h)" *)
}.

(** [interface AnimalDatum]; [diet] is a string at run time, the cast
    [row.Diet as "Carnivore" | "Herbivore" | "Omnivore"] checks nothing. *)
Record AnimalDatum : Type := mkDatum {
  name : string;
  diet : string;
  speed : num
}.

(** Truthiness of a [string | undefined]. *)
Definition truthy (f : option string) : bool :=
  match f with
  | Some s => negb (s =? EmptyString)
  | None => false
  end.

(** [row.Animal && row.Diet && row["Average Speed (km/h)"]] *)
Definition complete (row : Row) : bool :=
  truthy (Animal row) && truthy (Diet row) && truthy (AverageSpeed row).

(** [f ?? emptyString]: the empty string stands in for [undefined]. *)
Definition orEmpty (f : option string) : string :=
  match f with
  | Some s => s
  | None => EmptyString
  end.

(** The callback of [.map]; behind the filter [Animal] and [Diet] are never
    [undefined], so [orEmpty] leaves them as they are. *)
Definition toDatum (row : Row) : AnimalDatum :=
  {| name := orEmpty (Animal row);
     diet := orEmpty (Diet row);
     speed := parseFloat (orEmpty (AverageSpeed row)) |}.

(** [data.filter(...).map(...)], the value handed to [setAnimalData]. *)
Definition loadRows (data : list Row) : list AnimalDatum :=
  map toDatum (filter complete data).

End Loader.

Import Loader.

(* ===================================================================== *)
(** ** d3-array *)
(* ===================================================================== *)

Module D3Array.

(** One turn of the loop of [d3.max]: the first value that compares to
    itself is taken, later ones when they are greater; [NaN] never is. *)
Definition maxStep (acc : option num) (value : num) : option num :=
  match acc with
  | Some m => if lt m value then Some value else acc
  | None => if ge value value then Some value else None
  end.

(** [d3.max(values)], [undefined] when no value is comparable. *)
Definition d3max (values : list num) : option num :=
  fold_left maxStep values None.

(** [e10], [e5], [e2] are the square roots of 50, 10 and 2. *)
Definition tickFactor (error : num) : num :=
  if geSqrt error 50 then ofZ 10
  else if geSqrt error 10 then ofZ 5
  else if geSqrt error 2 then ofZ 2
  else ofZ 1.

(** [tickIncrement(start, stop, count)]: the step of the ticks, negated
    and inverted when it is below 1.  (Later releases of d3-array also
    compute the first and last tick here and retry with twice the count
    when there is none; that happens for counts below 2 only, and
    [nice()] asks for 10.) *)
Definition tickIncrement (start stop count : num) : num :=
  let step := div (sub stop start) (JsNum.max (ofZ 0) count) in
  let power := floorLog10 step in
  let error := div step (pow10 power) in
  let factor := tickFactor error in
  if lt power (ofZ 0)
  then neg (div (pow10 (neg power)) factor)
  else mul (pow10 power) factor.

End D3Array.

Import D3Array.

(* ===================================================================== *)
(** ** d3-scale *)
(* ===================================================================== *)

Module D3Scale.

(** *** Ordinal scales ([ordinal.js]) *)

(** [index.get(d)]: the position of [d] in the domain. *)
Fixpoint indexOf (d : string) (domain : list string) : option nat :=
  match domain with
  | [] => None
  | v :: rest =>
      if v =? d then Some O
      else option_map S (indexOf d rest)
  end.

(** One turn of the loop of [scale.domain(_)]: a value already indexed is
    skipped, a new one is pushed at the end. *)
Definition pushNew (domain : list string) (value : string) : list string :=
  match indexOf value domain with
  | Some _ => domain
  | None => (domain ++ [value])%list
  end.

(** [scale.domain(values)], starting from an empty domain. *)
Definition ordinalDomain (values : list string) : list string :=
  fold_left pushNew values [].

(** An ordinal scale whose [unknown] is [implicit], as [scaleOrdinal()]
    makes it: the domain grows when the scale is applied to a new value. *)
Record ordinal : Type := mkOrdinal {
  oDomain : list string;
  oRange : list string
}.

(** [scale(d)] with the implicit domain: the value and the scale after the
    call.  [range[i % range.length]] is [undefined] on an empty range. *)
Definition ordinalApply (s : ordinal) (d : string) : option string * ordinal :=
  let s' := {| oDomain := pushNew (oDomain s) d; oRange := oRange s |} in
  match indexOf d (oDomain s') with
  | Some i => (nth_error (oRange s) (i mod List.length (oRange s))%nat, s')
  | None => (None, s')
  end.

(** *** Band scales ([band.js]) *)

(** The state of a band scale.  Every quantity is finite: the range ends
    come from integers and the divisor in [bandStep] is at least 1. *)
Record band : Type := mkBand {
  bDomain : list string;
  r0 : Q;
  r1 : Q;
  paddingInner : Q;
  paddingOuter : Q;
  align : Q;
  bRound : bool
}.

Definition Qfloor' (q : Q) : Q := inject_Z (Qfloor q).
Definition Qround' (q : Q) : Q := inject_Z (Qfloor (q + (1 # 2))).

Section Rescale.
Local Open Scope Q_scope.
Variable s : band.

Let n : Q := inject_Z (Z.of_nat (List.length (bDomain s))).
Let reverse : bool := Qlt_bool (r1 s) (r0 s).
Let start0 : Q := if reverse then r1 s else r0 s.
Let stop : Q := if reverse then r0 s else r1 s.

(** [step] of [rescale()] *)
Definition bandStep : Q :=
  let st := (stop - start0) / Qmax 1 (n - paddingInner s + paddingOuter s * 2) in
  if bRound s then Qfloor' st else st.

(** [start] of [rescale()] *)
Definition bandStart : Q :=
  let st := start0 + (stop - start0 - bandStep * (n - paddingInner s)) * align s in
  if bRound s then Qround' st else st.

(** [scale.bandwidth()] *)
Definition bandwidth : Q :=
  let bw := bandStep * (1 - paddingInner s) in
  if bRound s then Qround' bw else bw.

(** [sequence(n).map(i => start + step * i)], reversed with the range. *)
Definition bandValues : list Q :=
  let values :=
    map (fun i => bandStart + bandStep * inject_Z (Z.of_nat i))
        (List.seq 0 (List.length (bDomain s))) in
  if reverse then rev values else values.

(** [scale(d)]; the [unknown] of a band scale is [undefined]. *)
Definition bandApply (d : string) : option Q :=
  match indexOf d (bDomain s) with
  | Some i => nth_error bandValues (i mod List.length bandValues)%nat
  | None => None
  end.
End Rescale.

(** [scaleBand().domain(names).range([a, b]).padding(p)];
    [padding] sets [paddingOuter] to [p] and [paddingInner] to [min(1, p)]. *)
Definition scaleBand (names : list string) (a b p : Q) : band :=
  {| bDomain := ordinalDomain names;
     r0 := a; r1 := b;
     paddingInner := Qmin 1 p;
     paddingOuter := p;
     align := 1 # 2;
     bRound := false |}.

(** *** Linear scales ([linear.js], [continuous.js]) *)

Record linear : Type := mkLinear {
  d0 : num;
  d1 : num;
  range0 : num;
  range1 : num
}.

Definition sameStep (step : num) (prestep : option num) : bool :=
  match prestep with
  | Some p => strictEq step p
  | None => false
  end.

(** The loop of [scale.nice(count)], [maxIter] turns at most.  [Some] is
    the pair written back to the domain; [None] stands for leaving the
    loop ([break], or [maxIter] used up) with the domain untouched. *)
Fixpoint niceLoop (maxIter : nat) (count start stop : num)
    (prestep : option num) : option (num * num) :=
  match maxIter with
  | O => None
  | S k =>
      let step := tickIncrement start stop count in
      if sameStep step prestep then Some (start, stop)
      else if gt step (ofZ 0) then
        niceLoop k count
          (mul (floor (div start step)) step)
          (mul (ceil (div stop step)) step)
          (Some step)
      else if lt step (ofZ 0) then
        niceLoop k count
          (div (ceil (mul start step)) step)
          (div (floor (mul stop step)) step)
          (Some step)
      else None
  end.

(** [scale.nice()] on a two-point domain: [count] is 10, [maxIter] is 10;
    a descending domain is niced with its ends swapped. *)
Definition nice (s : linear) : linear :=
  let count := ofZ 10 in
  if lt (d1 s) (d0 s) then
    match niceLoop 10 count (d1 s) (d0 s) None with
    | Some (start, stop) =>
        {| d0 := stop; d1 := start; range0 := range0 s; range1 := range1 s |}
    | None => s
    end
  else
    match niceLoop 10 count (d0 s) (d1 s) None with
    | Some (start, stop) =>
        {| d0 := start; d1 := stop; range0 := range0 s; range1 := range1 s |}
    | None => s
    end.

(** [normalize(a, b)(x)]: [(x - a) / (b - a)], a constant when [b - a] is
    zero or [NaN]. *)
Definition normalize (a b x : num) : num :=
  let b' := sub b a in
  match b' with
  | NaN => NaN
  | Fin q => if Qeq_bool q 0 then Fin (1 # 2) else div (sub x a) b'
  | _ => div (sub x a) b'
  end.

(** [interpolateNumber(a, b)(t)] *)
Definition interpolateNumber (a b t : num) : num :=
  add (mul a (sub (ofZ 1) t)) (mul b t).

(** [bimap(domain, range, interpolate)(x)] *)
Definition bimap (s : linear) (x : num) : num :=
  if lt (d1 s) (d0 s)
  then interpolateNumber (range1 s) (range0 s) (normalize (d1 s) (d0 s) x)
  else interpolateNumber (range0 s) (range1 s) (normalize (d0 s) (d1 s) x).

(** [scale(x)]: [unknown], which is [undefined], when [x] is [NaN]. *)
Definition linearApply (s : linear) (x : num) : option num :=
  if isNaN x then None else Some (bimap s x).

End D3Scale.

Import D3Scale.

(* ===================================================================== *)
(** ** The render effect of [AnimalSpeedGraph] *)
(* ===================================================================== *)

Module Chart.

Local Open Scope monad_scope.

#[local] Set Warnings "-register-all".

(** What the chart leaves in the DOM.  [Other] is any earlier content of
    the container. *)
Inductive element : Type :=
| Rect (x : option Q) (y : option num) (width : Q) (height : num)
       (fill : option string)
| BottomAxis (translateY : Z) (labels : list string)
| LeftAxis (translateX : Z) (scale : linear)
| Svg (width height : Z) (children : list element)
| Other (html : string).

(** The [div] behind [graphRef]. *)
Record container : Type := mkContainer {
  clientWidth : Z;
  clientHeight : Z;
  innerHTML : list element
}.

(** The d3 entry points, in the order the effect reaches them. *)
Inductive call : Type :=
| CallAppendSvg
| CallScaleBand
| CallScaleLinear
| CallMax
| CallScaleOrdinal
| CallAppendRects
| CallAxisBottom
| CallAxisLeft.

(** State of the effect: [graphRef.current] and the calls made so far. *)
Record world : Type := mkWorld {
  current : option container;
  calls : list call
}.

Record margins : Type := mkMargins {
  top : Z; right : Z; bottom : Z; left : Z
}.

Definition margin : margins :=
  {| top := 70; right := 60; bottom := 80; left := 100 |}.

Definition setInner (children : list element) (c : container) : container :=
  {| clientWidth := clientWidth c;
     clientHeight := clientHeight c;
     innerHTML := children |}.

Definition onCurrent (f : container -> container) : state world unit :=
  modify (fun w => {| current := option_map f (current w); calls := calls w |}) ;;
  ret tt.

Definition log (c : call) : state world unit :=
  modify (fun w => {| current := current w; calls := (calls w ++ [c])%list |}) ;;
  ret tt.

(** [if (graphRef.current)] the [innerHTML] of the container is set to
    the empty string: it loses every child. *)
Definition clearContainer : state world unit :=
  onCurrent (setInner []).

(** [select(graphRef.current!).append("svg")]: a new, empty [svg] becomes
    the last child of the container; nothing happens on a [null] ref. *)
Definition appendSvg (width height : Z) : state world unit :=
  log CallAppendSvg ;;
  onCurrent (fun c => setInner (innerHTML c ++ [Svg width height []])%list c).

(** Appends to the [svg] created last, the one the variable [svg] holds. *)
Definition intoLastSvg (f : list element -> list element)
    (children : list element) : list element :=
  match rev children with
  | Svg w h inner :: before => (rev before ++ [Svg w h (f inner)])%list
  | _ => children
  end.

Definition onSvg (f : list element -> list element) : state world unit :=
  onCurrent (fun c => setInner (intoLastSvg f (innerHTML c)) c).

Definition isRect (e : element) : bool :=
  match e with Rect _ _ _ _ _ => true | _ => false end.

(** [color(d.diet)] for each datum in turn, the scale growing as it goes. *)
Fixpoint fills (color : ordinal) (data : list AnimalDatum) : list (option string) :=
  match data with
  | [] => []
  | d :: rest =>
      let '(c, color') := ordinalApply color (diet d) in
      c :: fills color' rest
  end.

(** [y(d.speed)] used as a number: [undefined] becomes [NaN]. *)
Definition toNumber (v : option num) : num :=
  match v with Some n => n | None => NaN end.

(** The attributes of the rectangle of one datum. *)
Definition rectOf (x : band) (y : linear) (height : Z)
    (d : AnimalDatum) (fill : option string) : element :=
  Rect (bandApply x (name d))
       (linearApply y (speed d))
       (bandwidth x)
       (sub (ofZ (height - bottom margin)) (toNumber (linearApply y (speed d))))
       fill.

(** [svg.selectAll("rect").data(animalData).enter().append("rect")...]:
    the data join has no key, so the enter selection holds the data past
    the rectangles the [svg] already has. *)
Definition appendRects (x : band) (y : linear) (color : ordinal) (height : Z)
    (animalData : list AnimalDatum) (inner : list element) : list element :=
  let existing := List.length (filter isRect inner) in
  let entering := skipn existing animalData in
  (inner ++ map (fun df => rectOf x y height (fst df) (snd df))
                (combine entering (fills color entering)))%list.

(** [graphRef.current?.clientWidth ?? 800] and its companion. *)
Definition containerWidth (cur : option container) : Z :=
  match cur with Some c => clientWidth c | None => 800 end.

Definition containerHeight (cur : option container) : Z :=
  match cur with Some c => clientHeight c | None => 500 end.

(** [const x = d3.scaleBand()...] *)
Definition xScale (width : Z) (animalData : list AnimalDatum) : band :=
  scaleBand (map name animalData)
    (inject_Z (left margin)) (inject_Z (width - right margin)) (1 # 10).

(** [const y = d3.scaleLinear()...]; [d3.max(...) ?? 0] is the upper end
    of the domain before [nice()]. *)
Definition yScale (height : Z) (animalData : list AnimalDatum) : linear :=
  let top' :=
    match d3max (map speed animalData) with
    | Some m => m
    | None => ofZ 0
    end in
  nice {| d0 := ofZ 0; d1 := top';
          range0 := ofZ (height - bottom margin);
          range1 := ofZ (top margin) |}.

(** [const color = d3.scaleOrdinal()...] *)
Definition colorScale : ordinal :=
  {| oDomain := ["Carnivore"; "Herbivore"; "Omnivore"];
     oRange := ["red"; "green"; "blue"] |}.

(** The second [useEffect] of [AnimalSpeedGraph]. *)
Definition render (animalData : list AnimalDatum) : state world unit :=
  clearContainer ;;
  if (List.length animalData =? 0)%nat then ret tt
  else
    cur <- gets current ;;
    let width := Z.max (containerWidth cur) 600 in
    let height := Z.max (containerHeight cur) 400 in
    appendSvg width height ;;
    log CallScaleBand ;;
    let x := xScale width animalData in
    log CallScaleLinear ;;
    log CallMax ;;
    let y := yScale height animalData in
    log CallScaleOrdinal ;;
    let color := colorScale in
    log CallAppendRects ;;
    onSvg (appendRects x y color height animalData) ;;
    log CallAxisBottom ;;
    onSvg (fun inner => (inner ++ [BottomAxis (height - bottom margin) (bDomain x)])%list) ;;
    log CallAxisLeft ;;
    onSvg (fun inner => (inner ++ [LeftAxis (left margin) y])%list).

(** Running the effect on a mounted container. *)
Definition draw (c : container) (animalData : list AnimalDatum) : world :=
  execState (render animalData) {| current := Some c; calls := [] |}.

(** The rectangles in a piece of DOM. *)
Fixpoint rectsOf (e : element) : list element :=
  match e with
  | Rect _ _ _ _ _ => [e]
  | Svg _ _ children => flat_map rectsOf children
  | _ => []
  end.

Definition rectsIn (c : option container) : list element :=
  match c with
  | Some c => flat_map rectsOf (innerHTML c)
  | None => []
  end.

Definition svgsIn (c : option container) : list (Z * Z) :=
  match c with
  | Some c =>
      flat_map (fun e => match e with Svg w h _ => [(w, h)] | _ => [] end)
               (innerHTML c)
  | None => []
  end.

End Chart.

Import Chart.

(* ===================================================================== *)
(** ** [SpeciesCard]: the edit dialog *)
(* ===================================================================== *)

Module SpeciesCard.

Local Open Scope monad_scope.

(** The columns of a species row that the component reads.  The table type
    comes from [@/lib/schema], which is not part of the source at hand;
    [author] is compared with the [string] [userId]. *)
Record Species : Type := mkSpecies {
  id : Z;
  author : string;
  scientific_name : string;
  common_name : option string;
  kingdom : string;
  total_population : option Z;
  image : option string;
  description : option string
}.

(** [type FormData = z.infer<typeof speciesSchema>] *)
Record FormData : Type := mkFormData {
  f_scientific_name : string;
  f_common_name : option string;
  f_kingdom : string;
  f_total_population : option Z;
  f_image : option string;
  f_description : option string
}.

Inductive variant : Type := Default | Destructive.

Record toastMsg : Type := mkToast {
  title : string;
  body : string;           (* the [description] of the toast *)
  tVariant : variant
}.

Section Card.
(** The record store behind [supabase.from("species")]: [update] on the
    row with a given id returns the new store and the [error], if any. *)
Variable store : Type.
Variable update : store -> Z -> FormData -> store * option string.

(** The props of the card. *)
Variable species : Species.
Variable userId : string.

(** The hooks of the component and what they stand on: the three
    [useState] cells, the values held by [useForm], the router, the
    toasts shown and the store. *)
Record card : Type := mkCard {
  isOpenOne : bool;
  isOpenTwo : bool;
  showFormDialog : bool;
  formValues : FormData;
  refreshes : nat;
  toasts : list toastMsg;
  db : store
}.

Definition setIsOpenTwo (b : bool) : state card unit :=
  modify (fun c => {| isOpenOne := isOpenOne c; isOpenTwo := b;
                      showFormDialog := showFormDialog c;
                      formValues := formValues c; refreshes := refreshes c;
                      toasts := toasts c; db := db c |}) ;;
  ret tt.

Definition setShowFormDialog (b : bool) : state card unit :=
  modify (fun c => {| isOpenOne := isOpenOne c; isOpenTwo := isOpenTwo c;
                      showFormDialog := b;
                      formValues := formValues c; refreshes := refreshes c;
                      toasts := toasts c; db := db c |}) ;;
  ret tt.

(** [form.reset(values)] *)
Definition formReset (values : FormData) : state card unit :=
  modify (fun c => {| isOpenOne := isOpenOne c; isOpenTwo := isOpenTwo c;
                      showFormDialog := showFormDialog c;
                      formValues := values; refreshes := refreshes c;
                      toasts := toasts c; db := db c |}) ;;
  ret tt.

(** [router.refresh()] *)
Definition routerRefresh : state card unit :=
  modify (fun c => {| isOpenOne := isOpenOne c; isOpenTwo := isOpenTwo c;
                      showFormDialog := showFormDialog c;
                      formValues := formValues c; refreshes := S (refreshes c);
                      toasts := toasts c; db := db c |}) ;;
  ret tt.

Definition toast (t : toastMsg) : state card unit :=
  modify (fun c => {| isOpenOne := isOpenOne c; isOpenTwo := isOpenTwo c;
                      showFormDialog := showFormDialog c;
                      formValues := formValues c; refreshes := refreshes c;
                      toasts := (toasts c ++ [t])%list; db := db c |}) ;;
  ret tt.

(** [await supabase.from("species").update(input).eq("id", species.id)] *)
Definition supabaseUpdate (input : FormData) : state card (option string) :=
  c <- get ;;
  let '(db', error) := update (db c) (id species) input in
  put {| isOpenOne := isOpenOne c; isOpenTwo := isOpenTwo c;
         showFormDialog := showFormDialog c;
         formValues := formValues c; refreshes := refreshes c;
         toasts := toasts c; db := db' |} ;;
  ret error.

Definition handleEditRequest : state card unit :=
  let hasAccess := author species =? userId in
  setShowFormDialog hasAccess ;;
  setIsOpenTwo true.

Definition defaultValues : FormData :=
  {| f_scientific_name := scientific_name species;
     f_common_name := common_name species;
     f_kingdom := kingdom species;
     f_total_population := total_population species;
     f_image := image species;
     f_description := description species |}.

Definition onSubmit (input : FormData) : state card unit :=
  error <- supabaseUpdate input ;;
  match error with
  | Some message =>
      toast {| title := "Something went wrong.";
               body := message;
               tVariant := Destructive |}
  | None =>
      formReset defaultValues ;;
      setIsOpenTwo false ;;
      routerRefresh ;;
      toast {| title := "Species edited!";
               body := "Successfully edited " ++ scientific_name species ++ ".";
               tVariant := Default |}
  end.

(** What the second [Dialog] shows. *)
Inductive dialogView : Type :=
| Closed
| EditForm
| AccessDenied.

(** [<Dialog open={isOpenTwo}>] with [showFormDialog ? form : denial]. *)
Definition dialogTwo (c : card) : dialogView :=
  if isOpenTwo c then
    if showFormDialog c then EditForm else AccessDenied
  else Closed.

(** The buttons of each view. *)
Inductive control : Type :=
| SubmitButton     (* "Edit Species", [type="submit"] *)
| CancelButton     (* [DialogClose] in the form *)
| CloseButton.     (* [DialogClose] in the denial *)

Definition controls (v : dialogView) : list control :=
  match v with
  | Closed => []
  | EditForm => [SubmitButton; CancelButton]
  | AccessDenied => [CloseButton]
  end.

(** What a button does: only the submit button reaches [onSubmit], with
    the validated form values; the others close the dialog. *)
Definition press (b : control) (input : FormData) : state card unit :=
  match b with
  | SubmitButton => onSubmit input
  | CancelButton | CloseButton => setIsOpenTwo false
  end.

End Card.

Arguments isOpenOne {store} _.
Arguments isOpenTwo {store} _.
Arguments showFormDialog {store} _.
Arguments formValues {store} _.
Arguments refreshes {store} _.
Arguments toasts {store} _.
Arguments db {store} _.
Arguments mkCard {store}.
Arguments dialogTwo {store} _.
Arguments handleEditRequest {store} _ _.
Arguments onSubmit {store} _ _ _.

End SpeciesCard.

(* ===================================================================== *)
(** ** JavaScript strings (ASCII) *)
(* ===================================================================== *)

Module JsString.

(** [String.prototype.trimEnd], with the white space of [trimStart]. *)
Fixpoint trimEnd (s : string) : string :=
  match s with
  | EmptyString => EmptyString
  | String c r =>
      match trimEnd r with
      | EmptyString =>
          if isStrWhiteSpace c then EmptyString else String c EmptyString
      | r' => String c r'
      end
  end.

(** [String.prototype.trim] *)
Definition trim (s : string) : string := trimEnd (trimStart s).

(** [s.slice(0, n)] *)
Definition slice0 (n : nat) (s : string) : string := substring 0 n s.

(** No character of the string is white space at either end. *)
Definition startsClean (s : string) : bool :=
  match s with
  | EmptyString => true
  | String c _ => negb (isStrWhiteSpace c)
  end.

Fixpoint endsClean (s : string) : bool :=
  match s with
  | EmptyString => true
  | String c EmptyString => negb (isStrWhiteSpace c)
  | String _ r => endsClean r
  end.

(** Every character of the string is white space. *)
Fixpoint blank (s : string) : bool :=
  match s with
  | EmptyString => true
  | String c r => isStrWhiteSpace c && blank r
  end.

(** A text that is not empty and has no white space at either end. *)
Definition canonical (t : string) : Prop :=
  t <> EmptyString /\ startsClean t = true /\ endsClean t = true.

End JsString.

Import JsString.

(* ===================================================================== *)
(** ** [SpeciesCard]: what the card shows, and the form schema *)
(* ===================================================================== *)

Module CardView.

(** The paragraph under the names:
    [species.description ? species.description.slice(0, 150).trim() + "..." : empty]. *)
Definition blurb (description : option string) : string :=
  match description with
  | Some d =>
      if d =? EmptyString then EmptyString
      else trim (slice0 150 d) ++ "..."
  | None => EmptyString
  end.

(** [species.image && <Image ... />]: the picture is rendered for a truthy
    [image] only. *)
Definition showsImage (image : option string) : bool := truthy image.

End CardView.

Module Schema.

(** [z.enum([...])] *)
Definition kingdoms : list string :=
  ["Animalia"; "Plantae"; "Fungi"; "Protista"; "Archaea"; "Bacteria"].

(** The values held by the form before validation. *)
Record RawForm : Type := mkRawForm {
  r_scientific_name : string;
  r_common_name : option string;
  r_kingdom : string;
  r_total_population : option num;
  r_image : option string;
  r_description : option string
}.

(** [z.string().trim().min(1).transform((val) => val?.trim())]: the checks
    run in order on the trimmed string; [None] is a validation error. *)
Definition parseScientificName (s : string) : option string :=
  let t := trim s in
  if (String.length t <? 1)%nat then None else Some (trim t).

(** The transform of the nullable text fields:
    [(val) => (!val || val.trim() === empty ? null : val.trim())]. *)
Definition emptyToNull (val : option string) : option string :=
  match val with
  | None => None
  | Some v =>
      if (v =? EmptyString) || (trim v =? EmptyString) then None
      else Some (trim v)
  end.

(** [kingdoms.parse(value)] *)
Definition parseKingdom (s : string) : option string :=
  if existsb (String.eqb s) kingdoms then Some s else None.

(** [Number.isInteger] *)
Definition isInteger (x : num) : bool :=
  match x with
  | Fin q => Qeq_bool (inject_Z (Qfloor q)) q
  | _ => false
  end.

(** [z.number().int().positive().min(1).nullable()]: [null] passes; a
    number passes when it is not [NaN], is an integer, is above 0 and is
    at least 1. *)
Definition parsePopulation (v : option num) : option (option Z) :=
  match v with
  | None => Some None
  | Some x =>
      if isNaN x then None
      else if isInteger x && gt x (ofZ 0) && ge x (ofZ 1)
      then match x with
           | Fin q => Some (Some (Qfloor q))
           | _ => None
           end
      else None
  end.

Section Parse.

(** The test behind [z.string().url()], which is the URL parser of the
    host. *)
Variable isUrl : string -> bool.

(** [z.string().url().nullable().transform(...)] *)
Definition parseImage (v : option string) : option (option string) :=
  match v with
  | None => Some (emptyToNull None)
  | Some s => if isUrl s then Some (emptyToNull (Some s)) else None
  end.

(** [speciesSchema.parse]: every field has to pass. *)
Definition parseSpecies (raw : RawForm) : option SpeciesCard.FormData :=
  match parseScientificName (r_scientific_name raw),
        parseKingdom (r_kingdom raw),
        parsePopulation (r_total_population raw),
        parseImage (r_image raw) with
  | Some sn, Some k, Some pop, Some img =>
      Some (SpeciesCard.mkFormData sn
              (emptyToNull (r_common_name raw)) k pop img
              (emptyToNull (r_description raw)))
  | _, _, _, _ => None
  end.

End Parse.

End Schema.

(* ===================================================================== *)
(** ** [SpeciesCard]: a session with the edit dialog *)
(* ===================================================================== *)

Module CardSession.

Import SpeciesCard.
Local Open Scope monad_scope.

Section Session.

Variable store : Type.
Variable update : store -> Z -> FormData -> store * option string.
Variable isUrl : string -> bool.
Variable species : Species.
Variable userId : string.

(** [form.handleSubmit(onSubmit)]: the resolver runs the schema; [onSubmit]
    is called with the parsed values, and is not called when a field
    fails. *)
Definition handleSubmit (raw : Schema.RawForm) : state (card store) unit :=
  match Schema.parseSpecies isUrl raw with
  | Some input => onSubmit update species input
  | None => ret tt
  end.

(** What the user can do with the second dialog. *)
Inductive action : Type :=
| ClickEdit                                  (* the "Edit" trigger *)
| PressButton (b : control) (raw : Schema.RawForm)
| Dismiss.                                   (* Escape, or a click outside *)

(** The "Edit" button sits in a [DialogTrigger]: its own [onClick] runs
    first, then the trigger asks the dialog to toggle, which reaches
    [onOpenChange] with the negation of the [open] prop of this render. *)
Definition clickEdit : state (card store) unit :=
  c <- get ;;
  handleEditRequest species userId ;;
  setIsOpenTwo store (negb (isOpenTwo c)).

Definition pressButton (b : control) (raw : Schema.RawForm)
    : state (card store) unit :=
  match b with
  | SubmitButton => handleSubmit raw
  | CancelButton | CloseButton => setIsOpenTwo store false
  end.

Definition hasControl (b : control) (v : dialogView) : bool :=
  existsb (fun b' =>
             match b, b' with
             | SubmitButton, SubmitButton
             | CancelButton, CancelButton
             | CloseButton, CloseButton => true
             | _, _ => false
             end) (controls v).

(** One action; [None] when the button pressed is not on the screen. *)
Definition step (a : action) (c : card store) : option (card store) :=
  match a with
  | ClickEdit => Some (execState clickEdit c)
  | PressButton b raw =>
      if hasControl b (dialogTwo c)
      then Some (execState (pressButton b raw) c)
      else None
  | Dismiss => Some (execState (setIsOpenTwo store false) c)
  end.

Fixpoint run (actions : list action) (c : card store) : option (card store) :=
  match actions with
  | [] => Some c
  | a :: rest =>
      match step a c with
      | Some c' => run rest c'
      | None => None
      end
  end.

(** The card as it mounts: both dialogs closed, [showFormDialog] true, the
    form at its default values. *)
Definition mounted (s : store) : card store :=
  mkCard false false true (defaultValues species) 0%nat [] s.

End Session.

End CardSession.
(* ===================================================================== *)
(** ** Rounding and tick spacings *)
(* ===================================================================== *)

Module Rounding.

Local Open Scope Q_scope.

(** The code computes pixel values in binary64; the definitions above
    compute them exactly.  A statement that compares two computed pixel
    values is made up to [eps] times the extent of the range they lie
    in: one billionth, several orders of magnitude above what the few
    roundings of a scale (each below 2^-52 in relative size) add up to. *)
Definition eps : Q := 1 # 1000000000.

(** [a] and [b] differ by [eps] times [extent] at most. *)
Definition near (extent a b : Q) : Prop := Qabs (a - b) <= extent * eps.

(** The values of ordinary size, from 10^-15 to 10^15: in this range
    binary64 holds exactly every power of ten that [tickIncrement]
    computes, and no operation of [nice()] overflows or underflows. *)
Definition ordinary (v : Q) : Prop :=
  (1 # 1000000000000000) <= v /\ v <= 1000000000000000.

End Rounding.

Import Rounding.

Module Ticks.

Local Open Scope Q_scope.

(** [tickIncrement] chooses among the spacings 1, 2 and 5 times a power
    of ten (its factor 10 is the 1 of the next power). *)
Inductive mantissa : Type := One | Two | Five.

Definition mantissaValue (f : mantissa) : Q :=
  match f with One => 1 | Two => 2 | Five => 5 end.

Definition spacing (f : mantissa) (k : Z) : Q :=
  mantissaValue f * inject_Z 10 ^ k.

(** The thresholds [e10], [e5] and [e2] of [tickIncrement], read against
    the spacing chosen and compared on squares: [spacing f k] is chosen
    for a tenth of the extent between the square roots of [lower f] and
    of [upper f] times the spacing. *)
Definition lower (f : mantissa) : Q :=
  match f with Five => 2 # 5 | _ => 1 # 2 end.

Definition upper (f : mantissa) : Q :=
  match f with Two => 5 # 2 | _ => 2 end.

Definition inBucket (f : mantissa) (k : Z) (stop : Q) : Prop :=
  let raw := stop / inject_Z 10 in
  let step := spacing f k in
  lower f * (step * step) <= raw * raw /\ raw * raw < upper f * (step * step).

End Ticks.

Import Ticks.


(* ===================================================================== *)
(** ** Sample inputs *)
(* ===================================================================== *)

Module Samples.

(** A row whose speed column reads "N/A". *)
Definition naRow : Row :=
  mkRow (Some "Cat") (Some "Carnivore") (Some "N/A").

Definition cheetahRow : Row :=
  mkRow (Some "Cheetah") (Some "Carnivore") (Some "120").

Definition elephantRow : Row :=
  mkRow (Some "Elephant") (Some "Herbivore") (Some "25").

(** The row of the spec's example, with an empty [Animal]. *)
Definition namelessRow : Row :=
  mkRow (Some EmptyString) (Some "Carnivore") (Some "10").

Definition cheetah : AnimalDatum := mkDatum "Cheetah" "Carnivore" (ofZ 120).
Definition elephant : AnimalDatum := mkDatum "Elephant" "Herbivore" (ofZ 25).

(** A container laid out at 300 by 200 pixels, and one at 1000 by 700. *)
Definition smallBox : container := mkContainer 300 200 [].
Definition largeBox : container := mkContainer 1000 700 [Other "stale"].

(** A species row written by "user-1", and a store that holds rows by id:
    [tableUpdate] replaces the row with the given id and reports an error
    when there is none. *)
Definition guineaPig : SpeciesCard.Species :=
  SpeciesCard.mkSpecies 7 "user-1" "Cavia porcellus" (Some "Guinea pig")
    "Animalia" (Some 300000) None None.

Definition edited : SpeciesCard.FormData :=
  SpeciesCard.mkFormData "Cavia porcellus" (Some "Cavy") "Animalia"
    (Some 300001) None None.

Definition table : Type := list (Z * SpeciesCard.FormData).

Definition tableUpdate (t : table) (rowId : Z) (input : SpeciesCard.FormData)
    : table * option string :=
  if existsb (fun r => (fst r =? rowId)%Z) t
  then (map (fun r => if (fst r =? rowId)%Z then (rowId, input) else r) t, None)
  else (t, Some "no such row").

(** The card with the edit dialog open on a form the user has changed. *)
Definition openCard (t : table) : SpeciesCard.card table :=
  SpeciesCard.mkCard false true true edited 0%nat [] t.

(** A stand-in for the URL test of the host, and what a user may have
    typed into the form. *)
Definition looksLikeUrl (s : string) : bool := String.prefix "https://" s.

Definition typed : Schema.RawForm :=
  Schema.mkRawForm "  Cavia porcellus " (Some "Cavy") "Animalia"
    (Some (ofZ 300001)) None (Some "   ").

End Samples.

Import Samples.

(* ===================================================================== *)
(** * Properties *)
(* ===================================================================== *)

(** ** The loader *)

Section LoaderFacts.

Lemma truthy_spec (f : option string) :
  truthy f = true <-> exists s, f = Some s /\ s <> EmptyString.
Proof.
  destruct f as [s|]; simpl.
  - rewrite negb_true_iff. split.
    + intros H. exists s. split; [reflexivity|].
      intros ->. discriminate.
    + intros (s' & [= <-] & Hne).
      destruct (String.eqb_spec s EmptyString); congruence.
  - split; [discriminate | intros (s & [=] & _)].
Qed.

Lemma complete_spec (row : Row) :
  complete row = true <->
  truthy (Animal row) = true /\ truthy (Diet row) = true /\
  truthy (AverageSpeed row) = true.
Proof.
  unfold complete. rewrite !andb_true_iff. tauto.
Qed.

Lemma loadRows_app (xs ys : list Row) :
  loadRows (xs ++ ys) = (loadRows xs ++ loadRows ys)%list.
Proof.
  unfold loadRows. now rewrite filter_app, map_app.
Qed.

Lemma loadRows_cons (row : Row) (rest : list Row) :
  loadRows (row :: rest) =
  if complete row then toDatum row :: loadRows rest else loadRows rest.
Proof.
  unfold loadRows; simpl. now destruct (complete row).
Qed.

(** Every record of the loaded set comes from a row that passed the
    filter. *)
Lemma loadRows_origin (data : list Row) (d : AnimalDatum) :
  In d (loadRows data) <->
  exists row, In row data /\ complete row = true /\ toDatum row = d.
Proof.
  unfold loadRows. rewrite in_map_iff. split.
  - intros (row & Hd & Hin). apply filter_In in Hin.
    exists row. tauto.
  - intros (row & Hin & Hc & Hd). exists row. split; [assumption|].
    apply filter_In. tauto.
Qed.

End LoaderFacts.

(** C1, as the claim states it, fails: the row [naRow] has a truthy value
    field that does not parse, yet the loaded set holds a record whose
    value is [NaN]. *)
Lemma C1_unparseable_row_is_kept :
  truthy (AverageSpeed naRow) = true /\
  parseFloat "N/A" = NaN /\
  ~ (forall d, In d (loadRows [naRow]) -> speed d <> NaN).
Proof.
  split; [reflexivity|]. split; [reflexivity|].
  intros H. apply (H (mkDatum "Cat" "Carnivore" NaN)).
  - left. reflexivity.
  - reflexivity.
Qed.

(** C1 (amended): a row whose three required fields are truthy is kept by
    the loader whatever its value field parses to: the loaded set has, at
    the place of the row, the record whose value is [parseFloat] of the
    field, so a record whose value is [NaN] when the field does not parse
    as a number.  Only rows with a missing or empty required field are
    excluded: a row whose removal from the input leaves the loaded set as
    it was has such a field. *)
Theorem C1_truthy_row_kept_whatever_it_parses_to
    (before after : list Row) (a d v : string) :
  a <> EmptyString -> d <> EmptyString -> v <> EmptyString ->
  let row := mkRow (Some a) (Some d) (Some v) in
  loadRows (before ++ row :: after) =
    (loadRows before ++ mkDatum a d (parseFloat v) :: loadRows after)%list /\
  (parseFloat v = NaN ->
   In (mkDatum a d NaN) (loadRows (before ++ row :: after))) /\
  (forall (pre post : list Row) (other : Row),
     loadRows (pre ++ other :: post) = loadRows (pre ++ post) ->
     truthy (Animal other) = false \/
     truthy (Diet other) = false \/
     truthy (AverageSpeed other) = false).
Proof.
  intros Ha Hd Hv. cbn zeta.
  assert (Hc : complete (mkRow (Some a) (Some d) (Some v)) = true).
  { apply complete_spec. cbn [Animal Diet AverageSpeed].
    repeat split; apply truthy_spec; eexists; (split; [reflexivity|]);
      assumption. }
  assert (Hkept : loadRows (before ++ mkRow (Some a) (Some d) (Some v) :: after)
                  = (loadRows before
                     ++ mkDatum a d (parseFloat v) :: loadRows after)%list).
  { rewrite loadRows_app, loadRows_cons, Hc. reflexivity. }
  split; [exact Hkept|]. split.
  - intros Hnan. rewrite Hkept, Hnan. apply in_or_app. right. now left.
  - intros pre post other Heq.
    destruct (complete other) eqn:Hother.
    + exfalso. rewrite !loadRows_app, loadRows_cons, Hother in Heq.
      apply (f_equal (@List.length AnimalDatum)) in Heq.
      rewrite !length_app in Heq. cbn [List.length] in Heq. lia.
    + unfold complete in Hother.
      destruct (truthy (Animal other)); [|now left].
      destruct (truthy (Diet other)); [|now right; left].
      destruct (truthy (AverageSpeed other)); [discriminate|now right; right].
Qed.

Lemma C1_truthy_row_kept_witness :
  loadRows ([cheetahRow] ++ naRow :: [elephantRow]) =
    (loadRows [cheetahRow]
     ++ mkDatum "Cat" "Carnivore" (parseFloat "N/A")
     :: loadRows [elephantRow])%list /\
  In (mkDatum "Cat" "Carnivore" NaN)
     (loadRows ([cheetahRow] ++ naRow :: [elephantRow])).
Proof.
  destruct (C1_truthy_row_kept_whatever_it_parses_to
              [cheetahRow] [elephantRow] "Cat" "Carnivore" "N/A")
    as (Hkept & Hnan & _); try discriminate.
  split; [exact Hkept | apply Hnan; reflexivity].
Defined.

(** C2: a row in which one of the three required fields is missing or
    empty contributes nothing to the loaded set: the set is the one loaded
    from the input without that row. *)
Theorem C2_incomplete_row_dropped (before after : list Row) (row : Row) :
  truthy (Animal row) = false \/
  truthy (Diet row) = false \/
  truthy (AverageSpeed row) = false ->
  loadRows (before ++ row :: after) = loadRows (before ++ after).
Proof.
  intros H.
  assert (Hc : complete row = false).
  { unfold complete. destruct H as [-> | [-> | ->]];
      rewrite ?andb_false_r; reflexivity. }
  rewrite !loadRows_app, loadRows_cons, Hc. reflexivity.
Qed.

Lemma C2_incomplete_row_dropped_witness :
  truthy (Animal namelessRow) = false /\
  loadRows ([cheetahRow] ++ namelessRow :: [elephantRow]) =
  loadRows ([cheetahRow] ++ [elephantRow]).
Proof.
  split; [reflexivity|].
  apply (C2_incomplete_row_dropped [cheetahRow] [elephantRow] namelessRow).
  left. reflexivity.
Defined.

(** ** The render effect *)

Section RenderFacts.

(** The eight d3 entry points of a full render, in order. *)
Let fullTrace : list call :=
  [CallAppendSvg; CallScaleBand; CallScaleLinear; CallMax;
   CallScaleOrdinal; CallAppendRects; CallAxisBottom; CallAxisLeft].

(** What a render leaves behind when there is nothing to draw. *)
Lemma render_nil (w : world) :
  execState (render []) w =
  {| current := option_map (setInner []) (current w); calls := calls w |}.
Proof. destruct w as [[c|] tr]; reflexivity. Qed.

(** What a render leaves behind on a non-empty record set: whatever the
    container held before, it now holds one [svg] with the rectangles
    and the two axes. *)
Lemma render_cons (w : world) (d : AnimalDatum) (rest : list AnimalDatum) :
  let data := d :: rest in
  let width := Z.max (containerWidth (current w)) 600 in
  let height := Z.max (containerHeight (current w)) 400 in
  let x := xScale width data in
  let y := yScale height data in
  execState (render data) w =
  {| current :=
       option_map
         (setInner
            [Svg width height
               (appendRects x y colorScale height data [] ++
                [BottomAxis (height - bottom margin) (bDomain x);
                 LeftAxis (left margin) y])])
         (current w);
     calls := (calls w ++ fullTrace)%list |}.
Proof.
  destruct w as [[c|] tr]; unfold render;
    cbn -[xScale yScale appendRects colorScale Z.max];
    rewrite <- !app_assoc; reflexivity.
Qed.

Lemma draw_cons (c : container) (d : AnimalDatum) (rest : list AnimalDatum) :
  let data := d :: rest in
  let width := Z.max (clientWidth c) 600 in
  let height := Z.max (clientHeight c) 400 in
  let x := xScale width data in
  let y := yScale height data in
  draw c data =
  {| current :=
       Some (setInner
               [Svg width height
                  (appendRects x y colorScale height data [] ++
                   [BottomAxis (height - bottom margin) (bDomain x);
                    LeftAxis (left margin) y])] c);
     calls := fullTrace |}.
Proof. unfold draw. rewrite render_cons. reflexivity. Qed.

(** Two renders in a row. *)
Lemma execState_seq (a b : state world unit) (w : world) :
  execState (a ;; b)%monad w = execState b (execState a w).
Proof.
  unfold execState; simpl. destruct (runState a w). reflexivity.
Qed.

Lemma fills_length (color : ordinal) (data : list AnimalDatum) :
  List.length (fills color data) = List.length data.
Proof.
  revert color. induction data as [|d rest IH]; intros color; simpl.
  - reflexivity.
  - destruct (ordinalApply color (diet d)) as [c color'] eqn:E.
    simpl. now rewrite IH.
Qed.

Lemma rectsOf_rects (x : band) (y : linear) (height : Z)
    (l : list (AnimalDatum * option string)) :
  flat_map rectsOf
    (map (fun df => rectOf x y height (fst df) (snd df)) l) =
  map (fun df => rectOf x y height (fst df) (snd df)) l.
Proof.
  induction l as [|df l IH]; simpl; [reflexivity | now rewrite IH].
Qed.

(** The rectangles of a fresh drawing: one per record, in order. *)
Lemma appendRects_fresh (x : band) (y : linear) (color : ordinal)
    (height : Z) (data : list AnimalDatum) :
  appendRects x y color height data [] =
  map (fun df => rectOf x y height (fst df) (snd df))
      (combine data (fills color data)).
Proof. reflexivity. Qed.

Lemma rects_of_render (w : world) (data : list AnimalDatum) (c : container) :
  current w = Some c ->
  let height := Z.max (clientHeight c) 400 in
  rectsIn (current (execState (render data) w)) =
  map (fun df => rectOf (xScale (Z.max (clientWidth c) 600) data)
                        (yScale height data) height (fst df) (snd df))
      (combine data (fills colorScale data)).
Proof.
  intros Hc. destruct data as [|d rest].
  - rewrite render_nil, Hc. reflexivity.
  - rewrite render_cons, Hc.
    unfold rectsIn.
    cbn [current option_map setInner innerHTML flat_map rectsOf].
    rewrite app_nil_r, flat_map_app, appendRects_fresh.
    rewrite rectsOf_rects. cbn [flat_map rectsOf app].
    now rewrite app_nil_r.
Qed.

Lemma rect_count (w : world) (data : list AnimalDatum) (c : container) :
  current w = Some c ->
  List.length (rectsIn (current (execState (render data) w))) =
  List.length data.
Proof.
  intros Hc. rewrite (rects_of_render w data c Hc).
  rewrite length_map, length_combine, fills_length.
  apply Nat.min_id.
Qed.

(** A render keeps the container it found, and its measures. *)
Lemma render_keeps_box (w : world) (data : list AnimalDatum) (c : container) :
  current w = Some c ->
  exists c', current (execState (render data) w) = Some c' /\
             clientWidth c' = clientWidth c /\
             clientHeight c' = clientHeight c.
Proof.
  intros Hc. destruct data as [|d rest].
  - rewrite render_nil, Hc. eexists; repeat split.
  - rewrite render_cons, Hc. eexists; repeat split.
Qed.

(** The content a render leaves does not depend on what was there. *)
Lemma render_forgets (w : world) (data : list AnimalDatum)
    (c : container) (prior : list element) :
  current w = Some c ->
  current (execState (render data)
             {| current := Some (setInner prior c); calls := calls w |}) =
  current (execState (render data) w).
Proof.
  intros Hc. destruct data as [|d rest].
  - rewrite !render_nil, Hc. reflexivity.
  - rewrite !render_cons, Hc. reflexivity.
Qed.

(** On a non-empty record set all eight entry points are reached, so the
    trace does tell an early return from a full render. *)
Lemma render_cons_calls (w : world) (d : AnimalDatum) (rest : list AnimalDatum) :
  calls (execState (render (d :: rest)) w) = (calls w ++ fullTrace)%list.
Proof. rewrite render_cons. reflexivity. Qed.

End RenderFacts.

(** C6: on an empty record set the effect clears the container and
    returns: no d3 entry point is reached, so no scale is built and
    [d3.max] is not called. *)
Theorem C6_empty_set_short_circuits (w : world) :
  let w' := execState (render []) w in
  calls w' = calls w /\
  ~ In CallMax (skipn (List.length (calls w)) (calls w')) /\
  current w' = option_map (setInner []) (current w).
Proof.
  rewrite render_nil. cbn. repeat split.
  rewrite skipn_all. intros [].
Qed.

(** C7: a render clears what the container held before it draws, so the
    drawing does not depend on earlier content, and rendering twice on the
    same record set leaves as many rectangles as rendering once: one per
    record. *)
Theorem C7_clear_before_draw (c : container) (data : list AnimalDatum) :
  let w0 := {| current := Some c; calls := [] |} in
  let once := execState (render data) w0 in
  let twice := execState (render data ;; render data)%monad w0 in
  (forall prior,
     current (draw (setInner prior c) data) = current once) /\
  List.length (rectsIn (current twice)) = List.length (rectsIn (current once)) /\
  List.length (rectsIn (current once)) = List.length data.
Proof.
  cbn zeta. split; [|split].
  - intros prior. unfold draw.
    apply (render_forgets {| current := Some c; calls := [] |}). reflexivity.
  - rewrite execState_seq.
    destruct (render_keeps_box {| current := Some c; calls := [] |} data c eq_refl)
      as (c' & Hc' & _).
    rewrite (rect_count _ data c' Hc').
    now rewrite (rect_count {| current := Some c; calls := [] |} data c eq_refl).
  - now rewrite (rect_count {| current := Some c; calls := [] |} data c eq_refl).
Qed.

(** C8, as the claim states it, fails: a container that has been laid out
    at 300 by 200 pixels does not get a surface of its measured size; the
    minimums apply to it as well. *)
Lemma C8_measured_small_container :
  (0 < clientWidth smallBox /\ 0 < clientHeight smallBox) /\
  svgsIn (current (draw smallBox [cheetah])) = [(600, 400)] /\
  svgsIn (current (draw smallBox [cheetah])) <>
    [(clientWidth smallBox, clientHeight smallBox)].
Proof.
  rewrite draw_cons. cbn. repeat split; discriminate.
Qed.

(** C8 (amended): on a non-empty record set the surface is as wide as the
    container or 600, whichever is larger, and as high as the container or
    400, whichever is larger; so it has the measured size exactly when the
    container measures at least 600 by 400, and is never below 600 by
    400. *)
Theorem C8_surface_size (c : container) (data : list AnimalDatum) :
  data <> [] ->
  exists width height,
    svgsIn (current (draw c data)) = [(width, height)] /\
    width = Z.max (clientWidth c) 600 /\
    height = Z.max (clientHeight c) 400 /\
    600 <= width /\ 400 <= height.
Proof.
  intros Hne. destruct data as [|d rest]; [contradiction|].
  rewrite draw_cons.
  exists (Z.max (clientWidth c) 600), (Z.max (clientHeight c) 400).
  cbn -[xScale yScale appendRects colorScale Z.max].
  repeat split; lia.
Qed.

Lemma C8_surface_size_witness :
  exists width height,
    svgsIn (current (draw largeBox [cheetah; elephant])) = [(width, height)] /\
    width = Z.max (clientWidth largeBox) 600 /\
    height = Z.max (clientHeight largeBox) 400 /\
    600 <= width /\ 400 <= height.
Proof.
  apply (C8_surface_size largeBox [cheetah; elephant]). discriminate.
Defined.

(** ** The species card *)

Module CardFacts.
Import SpeciesCard.

Section Facts.
Variable store : Type.
Variable update : store -> Z -> FormData -> store * option string.
Variable species : Species.
Variable userId : string.

Lemma handleEditRequest_state (c : card store) :
  execState (handleEditRequest species userId) c =
  {| isOpenOne := isOpenOne c; isOpenTwo := true;
     showFormDialog := (author species =? userId);
     formValues := formValues c; refreshes := refreshes c;
     toasts := toasts c; db := db c |}.
Proof. reflexivity. Qed.

(** Closing the dialog leaves the store alone. *)
Lemma setIsOpenTwo_db (b : bool) (c : card store) :
  db (execState (setIsOpenTwo store b) c) = db c.
Proof. reflexivity. Qed.

(** The state after a submission whose update failed with [message]. *)
Lemma onSubmit_error (c : card store) (input : FormData)
    (db' : store) (message : string) :
  update (db c) (id species) input = (db', Some message) ->
  execState (onSubmit update species input) c =
  {| isOpenOne := isOpenOne c; isOpenTwo := isOpenTwo c;
     showFormDialog := showFormDialog c;
     formValues := formValues c; refreshes := refreshes c;
     toasts := (toasts c ++
                [{| title := "Something went wrong.";
                    body := message;
                    tVariant := Destructive |}])%list;
     db := db' |}.
Proof.
  intros H. unfold onSubmit, supabaseUpdate, execState. cbn.
  rewrite H. reflexivity.
Qed.

(** The state after a submission whose update went through. *)
Lemma onSubmit_success (c : card store) (input : FormData) (db' : store) :
  update (db c) (id species) input = (db', None) ->
  execState (onSubmit update species input) c =
  {| isOpenOne := isOpenOne c; isOpenTwo := false;
     showFormDialog := showFormDialog c;
     formValues := defaultValues species; refreshes := S (refreshes c);
     toasts := (toasts c ++
                [{| title := "Species edited!";
                    body := "Successfully edited " ++
                            scientific_name species ++ ".";
                    tVariant := Default |}])%list;
     db := db' |}.
Proof.
  intros H. unfold onSubmit, supabaseUpdate, execState. cbn.
  rewrite H. reflexivity.
Qed.

End Facts.

End CardFacts.

(** C9: after [handleEditRequest] the dialog shows the edit form exactly
    when the author of the species is the current user.  For any other
    user it shows the denial, whose only button closes the dialog: no
    button of that view changes the store. *)
Theorem C9_form_only_for_author
    (store : Type) (update : store -> Z -> SpeciesCard.FormData -> store * option string)
    (species : SpeciesCard.Species) (userId : string) (c : SpeciesCard.card store) :
  let c' := execState (SpeciesCard.handleEditRequest species userId) c in
  (SpeciesCard.dialogTwo c' = SpeciesCard.EditForm <->
     SpeciesCard.author species = userId) /\
  (SpeciesCard.author species <> userId ->
     SpeciesCard.dialogTwo c' = SpeciesCard.AccessDenied /\
     ~ In SpeciesCard.SubmitButton (SpeciesCard.controls (SpeciesCard.dialogTwo c')) /\
     forall b input,
       In b (SpeciesCard.controls (SpeciesCard.dialogTwo c')) ->
       SpeciesCard.db (execState (SpeciesCard.press store update species b input) c') =
       SpeciesCard.db c').
Proof.
  cbn zeta. rewrite CardFacts.handleEditRequest_state.
  unfold SpeciesCard.dialogTwo; cbn [SpeciesCard.isOpenTwo SpeciesCard.showFormDialog].
  destruct (String.eqb_spec (SpeciesCard.author species) userId) as [E|N].
  - split; [tauto | contradiction].
  - split.
    + split; [discriminate | contradiction].
    + intros _. split; [reflexivity|]. split.
      * cbn. intros [H|[]]. discriminate.
      * intros b input [<-|[]]. reflexivity.
Qed.

Lemma C9_form_only_for_author_witness :
  SpeciesCard.dialogTwo
    (execState (SpeciesCard.handleEditRequest guineaPig "user-2")
               (SpeciesCard.mkCard false false true edited 0%nat [] [(7, edited)]))
  = SpeciesCard.AccessDenied.
Proof.
  apply (C9_form_only_for_author table tableUpdate guineaPig "user-2").
  discriminate.
Defined.

(** C10: when the update of the store returns an error, [onSubmit] shows
    one destructive toast carrying the error message and returns: the form
    values, the open dialog and the router are as before.  When the update
    succeeds, the form is reset to the default values, the dialog is
    closed, the route is refreshed once and the success toast is shown. *)
Theorem C10_submit_outcomes
    (store : Type) (update : store -> Z -> SpeciesCard.FormData -> store * option string)
    (species : SpeciesCard.Species) (c : SpeciesCard.card store)
    (input : SpeciesCard.FormData) (db' : store) (error : option string) :
  update (SpeciesCard.db c) (SpeciesCard.id species) input = (db', error) ->
  let c' := execState (SpeciesCard.onSubmit update species input) c in
  match error with
  | Some message =>
      SpeciesCard.formValues c' = SpeciesCard.formValues c /\
      SpeciesCard.isOpenTwo c' = SpeciesCard.isOpenTwo c /\
      SpeciesCard.refreshes c' = SpeciesCard.refreshes c /\
      SpeciesCard.toasts c' =
        (SpeciesCard.toasts c ++
         [SpeciesCard.mkToast "Something went wrong." message
            SpeciesCard.Destructive])%list
  | None =>
      SpeciesCard.formValues c' = SpeciesCard.defaultValues species /\
      SpeciesCard.isOpenTwo c' = false /\
      SpeciesCard.refreshes c' = S (SpeciesCard.refreshes c) /\
      SpeciesCard.toasts c' =
        (SpeciesCard.toasts c ++
         [SpeciesCard.mkToast "Species edited!"
            ("Successfully edited " ++ SpeciesCard.scientific_name species ++ ".")
            SpeciesCard.Default])%list
  end.
Proof.
  intros H. cbn zeta. destruct error as [message|].
  - rewrite (CardFacts.onSubmit_error store update species c input db' message H).
    repeat split.
  - rewrite (CardFacts.onSubmit_success store update species c input db' H).
    repeat split.
Qed.

Lemma C10_submit_outcomes_witness :
  let c := openCard [] in
  let c' := execState (SpeciesCard.onSubmit tableUpdate guineaPig edited) c in
  SpeciesCard.formValues c' = edited /\
  SpeciesCard.isOpenTwo c' = true /\
  SpeciesCard.refreshes c' = 0%nat /\
  SpeciesCard.toasts c' =
    [SpeciesCard.mkToast "Something went wrong." "no such row"
       SpeciesCard.Destructive].
Proof.
  exact (C10_submit_outcomes table tableUpdate guineaPig (openCard []) edited
           [] (Some "no such row") eq_refl).
Defined.

(** ** The position scale *)

Section OrdinalFacts.

Lemma indexOf_nth (d : string) (domain : list string) (i : nat) :
  indexOf d domain = Some i -> nth_error domain i = Some d.
Proof.
  revert i. induction domain as [|v rest IH]; intros i; simpl.
  - discriminate.
  - destruct (String.eqb_spec v d) as [->|Hne].
    + intros [= <-]. reflexivity.
    + destruct (indexOf d rest) as [j|]; simpl; [|discriminate].
      intros [= <-]. simpl. now apply IH.
Qed.

Lemma indexOf_lt (d : string) (domain : list string) (i : nat) :
  indexOf d domain = Some i -> (i < List.length domain)%nat.
Proof.
  intros H. apply indexOf_nth in H.
  apply nth_error_Some. congruence.
Qed.

Lemma indexOf_In (d : string) (domain : list string) :
  In d domain -> exists i, indexOf d domain = Some i.
Proof.
  induction domain as [|v rest IH]; simpl; [contradiction|].
  intros Hin. destruct (String.eqb_spec v d) as [->|Hne].
  - now exists O.
  - destruct Hin as [->|Hin]; [contradiction|].
    destruct (IH Hin) as (j & ->). now exists (S j).
Qed.

(** Two values with the same index are the same value. *)
Lemma indexOf_inj (a b : string) (domain : list string) (i : nat) :
  indexOf a domain = Some i -> indexOf b domain = Some i -> a = b.
Proof.
  intros Ha Hb. apply indexOf_nth in Ha, Hb. congruence.
Qed.

Lemma indexOf_notin (d : string) (domain : list string) :
  indexOf d domain = None -> ~ In d domain.
Proof.
  intros Hnone Hin. destruct (indexOf_In _ _ Hin) as (i & Hi). congruence.
Qed.

Lemma pushNew_In (domain : list string) (value v : string) :
  In v (pushNew domain value) <-> In v domain \/ v = value.
Proof.
  unfold pushNew. destruct (indexOf value domain) as [i|] eqn:E.
  - split; [tauto|]. intros [H| ->]; [assumption|].
    apply indexOf_nth in E. eapply nth_error_In, E.
  - rewrite in_app_iff. simpl. intuition congruence.
Qed.

Lemma pushNew_NoDup (domain : list string) (value : string) :
  NoDup domain -> NoDup (pushNew domain value).
Proof.
  intros Hnd. unfold pushNew.
  destruct (indexOf value domain) as [i|] eqn:E; [assumption|].
  apply indexOf_notin in E.
  apply NoDup_app; [assumption | repeat constructor; intros [] | ].
  intros v Hv [<-|[]]. contradiction.
Qed.

Lemma fold_pushNew_In (values acc : list string) (v : string) :
  In v (fold_left pushNew values acc) <-> In v acc \/ In v values.
Proof.
  revert acc. induction values as [|x rest IH]; intros acc; simpl.
  - tauto.
  - rewrite IH, pushNew_In. intuition congruence.
Qed.

Lemma fold_pushNew_NoDup (values acc : list string) :
  NoDup acc -> NoDup (fold_left pushNew values acc).
Proof.
  revert acc. induction values as [|x rest IH]; intros acc Hnd; simpl.
  - assumption.
  - apply IH, pushNew_NoDup, Hnd.
Qed.

(** The domain holds exactly the values given, each once. *)
Lemma ordinalDomain_In (values : list string) (v : string) :
  In v (ordinalDomain values) <-> In v values.
Proof. unfold ordinalDomain. rewrite fold_pushNew_In. simpl. tauto. Qed.

Lemma ordinalDomain_NoDup (values : list string) :
  NoDup (ordinalDomain values).
Proof. apply fold_pushNew_NoDup. constructor. Qed.

Lemma fold_pushNew_fresh (values acc : list string) :
  NoDup (acc ++ values) ->
  fold_left pushNew values acc = (acc ++ values)%list.
Proof.
  revert acc. induction values as [|x rest IH]; intros acc Hnd; simpl.
  - now rewrite app_nil_r.
  - assert (Hx : indexOf x acc = None).
    { destruct (indexOf x acc) as [i|] eqn:E; [|reflexivity].
      apply indexOf_nth, nth_error_In in E.
      apply NoDup_remove_2 in Hnd. exfalso. apply Hnd.
      apply in_or_app. now left. }
    unfold pushNew at 2. rewrite Hx.
    rewrite IH; rewrite <- app_assoc; simpl; [reflexivity | assumption].
Qed.

(** Values that are already distinct make up the domain as they are. *)
Lemma ordinalDomain_distinct (values : list string) :
  NoDup values -> ordinalDomain values = values.
Proof. intros H. now apply (fold_pushNew_fresh values []). Qed.

End OrdinalFacts.

Lemma nonempty_has_head {A : Type} (l : list A) :
  l <> [] -> exists a, In a l.
Proof. destruct l as [|a l]; [contradiction|]. exists a. now left. Qed.

(** ** Rounding *)

Section RoundingFacts.
Local Open Scope Q_scope.

Lemma eps_pos : 0 < eps.
Proof. reflexivity. Qed.

(** Values that are equal are near, whatever the extent. *)
Lemma near_equal (extent a b : Q) : 0 <= extent -> a == b -> near extent a b.
Proof.
  intros He Hab. unfold near.
  assert (E : a - b == 0) by lra.
  rewrite E. change (Qabs 0) with 0.
  pose proof eps_pos. nra.
Qed.

Lemma near_bounds (extent a b : Q) :
  near extent a b <-> b - extent * eps <= a /\ a <= b + extent * eps.
Proof.
  unfold near. rewrite Qabs_Qle_condition.
  set (t := extent * eps). split; intros (H1 & H2); split; lra.
Qed.

End RoundingFacts.

Section BandFacts.
Local Open Scope Q_scope.

Variable width : Z.
Hypothesis Hwidth : (600 <= width)%Z.
Variable data : list AnimalDatum.
Hypothesis Hdata : data <> [].

Let x : band := xScale width data.
Let k : nat := List.length (bDomain x).
Let n : Q := inject_Z (Z.of_nat k).
Let usable : Q := inject_Z (width - left margin - right margin).

Lemma domain_of_names (d : AnimalDatum) :
  In d data -> In (name d) (bDomain x).
Proof.
  intros Hin. apply ordinalDomain_In, in_map, Hin.
Qed.

Lemma domain_size_pos : 1 <= n.
Proof.
  destruct (nonempty_has_head data Hdata) as (d & Hd).
  apply domain_of_names in Hd.
  subst n k. destruct (bDomain x); [contradiction|].
  change 1 with (inject_Z 1). rewrite <- Zle_Qle.
  simpl List.length. lia.
Qed.

Lemma usable_pos : 440 <= usable.
Proof.
  subst usable. change 440 with (inject_Z 440). rewrite <- Zle_Qle.
  cbn [left right margin]. lia.
Qed.

Lemma range_ascending :
  Qlt_bool (inject_Z (width - right margin)) (inject_Z (left margin)) = false.
Proof.
  unfold Qlt_bool. apply negb_false_iff, Qle_bool_iff.
  rewrite <- Zle_Qle. cbn [left right margin]. lia.
Qed.

Lemma range_extent :
  inject_Z (width - right margin) - inject_Z (left margin) == usable.
Proof.
  subst usable. unfold Qminus. rewrite <- inject_Z_opp, <- inject_Z_plus.
  apply inject_Z_injective. lia.
Qed.

(** The step between two bands, and the width of a band. *)
Lemma bandStep_value : bandStep x == usable / (n + (1 # 10)).
Proof.
  unfold bandStep.
  cbn [xScale scaleBand bRound r0 r1 paddingInner paddingOuter x].
  rewrite range_ascending. change (Qmin 1 (1 # 10)) with (1 # 10).
  fold k. fold n. rewrite range_extent.
  pose proof domain_size_pos as Hn.
  rewrite Q.max_r by lra.
  apply Qeq_alt. unfold Qdiv.
  assert (E : n - (1 # 10) + (1 # 10) * 2 == n + (1 # 10)) by lra.
  apply Qeq_alt. now rewrite E.
Qed.

Lemma bandwidth_value : bandwidth x == bandStep x * (1 - (1 # 10)).
Proof.
  unfold bandwidth.
  cbn [xScale scaleBand bRound paddingInner x].
  change (Qmin 1 (1 # 10)) with (1 # 10). reflexivity.
Qed.

Lemma bandStep_pos : 0 < bandStep x.
Proof.
  rewrite bandStep_value.
  pose proof domain_size_pos. pose proof usable_pos.
  apply Qlt_shift_div_l; lra.
Qed.

Lemma bandValues_ascending :
  bandValues x =
  map (fun i => bandStart x + bandStep x * inject_Z (Z.of_nat i))
      (List.seq 0 k).
Proof.
  unfold bandValues at 1.
  cbn [xScale scaleBand r0 r1 x]. now rewrite range_ascending.
Qed.

(** Where the band of a name starts: [start + step * i] for the name of
    index [i]. *)
Lemma bandApply_index (d : string) (i : nat) :
  indexOf d (bDomain x) = Some i ->
  bandApply x d = Some (bandStart x + bandStep x * inject_Z (Z.of_nat i)).
Proof.
  intros Hi. unfold bandApply. rewrite Hi.
  pose proof (indexOf_lt _ _ _ Hi) as Hlt. fold k in Hlt.
  rewrite bandValues_ascending, length_map, length_seq.
  rewrite Nat.mod_small by assumption.
  rewrite nth_error_map, nth_error_nth' with (d := O)
    by now rewrite length_seq.
  rewrite seq_nth by assumption. reflexivity.
Qed.

(** Bands of different indices lie one full step apart at least. *)
Lemma bands_apart (i j : nat) :
  (i < j)%nat ->
  bandStart x + bandStep x * inject_Z (Z.of_nat i) + bandwidth x <=
  bandStart x + bandStep x * inject_Z (Z.of_nat j).
Proof.
  intros Hij. rewrite bandwidth_value.
  pose proof bandStep_pos as Hs.
  assert (Hz : inject_Z (Z.of_nat i) + 1 <= inject_Z (Z.of_nat j)).
  { change 1 with (inject_Z 1). rewrite <- inject_Z_plus, <- Zle_Qle. lia. }
  nra.
Qed.

Lemma bands_disjoint (a b : string) :
  In a (bDomain x) -> In b (bDomain x) -> a <> b ->
  exists xa xb,
    bandApply x a = Some xa /\ bandApply x b = Some xb /\
    (xa + bandwidth x <= xb \/ xb + bandwidth x <= xa).
Proof.
  intros Ha Hb Hab.
  destruct (indexOf_In _ _ Ha) as (i & Hi).
  destruct (indexOf_In _ _ Hb) as (j & Hj).
  exists (bandStart x + bandStep x * inject_Z (Z.of_nat i)),
         (bandStart x + bandStep x * inject_Z (Z.of_nat j)).
  split; [now apply bandApply_index|].
  split; [now apply bandApply_index|].
  destruct (Nat.lt_trichotomy i j) as [Hlt|[Heq|Hgt]].
  - left. now apply bands_apart.
  - subst j. exfalso. apply Hab. eapply indexOf_inj; eassumption.
  - right. now apply bands_apart.
Qed.

End BandFacts.

(** C3, as the claim states it, fails on the width of a band.  One record
    in a container 300 pixels wide: the surface is 600 wide, 440 of which
    are usable; the claim gives the band 440 / 1 * 0.9 = 396 pixels, the
    rectangle drawn is 360 wide up to rounding, 36 pixels less. *)
Lemma C3_single_band_width :
  let usable := inject_Z (Z.max (clientWidth smallBox) 600
                          - left margin - right margin) in
  let claimed := (usable / inject_Z 1 * (1 - (1 # 10)))%Q in
  claimed == 396 /\
  exists x y width height fill,
    rectsIn (current (draw smallBox [cheetah])) = [Rect x y width height fill] /\
    near usable width 360 /\
    ~ (Qabs (width - claimed) <= 1)%Q.
Proof.
  cbn zeta. split; [reflexivity|].
  rewrite draw_cons. unfold rectsIn.
  cbn [current setInner innerHTML flat_map rectsOf].
  rewrite app_nil_r, flat_map_app, appendRects_fresh.
  do 5 eexists. split.
  - cbn -[xScale yScale bandApply linearApply bandwidth sub fills colorScale].
    reflexivity.
  - split.
    + unfold near. apply Qle_bool_iff. vm_compute. reflexivity.
    + intros H. apply Qle_bool_iff in H. vm_compute in H. discriminate H.
Qed.

(** C3 (amended): on a non-empty record set two records with different
    names get bands that do not overlap, and the width of a band is,
    within rounding, the usable width divided by the number of distinct
    names plus 0.1, times (1 - 0.1): [padding(0.1)] sets the outer
    padding too, so the range is shared by [n - 0.1 + 2 * 0.1] steps.
    With names all different the number of distinct names is the number
    of records. *)
Theorem C3_bands_apart_and_width (c : container) (data : list AnimalDatum) :
  data <> [] ->
  let width := Z.max (clientWidth c) 600 in
  let x := xScale width data in
  let usable := inject_Z (width - left margin - right margin) in
  let k := List.length (bDomain x) in
  (forall a b, In a data -> In b data -> name a <> name b ->
     exists xa xb,
       bandApply x (name a) = Some xa /\ bandApply x (name b) = Some xb /\
       (xa + bandwidth x <= xb \/ xb + bandwidth x <= xa)%Q) /\
  near usable (bandwidth x)
       (usable / (inject_Z (Z.of_nat k) + (1 # 10)) * (1 - (1 # 10))) /\
  (NoDup (map name data) -> k = List.length data).
Proof.
  intros Hne. cbn zeta.
  assert (Hw : 600 <= Z.max (clientWidth c) 600) by lia.
  split; [|split].
  - intros a b Ha Hb Hab.
    apply (bands_disjoint _ Hw data Hne);
      [now apply domain_of_names | now apply domain_of_names | assumption].
  - apply near_equal.
    + apply Qle_trans with 440%Q; [discriminate | apply (usable_pos _ Hw data)].
    + rewrite (bandwidth_value (Z.max (clientWidth c) 600) data).
      rewrite (bandStep_value _ Hw data Hne). reflexivity.
  - intros Hnd. unfold xScale, scaleBand. cbn [bDomain].
    rewrite ordinalDomain_distinct by assumption. apply length_map.
Qed.

Lemma C3_bands_apart_and_width_witness :
  let x := xScale (Z.max (clientWidth largeBox) 600) [cheetah; elephant] in
  let usable :=
    inject_Z (Z.max (clientWidth largeBox) 600 - left margin - right margin) in
  near usable (bandwidth x)
       (usable / (inject_Z (Z.of_nat (List.length (bDomain x))) + (1 # 10))
        * (1 - (1 # 10))).
Proof.
  apply (C3_bands_apart_and_width largeBox [cheetah; elephant]).
  discriminate.
Defined.

(** ** The integer logarithm behind [Math.floor(Math.log10(x))] *)

Section Log10Facts.

Lemma digitCount_spec (fuel : nat) :
  forall z : Z,
    1 <= z < 2 ^ Z.of_nat fuel ->
    1 <= digitCount fuel z /\
    10 ^ (digitCount fuel z - 1) <= z < 10 ^ digitCount fuel z.
Proof.
  induction fuel as [|f IH]; intros z Hz.
  - simpl in Hz. lia.
  - cbn [digitCount]. destruct (Z.ltb_spec z 10) as [Hlt|Hge].
    + simpl. lia.
    + rewrite Nat2Z.inj_succ, Z.pow_succ_r in Hz by lia.
      assert (Hq : 1 <= z / 10 < 2 ^ Z.of_nat f).
      { split.
        - apply Z.div_le_lower_bound; lia.
        - apply Z.div_lt_upper_bound; lia. }
      destruct (IH _ Hq) as (Hd & Hlo & Hhi).
      set (d := digitCount f (z / 10)) in *.
      split; [lia|].
      replace (1 + d - 1) with (Z.succ (d - 1)) by lia.
      replace (1 + d) with (Z.succ d) by lia.
      rewrite !Z.pow_succ_r by lia.
      pose proof (Z.mul_div_le z 10 ltac:(lia)).
      pose proof (Z.mul_succ_div_gt z 10 ltac:(lia)).
      lia.
Qed.

Lemma decimalDigits_spec (z : Z) :
  1 <= z ->
  1 <= decimalDigits z /\
  10 ^ (decimalDigits z - 1) <= z < 10 ^ decimalDigits z.
Proof.
  intros Hz. unfold decimalDigits. apply digitCount_spec.
  split; [assumption|].
  pose proof (Z.log2_spec z ltac:(lia)) as Hlog.
  pose proof (Z.log2_nonneg z).
  rewrite Nat2Z.inj_succ, Z2Nat.id by assumption. lia.
Qed.

Local Open Scope Q_scope.

Let ten : Q := inject_Z 10.

Lemma ten_pos (k : Z) : 0 < ten ^ k.
Proof. now apply Qpower_0_lt. Qed.

Lemma quotient_le (A B N D : Q) :
  0 < B -> 0 < D -> 0 <= A -> A <= N -> D <= B -> A / B <= N / D.
Proof.
  intros HB HD HA HAN HDB.
  apply Qle_shift_div_l; [assumption|].
  assert (Hx : 0 <= A / B) by (apply Qle_shift_div_l; [assumption | lra]).
  assert (E : A / B * B == A) by (field; lra).
  set (x := A / B) in *. nra.
Qed.

Lemma quotient_lt (A B N D : Q) :
  0 < B -> 0 < D -> 0 <= N -> N < A -> B <= D -> N / D < A / B.
Proof.
  intros HB HD HN HNA HBD.
  apply Qlt_shift_div_l; [assumption|].
  assert (Hx : 0 <= N / D) by (apply Qle_shift_div_l; [assumption | lra]).
  assert (E : N / D * D == N) by (field; lra).
  set (x := N / D) in *. nra.
Qed.

(** A fraction between two quotients of powers of ten. *)
Lemma fraction_between (num den : Z) (a b : Z) :
  (0 <= a)%Z -> (0 <= b)%Z -> (0 < num)%Z -> (0 < den)%Z ->
  ((10 ^ a <= num)%Z -> (den <= 10 ^ b)%Z ->
     ten ^ (a - b) <= inject_Z num / inject_Z den) /\
  ((num < 10 ^ a)%Z -> (10 ^ b <= den)%Z ->
     inject_Z num / inject_Z den < ten ^ (a - b)).
Proof.
  intros Ha Hb Hnum Hden.
  assert (Hd : 0 < inject_Z den).
  { change 0 with (inject_Z 0). now rewrite <- Zlt_Qlt. }
  assert (Hn : 0 < inject_Z num).
  { change 0 with (inject_Z 0). now rewrite <- Zlt_Qlt. }
  assert (Hpa : ten ^ a == inject_Z (10 ^ a)) by now rewrite Zpower_Qpower.
  assert (Hpb : ten ^ b == inject_Z (10 ^ b)) by now rewrite Zpower_Qpower.
  assert (Hapos : 0 < inject_Z (10 ^ a)).
  { change 0 with (inject_Z 0). rewrite <- Zlt_Qlt. lia. }
  assert (Hbpos : 0 < inject_Z (10 ^ b)).
  { change 0 with (inject_Z 0). rewrite <- Zlt_Qlt. lia. }
  rewrite Qpower_minus by discriminate. rewrite Hpa, Hpb.
  split; intros H1 H2.
  - apply quotient_le; try lra; now rewrite <- Zle_Qle.
  - apply quotient_lt; try lra; [now rewrite <- Zlt_Qlt | now rewrite <- Zle_Qle].
Qed.

(** [ilog10 q] is the exponent of the power of ten at or just below a
    positive [q]. *)
Lemma ilog10_spec (q : Q) :
  0 < q -> ten ^ ilog10 q <= q /\ q < ten ^ (ilog10 q + 1).
Proof.
  intros Hq.
  assert (Hnum : (1 <= Qnum q)%Z).
  { unfold Qlt in Hq. simpl in Hq. lia. }
  assert (Hden : (1 <= Zpos (Qden q))%Z) by lia.
  destruct (decimalDigits_spec _ Hnum) as (Hn1 & Hnlo & Hnhi).
  destruct (decimalDigits_spec _ Hden) as (Hd1 & Hdlo & Hdhi).
  assert (Eq : q == inject_Z (Qnum q) / inject_Z (Zpos (Qden q))).
  { destruct q as [n d]. simpl. apply Qmake_Qdiv. }
  unfold ilog10. cbv zeta. fold ten.
  set (dn := decimalDigits (Qnum q)) in *.
  set (dd := decimalDigits (Zpos (Qden q))) in *.
  destruct (Qle_bool (ten ^ (dn - dd)) q) eqn:E.
  - apply Qle_bool_iff in E. split; [assumption|].
    replace (dn - dd + 1)%Z with (dn - (dd - 1))%Z by lia.
    rewrite Eq at 1.
    apply (fraction_between (Qnum q) (Zpos (Qden q)) dn (dd - 1)); lia.
  - assert (Hlt : q < ten ^ (dn - dd)).
    { apply Qnot_le_lt. intros H. apply Qle_bool_iff in H. congruence. }
    replace (dn - dd - 1 + 1)%Z with (dn - dd)%Z by lia.
    split; [|assumption].
    replace (dn - dd - 1)%Z with (dn - 1 - dd)%Z by lia.
    rewrite Eq at 1.
    apply (fraction_between (Qnum q) (Zpos (Qden q)) (dn - 1) dd); lia.
Qed.

End Log10Facts.

(** ** The value scale *)

Section NumberFacts.
Local Open Scope Q_scope.

Lemma div_finite (a b : Q) :
  ~ b == 0 -> div (Fin a) (Fin b) = Fin (a / b).
Proof.
  intros Hb. unfold div.
  destruct (Qeq_bool b 0) eqn:E; [|reflexivity].
  apply Qeq_bool_eq in E. contradiction.
Qed.

Lemma Qsgn_pos (q : Q) : 0 < q -> Qsgn q = 1%Z.
Proof.
  unfold Qlt, Qsgn. simpl. rewrite Z.mul_1_r.
  destruct (Qnum q) as [|p|p]; intros H; lia.
Qed.

Lemma Qsgn_zero (q : Q) : q == 0 -> Qsgn q = 0%Z.
Proof.
  unfold Qeq, Qsgn. simpl. rewrite Z.mul_1_r. now intros ->.
Qed.

Lemma floorLog10_pos (q : Q) :
  0 < q -> floorLog10 (Fin q) = ofZ (ilog10 q).
Proof.
  intros H. unfold floorLog10. now rewrite (Qsgn_pos q H).
Qed.

Lemma pow10_finite (q : Q) :
  exists r, pow10 (Fin q) = Fin r /\ 0 < r.
Proof.
  eexists. split; [reflexivity|]. now apply Qpower_0_lt.
Qed.

Lemma tickFactor_finite (error : num) :
  exists f, tickFactor error = Fin f /\ 0 < f.
Proof.
  unfold tickFactor.
  destruct (geSqrt error 50); [|destruct (geSqrt error 10);
                                 [|destruct (geSqrt error 2)]];
    eexists; (split; [reflexivity | reflexivity]).
Qed.

(** Between two finite ends in ascending order the increment is a finite
    number other than zero. *)
Lemma tickIncrement_finite (a s : Q) :
  a < s ->
  exists p, tickIncrement (Fin a) (Fin s) (ofZ 10) = Fin p /\ ~ p == 0.
Proof.
  intros Has. unfold tickIncrement.
  change (JsNum.max (ofZ 0) (ofZ 10)) with (Fin (inject_Z 10)).
  change (sub (Fin s) (Fin a)) with (Fin (s + - a)).
  rewrite div_finite by discriminate.
  set (step := (s + - a) / inject_Z 10).
  assert (Hstep : 0 < step).
  { subst step. apply Qlt_shift_div_l; [reflexivity | rewrite Qmult_0_l; lra]. }
  rewrite (floorLog10_pos step Hstep).
  set (power := ilog10 step).
  destruct (pow10_finite (inject_Z power)) as (r & Hr & Hrpos).
  change (ofZ power) with (Fin (inject_Z power)). rewrite Hr.
  rewrite div_finite by lra.
  destruct (tickFactor_finite (Fin (step / r))) as (f & Hf & Hfpos).
  rewrite Hf.
  destruct (lt (Fin (inject_Z power)) (ofZ 0)).
  - change (neg (Fin (inject_Z power))) with (Fin (- inject_Z power)).
    destruct (pow10_finite (- inject_Z power)) as (r' & Hr' & Hrpos').
    rewrite Hr', div_finite by lra.
    eexists. split; [reflexivity|].
    assert (0 < r' / f) by (apply Qlt_shift_div_l; lra). lra.
  - eexists. split; [reflexivity|].
    assert (0 < r * f) by now apply Qmult_lt_0_compat. lra.
Qed.

(** Between two ends that are both zero the increment is [-Infinity]. *)
Lemma tickIncrement_flat (a s : Q) :
  a == 0 -> s == 0 -> tickIncrement (Fin a) (Fin s) (ofZ 10) = NInf.
Proof.
  intros Ha Hs. unfold tickIncrement.
  change (JsNum.max (ofZ 0) (ofZ 10)) with (Fin (inject_Z 10)).
  change (sub (Fin s) (Fin a)) with (Fin (s + - a)).
  rewrite div_finite by discriminate.
  assert (Hstep : (s + - a) / inject_Z 10 == 0).
  { rewrite Ha, Hs. reflexivity. }
  unfold floorLog10. rewrite (Qsgn_zero _ Hstep).
  assert (E : div (Fin ((s + - a) / inject_Z 10)) (pow10 NInf) = NaN).
  { unfold pow10, div. change (Qeq_bool 0 0) with true. cbn iota.
    now rewrite (Qsgn_zero _ Hstep). }
  rewrite E. reflexivity.
Qed.

Lemma tickIncrement_NaN (stop : num) :
  tickIncrement NaN stop (ofZ 10) = NaN.
Proof. destruct stop; reflexivity. Qed.

End NumberFacts.

Section NiceFacts.
Local Open Scope Q_scope.

Lemma sameStep_NaN (prestep : option num) : sameStep NaN prestep = false.
Proof. destruct prestep; reflexivity. Qed.

(** A [NaN] at the lower end stops the loop without a result. *)
Lemma niceLoop_NaN (maxIter : nat) (stop : num) (prestep : option num) :
  niceLoop maxIter (ofZ 10) NaN stop prestep = None.
Proof.
  destruct maxIter as [|k]; cbn [niceLoop]; [reflexivity|].
  now rewrite tickIncrement_NaN, sameStep_NaN.
Qed.

(** So does a domain whose two ends are zero: the increment is
    [-Infinity], the next ends are [NaN]. *)
Lemma niceLoop_flat (maxIter : nat) (a s : Q) :
  a == 0 -> s == 0 ->
  niceLoop maxIter (ofZ 10) (Fin a) (Fin s) None = None.
Proof.
  intros Ha Hs. destruct maxIter as [|k]; cbn [niceLoop]; [reflexivity|].
  rewrite (tickIncrement_flat a s Ha Hs).
  change (gt NInf (ofZ 0)) with false. change (lt NInf (ofZ 0)) with true.
  cbn iota. unfold sameStep. cbn iota.
  assert (E : mul (Fin a) NInf = NaN).
  { unfold mul, sgn. now rewrite (Qsgn_zero a Ha). }
  rewrite E. apply niceLoop_NaN.
Qed.

Lemma floor_of_zero (q : Q) : q == 0 -> Qfloor q = 0%Z.
Proof. intros ->. reflexivity. Qed.

Lemma ceiling_of_zero (q : Q) : q == 0 -> Qceiling q = 0%Z.
Proof. intros ->. reflexivity. Qed.

(** What the loop writes back, when it writes anything, is a pair of
    finite ends that lie at or outside the ends it was given; an end at
    zero stays at zero. *)
Lemma niceLoop_expands (maxIter : nat) :
  forall (a s : Q) (prestep : option num) (lo hi : Q),
    a < s -> a <= lo -> hi <= s ->
    match niceLoop maxIter (ofZ 10) (Fin a) (Fin s) prestep with
    | None => True
    | Some (Fin a', Fin s') =>
        a' <= lo /\ hi <= s' /\ (a == 0 -> a' == 0) /\ (s == 0 -> s' == 0)
    | Some _ => False
    end.
Proof.
  induction maxIter as [|k IH]; intros a s prestep lo hi Has Hlo Hhi;
    cbn [niceLoop].
  - exact I.
  - destruct (tickIncrement_finite a s Has) as (p & Hp & Hp0).
    rewrite Hp.
    destruct (sameStep (Fin p) prestep); [now repeat split|].
    unfold gt, lt, ofZ, Qlt_bool.
    destruct (Qle_bool p (inject_Z 0)) eqn:Epos; cbn [negb].
    + (* the increment is negative: the ends are multiplied, then divided *)
      assert (Hneg : p < 0).
      { apply Qle_bool_iff in Epos. change (inject_Z 0) with 0 in Epos.
        apply Qle_lteq in Epos. destruct Epos; [assumption|contradiction]. }
      destruct (Qle_bool (inject_Z 0) p) eqn:Eneg.
      { apply Qle_bool_iff in Eneg. change (inject_Z 0) with 0 in Eneg. lra. }
      cbn [negb].
      change (mul (Fin a) (Fin p)) with (Fin (a * p)).
      change (mul (Fin s) (Fin p)) with (Fin (s * p)).
      change (ceil (Fin (a * p))) with (Fin (inject_Z (Qceiling (a * p)))).
      change (floor (Fin (s * p))) with (Fin (inject_Z (Qfloor (s * p)))).
      rewrite !div_finite by assumption.
      pose proof (Qfloor_le (s * p)) as Hf.
      pose proof (Qle_ceiling (a * p)) as Hc.
      assert (Ef : inject_Z (Qfloor (s * p)) / p * p
                   == inject_Z (Qfloor (s * p))) by (field; assumption).
      assert (Ec : inject_Z (Qceiling (a * p)) / p * p
                   == inject_Z (Qceiling (a * p))) by (field; assumption).
      assert (Ha0 : a == 0 -> inject_Z (Qceiling (a * p)) / p == 0).
      { intros Ha. rewrite (ceiling_of_zero (a * p)) by (rewrite Ha; ring).
        reflexivity. }
      assert (Hs0 : s == 0 -> inject_Z (Qfloor (s * p)) / p == 0).
      { intros Hs. rewrite (floor_of_zero (s * p)) by (rewrite Hs; ring).
        reflexivity. }
      set (F := inject_Z (Qfloor (s * p)) / p) in *.
      set (C := inject_Z (Qceiling (a * p)) / p) in *.
      assert (HCa : C <= a) by nra.
      assert (HsF : s <= F) by nra.
      specialize (IH C F (Some (Fin p)) lo hi ltac:(lra) ltac:(lra) ltac:(lra)).
      change (ofZ 10) with (Fin (inject_Z 10)) in IH.
      destruct (niceLoop k (Fin (inject_Z 10)) (Fin C) (Fin F) (Some (Fin p)))
        as [[[| | |a'] [| | |s']]|]; cbv beta iota in IH |- *; try exact IH.
      destruct IH as (H1 & H2 & H3 & H4). repeat split; auto.
    + (* the increment is positive: the ends are divided, then multiplied *)
      assert (Hpos : 0 < p).
      { apply Qnot_le_lt. intros H. apply Qle_bool_iff in H.
        change (inject_Z 0) with 0 in Epos. congruence. }
      rewrite !div_finite by assumption.
      change (floor (Fin (a / p))) with (Fin (inject_Z (Qfloor (a / p)))).
      change (ceil (Fin (s / p))) with (Fin (inject_Z (Qceiling (s / p)))).
      change (mul (Fin ?x) (Fin p)) with (Fin (x * p)).
      pose proof (Qfloor_le (a / p)) as Hf.
      pose proof (Qle_ceiling (s / p)) as Hc.
      assert (Ea : a / p * p == a) by (field; assumption).
      assert (Es : s / p * p == s) by (field; assumption).
      assert (Ha0 : a == 0 -> inject_Z (Qfloor (a / p)) * p == 0).
      { intros Ha.
        rewrite (floor_of_zero (a / p)) by (rewrite Ha; field; assumption).
        ring. }
      assert (Hs0 : s == 0 -> inject_Z (Qceiling (s / p)) * p == 0).
      { intros Hs.
        rewrite (ceiling_of_zero (s / p)) by (rewrite Hs; field; assumption).
        ring. }
      set (F := inject_Z (Qfloor (a / p))) in *.
      set (C := inject_Z (Qceiling (s / p))) in *.
      assert (HFa : F * p <= a) by nra.
      assert (HsC : s <= C * p) by nra.
      specialize (IH (F * p) (C * p) (Some (Fin p)) lo hi
                    ltac:(lra) ltac:(lra) ltac:(lra)).
      change (ofZ 10) with (Fin (inject_Z 10)) in IH.
      destruct (niceLoop k (Fin (inject_Z 10)) (Fin (F * p)) (Fin (C * p))
                  (Some (Fin p)))
        as [[[| | |a'] [| | |s']]|]; cbv beta iota in IH |- *; try exact IH.
      destruct IH as (H1 & H2 & H3 & H4). repeat split; auto.
Qed.

End NiceFacts.
(** ** The spacing that [tickIncrement] chooses *)

Section TickFacts.
Local Open Scope Q_scope.

Let ten : Q := inject_Z 10.

Lemma ten_succ (k : Z) : ten ^ (k + 1) == 10 * ten ^ k.
Proof.
  rewrite Qpower_plus by discriminate. rewrite Qpower_1_r.
  change ten with 10. ring.
Qed.

Lemma ten_inverse (k : Z) : ten ^ (- k) == / ten ^ k.
Proof. apply Qpower_opp. Qed.

Lemma ten_monotone (j k : Z) : (j <= k)%Z -> ten ^ j <= ten ^ k.
Proof. intros H. apply Qpower_le_compat_l; [assumption | discriminate]. Qed.

(** The power of ten at or just below [q] is the only one. *)
Lemma ilog10_unique (q : Q) (j : Z) :
  ten ^ j <= q -> q < ten ^ (j + 1) -> ilog10 q = j.
Proof.
  intros Hlo Hhi.
  assert (Hq : 0 < q).
  { eapply Qlt_le_trans; [apply (ten_pos j) | exact Hlo]. }
  destruct (ilog10_spec q Hq) as (Hl & Hh). fold ten in Hl, Hh.
  assert (H1 : (ilog10 q < j + 1)%Z).
  { apply (Qpower_lt_compat_l_inv ten); [|reflexivity].
    eapply Qle_lt_trans; eassumption. }
  assert (H2 : (j < ilog10 q + 1)%Z).
  { apply (Qpower_lt_compat_l_inv ten); [|reflexivity].
    eapply Qle_lt_trans; eassumption. }
  lia.
Qed.

(** The factor of [tickIncrement], by the square of the error. *)
Lemma tickFactor_cases (e : Q) :
  0 < e ->
  (50 <= e * e /\ tickFactor (Fin e) = ofZ 10) \/
  (10 <= e * e /\ e * e < 50 /\ tickFactor (Fin e) = ofZ 5) \/
  (2 <= e * e /\ e * e < 10 /\ tickFactor (Fin e) = ofZ 2) \/
  (e * e < 2 /\ tickFactor (Fin e) = ofZ 1).
Proof.
  intros He. unfold tickFactor, geSqrt.
  assert (H0 : Qle_bool 0 e = true) by (apply Qle_bool_iff; lra).
  rewrite H0. cbn [andb].
  destruct (Qle_bool (inject_Z 50) (e * e)) eqn:E50.
  { left. apply Qle_bool_iff in E50. now split. }
  assert (H50 : e * e < 50).
  { apply Qnot_le_lt. intros H. apply Qle_bool_iff in H.
    change 50 with (inject_Z 50) in H. congruence. }
  destruct (Qle_bool (inject_Z 10) (e * e)) eqn:E10.
  { right. left. apply Qle_bool_iff in E10. now repeat split. }
  assert (H10 : e * e < 10).
  { apply Qnot_le_lt. intros H. apply Qle_bool_iff in H.
    change 10 with (inject_Z 10) in H. congruence. }
  destruct (Qle_bool (inject_Z 2) (e * e)) eqn:E2.
  { right. right. left. apply Qle_bool_iff in E2. now repeat split. }
  right. right. right. split; [|reflexivity].
  apply Qnot_le_lt. intros H. apply Qle_bool_iff in H.
  change 2 with (inject_Z 2) in H. congruence.
Qed.

(** The increment from a start at zero, by the power of ten below a
    tenth of the stop and the factor: negated and inverted when the
    stop is below 10. *)
Lemma tickIncrement_value (a s : Q) :
  a == 0 -> 0 < s ->
  let raw := (s + - a) / ten in
  let k := ilog10 raw in
  exists fq,
    tickFactor (Fin (raw / ten ^ k)) = Fin fq /\ 0 < fq /\
    ((s < 10 /\ (k < 0)%Z /\
      tickIncrement (Fin a) (Fin s) (ofZ 10) = Fin (- (ten ^ (- k) / fq))) \/
     (10 <= s /\ (0 <= k)%Z /\
      tickIncrement (Fin a) (Fin s) (ofZ 10) = Fin (ten ^ k * fq))).
Proof.
  intros Ha Hs raw k.
  assert (Hraw : 0 < raw).
  { subst raw. apply Qlt_shift_div_l; [reflexivity | rewrite Qmult_0_l; lra]. }
  assert (Eraw : raw * 10 == s).
  { subst raw. unfold ten. rewrite Ha. field. }
  destruct (ilog10_spec raw Hraw) as (Hlo & Hhi). fold ten k in Hlo, Hhi.
  pose proof (ten_pos k) as Hx. fold ten in Hx.
  destruct (tickFactor_finite (Fin (raw / ten ^ k))) as (fq & Hf & Hfpos).
  exists fq. split; [exact Hf|]. split; [exact Hfpos|].
  pose proof (ten_pos (- k)) as Hx'. fold ten in Hx'.
  assert (ET : tickIncrement (Fin a) (Fin s) (ofZ 10) =
               if lt (ofZ k) (ofZ 0)
               then Fin (- (ten ^ (- k) / fq))
               else Fin (ten ^ k * fq)).
  { unfold tickIncrement.
    change (JsNum.max (ofZ 0) (ofZ 10)) with (Fin (inject_Z 10)).
    change (sub (Fin s) (Fin a)) with (Fin (s + - a)).
    rewrite div_finite by discriminate.
    fold ten. fold raw.
    rewrite (floorLog10_pos raw Hraw). fold k.
    change (pow10 (ofZ k)) with (Fin (ten ^ Qfloor (inject_Z k))).
    change (pow10 (neg (ofZ k))) with (Fin (ten ^ Qfloor (inject_Z (- k)))).
    rewrite !Qfloor_Z.
    rewrite div_finite by lra.
    rewrite Hf.
    rewrite div_finite by lra.
    reflexivity. }
  rewrite ET. unfold lt, ofZ, Qlt_bool.
  destruct (Z_lt_le_dec k 0) as [Hneg|Hpos].
  - left.
    assert (E : Qle_bool (inject_Z 0) (inject_Z k) = false).
    { destruct (Qle_bool (inject_Z 0) (inject_Z k)) eqn:E; [|reflexivity].
      apply Qle_bool_iff in E. rewrite <- Zle_Qle in E. lia. }
    rewrite E. cbn [negb].
    split; [|split; [assumption | reflexivity]].
    assert (H1 : ten ^ (k + 1) <= ten ^ 0) by (apply ten_monotone; lia).
    change (ten ^ 0) with 1 in H1. lra.
  - right.
    assert (E : Qle_bool (inject_Z 0) (inject_Z k) = true).
    { apply Qle_bool_iff. rewrite <- Zle_Qle. assumption. }
    rewrite E. cbn [negb].
    split; [|split; [assumption | reflexivity]].
    assert (H1 : ten ^ 0 <= ten ^ k) by (apply ten_monotone; lia).
    change (ten ^ 0) with 1 in H1. lra.
Qed.

End TickFacts.

Section BucketFacts.
Local Open Scope Q_scope.

Let ten : Q := inject_Z 10.

Lemma spacing_pos (f : mantissa) (k : Z) : 0 < spacing f k.
Proof.
  unfold spacing. pose proof (ten_pos k).
  destruct f; cbn [mantissaValue]; lra.
Qed.

Lemma square_between (x e raw lo hi : Q) :
  0 < x -> e * x == raw -> lo <= e * e -> e * e < hi ->
  lo * (x * x) <= raw * raw /\ raw * raw < hi * (x * x).
Proof.
  intros Hx E Hlo Hhi.
  assert (E2 : raw * raw == e * e * (x * x)) by (rewrite <- E; ring).
  assert (HX : 0 < x * x) by nra.
  set (X := x * x) in *. set (R := raw * raw) in *. set (E' := e * e) in *.
  split; nra.
Qed.

(** The spacing that the increment stands for lies in the bucket of the
    stop it was computed from. *)
Lemma tick_choice (a s : Q) :
  a == 0 -> 0 < s ->
  exists f k p,
    inBucket f k s /\
    tickIncrement (Fin a) (Fin s) (ofZ 10) = Fin p /\
    ((10 <= s /\ p == spacing f k) \/ (s < 10 /\ p == - (1 / spacing f k))).
Proof.
  intros Ha Hs.
  destruct (tickIncrement_value a s Ha Hs) as (fq & Hf & Hfpos & Hinc).
  cbv zeta in Hf, Hinc. fold ten in Hf, Hinc.
  set (raw := (s + - a) / ten) in *.
  set (k := ilog10 raw) in *.
  assert (Hraw : 0 < raw).
  { subst raw. apply Qlt_shift_div_l; [reflexivity | rewrite Qmult_0_l; lra]. }
  assert (Eraw : s / inject_Z 10 == raw).
  { subst raw. fold ten. rewrite Ha. field. discriminate. }
  destruct (ilog10_spec raw Hraw) as (Hlo & Hhi). fold ten k in Hlo, Hhi.
  pose proof (ten_pos k) as Hx. fold ten in Hx.
  pose proof (ten_succ k) as Hsucc. fold ten in Hsucc.
  pose proof (ten_inverse k) as Hinv. fold ten in Hinv.
  assert (He : 0 < raw / ten ^ k) by (apply Qlt_shift_div_l; lra).
  assert (Ee : raw / ten ^ k * ten ^ k == raw) by (field; lra).
  assert (He1 : 1 <= raw / ten ^ k) by (apply Qle_shift_div_l; lra).
  assert (He10 : raw / ten ^ k < 10) by (apply Qlt_shift_div_r; lra).
  set (x := ten ^ k) in *. set (e := raw / x) in *.
  set (x1 := ten ^ (k + 1)) in *. set (xi := ten ^ (- k)) in *.
  assert (Hxi : xi * x == 1) by (rewrite Hinv; field; lra).
  assert (Hbounds : forall (f : mantissa) (j : Z) (c lo hi : Q),
            spacing f j == c * x ->
            lo <= e * e -> e * e < hi ->
            lower f * (c * c) <= lo -> hi <= upper f * (c * c) ->
            inBucket f j s).
  { intros f j c lo hi Estep H1 H2 H3 H4. unfold inBucket. cbv zeta.
    rewrite Eraw, Estep.
    destruct (square_between x e raw lo hi Hx Ee H1 H2) as (G1 & G2).
    assert (HX : 0 < x * x) by nra.
    assert (EX : c * x * (c * x) == c * c * (x * x)) by ring.
    rewrite EX.
    set (X := x * x) in *. set (R := raw * raw) in *. set (C := c * c) in *.
    split; nra. }
  assert (He100 : e * e < 100) by nra.
  assert (He1' : 1 <= e * e) by nra.
  destruct (tickFactor_cases e He)
    as [(H50 & E)|[(H10 & H50 & E)|[(H2 & H10 & E)|(H2 & E)]]];
    rewrite E in Hf; injection Hf as <-.
  - exists One, (k + 1)%Z.
    assert (Estep : spacing One (k + 1) == 10 * x).
    { unfold spacing. cbn [mantissaValue]. fold ten. fold x1. lra. }
    destruct Hinc as [(Hs10 & _ & ->)|(Hs10 & _ & ->)]; eexists;
      (split; [apply (Hbounds One (k + 1)%Z 10 50 100 Estep);
               cbn [lower upper]; lra|]);
      (split; [reflexivity|]).
    + right. split; [assumption|]. rewrite Estep.
      change (inject_Z 10) with 10. field_simplify_eq; [nra | lra].
    + left. split; [assumption|]. rewrite Estep.
      change (inject_Z 10) with 10. ring.
  - exists Five, k.
    assert (Estep : spacing Five k == 5 * x).
    { unfold spacing. cbn [mantissaValue]. fold ten. fold x. lra. }
    destruct Hinc as [(Hs10 & _ & ->)|(Hs10 & _ & ->)]; eexists;
      (split; [apply (Hbounds Five k 5 10 50 Estep);
               cbn [lower upper]; lra|]);
      (split; [reflexivity|]).
    + right. split; [assumption|]. rewrite Estep.
      change (inject_Z 5) with 5. field_simplify_eq; [nra | lra].
    + left. split; [assumption|]. rewrite Estep.
      change (inject_Z 5) with 5. ring.
  - exists Two, k.
    assert (Estep : spacing Two k == 2 * x).
    { unfold spacing. cbn [mantissaValue]. fold ten. fold x. lra. }
    destruct Hinc as [(Hs10 & _ & ->)|(Hs10 & _ & ->)]; eexists;
      (split; [apply (Hbounds Two k 2 2 10 Estep);
               cbn [lower upper]; lra|]);
      (split; [reflexivity|]).
    + right. split; [assumption|]. rewrite Estep.
      change (inject_Z 2) with 2. field_simplify_eq; [nra | lra].
    + left. split; [assumption|]. rewrite Estep.
      change (inject_Z 2) with 2. ring.
  - exists One, k.
    assert (Estep : spacing One k == 1 * x).
    { unfold spacing. cbn [mantissaValue]. fold ten. fold x. lra. }
    destruct Hinc as [(Hs10 & _ & ->)|(Hs10 & _ & ->)]; eexists;
      (split; [apply (Hbounds One k 1 1 2 Estep);
               cbn [lower upper]; lra|]);
      (split; [reflexivity|]).
    + right. split; [assumption|]. rewrite Estep.
      change (inject_Z 1) with 1. field_simplify_eq; [nra | lra].
    + left. split; [assumption|]. rewrite Estep.
      change (inject_Z 1) with 1. ring.
Qed.

End BucketFacts.

Section BucketOrder.
Local Open Scope Q_scope.

Let ten : Q := inject_Z 10.

(** Buckets follow one another: where one spacing is below another, its
    bucket ends at or before the point where the other starts. *)
Lemma bucket_order (f f' : mantissa) (k k' : Z) :
  spacing f k < spacing f' k' ->
  upper f * (spacing f k * spacing f k) <=
  lower f' * (spacing f' k' * spacing f' k').
Proof.
  unfold spacing. fold ten. intros Hlt.
  pose proof (ten_pos k) as Hx. pose proof (ten_pos k') as Hx'.
  fold ten in Hx, Hx'.
  destruct (Z_lt_le_dec k k') as [Hup|Hdown].
  - (* a higher power of ten *)
    assert (H : ten ^ (k + 1) <= ten ^ k') by (apply ten_monotone; lia).
    pose proof (ten_succ k) as Hs. fold ten in Hs. rewrite Hs in H.
    set (x := ten ^ k) in *. set (x' := ten ^ k') in *.
    destruct f, f'; cbn [mantissaValue lower upper] in *; nra.
  - destruct (Z_le_lt_eq_dec k' k Hdown) as [Hlow| ->].
    + (* a lower power of ten: the spacing cannot be above *)
      exfalso.
      assert (H : ten ^ (k' + 1) <= ten ^ k) by (apply ten_monotone; lia).
      pose proof (ten_succ k') as Hs. fold ten in Hs. rewrite Hs in H.
      set (x := ten ^ k) in *. set (x' := ten ^ k') in *.
      destruct f, f'; cbn [mantissaValue] in *; lra.
    + set (x := ten ^ k) in *.
      destruct f, f'; cbn [mantissaValue lower upper] in *; nra.
Qed.

(** So a stop lies in the bucket of one spacing only. *)
Lemma bucket_unique (f f' : mantissa) (k k' : Z) (s : Q) :
  inBucket f k s -> inBucket f' k' s -> spacing f k == spacing f' k'.
Proof.
  unfold inBucket. cbv zeta. intros (H1 & H2) (H1' & H2').
  destruct (Q_dec (spacing f k) (spacing f' k')) as [[Hlt|Hgt]|Heq];
    [| |assumption]; exfalso.
  - pose proof (bucket_order f f' k k' Hlt). lra.
  - pose proof (bucket_order f' f k' k Hgt). lra.
Qed.

(** The increment of a stop, from the bucket the stop lies in. *)
Lemma tick_of_bucket (f : mantissa) (k : Z) (a s : Q) :
  a == 0 -> 0 < s -> inBucket f k s ->
  exists p,
    tickIncrement (Fin a) (Fin s) (ofZ 10) = Fin p /\
    ((10 <= s /\ p == spacing f k) \/ (s < 10 /\ p == - (1 / spacing f k))).
Proof.
  intros Ha Hs Hb.
  destruct (tick_choice a s Ha Hs) as (f' & k' & p & Hb' & Hp & Hcase).
  exists p. split; [assumption|].
  now rewrite (bucket_unique f f' k k' s Hb Hb').
Qed.

Lemma inBucket_comp (f : mantissa) (k : Z) (s s' : Q) :
  s == s' -> inBucket f k s -> inBucket f k s'.
Proof. unfold inBucket. cbv zeta. now intros ->. Qed.

(** A multiple of the spacing lies in the bucket when the square of the
    multiplier lies between the bounds. *)
Lemma bucket_of_multiple (f : mantissa) (k : Z) (s c : Q) :
  s == c * spacing f k ->
  lower f * 100 <= c * c ->
  c * c < upper f * 100 ->
  inBucket f k s.
Proof.
  intros Es Hlo Hhi. unfold inBucket. cbv zeta.
  rewrite Es. pose proof (spacing_pos f k) as Hp.
  set (step := spacing f k) in *.
  assert (E : c * step / inject_Z 10 * (c * step / inject_Z 10)
              == c * c * (1 # 100) * (step * step)).
  { change (inject_Z 10) with 10. field. }
  rewrite E.
  assert (HS : 0 < step * step) by nra.
  set (S2 := step * step) in *. set (C2 := c * c) in *.
  split; nra.
Qed.

End BucketOrder.

Section NiceLoopFacts.
Local Open Scope Q_scope.

(** A turn of the loop that meets the increment of the turn before
    returns the ends it was given. *)
Lemma niceLoop_return (j : nat) (a s p : Q) (prestep : option num) :
  tickIncrement (Fin a) (Fin s) (ofZ 10) = Fin p ->
  sameStep (Fin p) prestep = true ->
  niceLoop (S j) (ofZ 10) (Fin a) (Fin s) prestep = Some (Fin a, Fin s).
Proof. intros HT Hsame. cbn [niceLoop]. now rewrite HT, Hsame. Qed.

(** One turn of the loop that does not return: the start stays at zero,
    the stop moves up to the next whole number of spacings. *)
Lemma niceLoop_turn (j : nat) (a s p sp : Q) (prestep : option num) :
  a == 0 -> 0 < s -> 0 < sp ->
  tickIncrement (Fin a) (Fin s) (ofZ 10) = Fin p ->
  (10 <= s /\ p == sp) \/ (s < 10 /\ p == - (1 / sp)) ->
  sameStep (Fin p) prestep = false ->
  exists a' s',
    niceLoop (S j) (ofZ 10) (Fin a) (Fin s) prestep =
    niceLoop j (ofZ 10) (Fin a') (Fin s') (Some (Fin p)) /\
    a' == 0 /\ s' == inject_Z (Qceiling (s / sp)) * sp.
Proof.
  intros Ha Hs Hsp HT Hcase Hsame.
  cbn [niceLoop]. rewrite HT, Hsame.
  unfold gt, lt, ofZ, Qlt_bool.
  destruct Hcase as [(_ & Hp)|(_ & Hp)].
  - (* a positive increment: divide, round, multiply *)
    assert (Hpos : 0 < p) by lra.
    assert (E : Qle_bool p (inject_Z 0) = false).
    { destruct (Qle_bool p (inject_Z 0)) eqn:E; [|reflexivity].
      apply Qle_bool_iff in E. change (inject_Z 0) with 0 in E. lra. }
    rewrite E. cbn [negb].
    rewrite !div_finite by lra.
    exists (inject_Z (Qfloor (a / p)) * p), (inject_Z (Qceiling (s / p)) * p).
    split; [reflexivity|]. split.
    + rewrite (floor_of_zero (a / p)) by (rewrite Ha; field; lra). ring.
    + assert (Eq : s / p == s / sp) by now rewrite Hp.
      rewrite (Qceiling_comp _ _ Eq). now rewrite Hp.
  - (* a negative one: multiply, round, divide *)
    assert (Hinv : 0 < 1 / sp) by (apply Qlt_shift_div_l; lra).
    assert (Hneg : p < 0) by lra.
    assert (E : Qle_bool p (inject_Z 0) = true).
    { apply Qle_bool_iff. change (inject_Z 0) with 0. lra. }
    rewrite E. cbn [negb].
    assert (E' : Qle_bool (inject_Z 0) p = false).
    { destruct (Qle_bool (inject_Z 0) p) eqn:E'; [|reflexivity].
      apply Qle_bool_iff in E'. change (inject_Z 0) with 0 in E'. lra. }
    rewrite E'. cbn [negb].
    change (mul (Fin a) (Fin p)) with (Fin (a * p)).
    change (mul (Fin s) (Fin p)) with (Fin (s * p)).
    change (ceil (Fin (a * p))) with (Fin (inject_Z (Qceiling (a * p)))).
    change (floor (Fin (s * p))) with (Fin (inject_Z (Qfloor (s * p)))).
    rewrite !div_finite by lra.
    exists (inject_Z (Qceiling (a * p)) / p), (inject_Z (Qfloor (s * p)) / p).
    split; [reflexivity|]. split.
    + rewrite (ceiling_of_zero (a * p)) by (rewrite Ha; ring). reflexivity.
    + assert (Eq : s * p == - (s / sp)) by (rewrite Hp; field; lra).
      rewrite (Qfloor_comp _ _ Eq).
      unfold Qceiling. rewrite inject_Z_opp, Hp. field. lra.
Qed.

(** From a stop that is a whole number of the spacings of its own
    bucket the loop returns within two turns, with that stop. *)
Lemma niceLoop_settles (f : mantissa) (k : Z) (j : nat) (a s : Q) (n : Z)
    (prestep : option num) :
  a == 0 -> 0 < s -> inBucket f k s -> s == inject_Z n * spacing f k ->
  exists a' s',
    niceLoop (S (S j)) (ofZ 10) (Fin a) (Fin s) prestep =
    Some (Fin a', Fin s') /\
    a' == 0 /\ s' == s.
Proof.
  intros Ha Hs Hb Hn.
  pose proof (spacing_pos f k) as Hsp.
  destruct (tick_of_bucket f k a s Ha Hs Hb) as (p & HT & Hcase).
  destruct (sameStep (Fin p) prestep) eqn:Hsame.
  - exists a, s. rewrite (niceLoop_return _ a s p prestep HT Hsame).
    split; [reflexivity|]. split; [assumption | reflexivity].
  - destruct (niceLoop_turn (S j) a s p (spacing f k) prestep
                Ha Hs Hsp HT Hcase Hsame) as (a' & s' & -> & Ha' & Hs').
    assert (Eq : s / spacing f k == inject_Z n) by (rewrite Hn; field; lra).
    rewrite (Qceiling_comp _ _ Eq), Qceiling_Z, <- Hn in Hs'.
    assert (Hpos' : 0 < s') by lra.
    destruct (tick_of_bucket f k a' s' Ha' Hpos'
                (inBucket_comp f k s s' (Qeq_sym _ _ Hs') Hb))
      as (p' & HT' & Hcase').
    assert (Epp : p' == p).
    { destruct Hcase as [(H1 & ->)|(H1 & ->)],
               Hcase' as [(H2 & ->)|(H2 & ->)];
        try reflexivity; lra. }
    exists a', s'.
    rewrite (niceLoop_return j a' s' p' (Some (Fin p)) HT'
               (Qeq_eq_bool _ _ Epp)).
    split; [reflexivity|]. split; assumption.
Qed.

(** Two turns from a positive stop: the stop is moved up to a whole
    number of the spacings of its bucket, then to a whole number of the
    spacings of the bucket it has reached; when that is the bucket of the
    second stop the loop returns with it. *)
Lemma niceLoop_two_rounds (f1 f2 : mantissa) (k1 k2 : Z) (a m : Q) :
  a == 0 -> 0 < m -> inBucket f1 k1 m ->
  let s1 := inject_Z (Qceiling (m / spacing f1 k1)) * spacing f1 k1 in
  inBucket f2 k2 s1 ->
  let s2 := inject_Z (Qceiling (s1 / spacing f2 k2)) * spacing f2 k2 in
  inBucket f2 k2 s2 ->
  exists a' M,
    niceLoop 10 (ofZ 10) (Fin a) (Fin m) None = Some (Fin a', Fin M) /\
    a' == 0 /\ M == s2.
Proof.
  intros Ha Hm Hb1 s1 Hb2 s2 Hb3.
  pose proof (spacing_pos f1 k1) as Hsp1.
  pose proof (spacing_pos f2 k2) as Hsp2.
  assert (Hms1 : m <= s1).
  { subst s1. pose proof (Qle_ceiling (m / spacing f1 k1)) as H.
    assert (E : m / spacing f1 k1 * spacing f1 k1 == m) by (field; lra).
    set (C := inject_Z (Qceiling (m / spacing f1 k1))) in *.
    set (q := m / spacing f1 k1) in *. nra. }
  destruct (tick_of_bucket f1 k1 a m Ha Hm Hb1) as (p1 & HT1 & Hcase1).
  destruct (niceLoop_turn 9 a m p1 (spacing f1 k1) None
              Ha Hm Hsp1 HT1 Hcase1 eq_refl) as (a1 & s1' & -> & Ha1 & Hs1).
  fold s1 in Hs1.
  assert (Hpos1 : 0 < s1') by lra.
  destruct (tick_of_bucket f2 k2 a1 s1' Ha1 Hpos1
              (inBucket_comp f2 k2 s1 s1' (Qeq_sym _ _ Hs1) Hb2))
    as (p2 & HT2 & Hcase2).
  destruct (sameStep (Fin p2) (Some (Fin p1))) eqn:Hsame.
  - (* the second increment is the first: the stop is returned *)
    exists a1, s1'.
    rewrite (niceLoop_return 8 a1 s1' p2 (Some (Fin p1)) HT2 Hsame).
    split; [reflexivity|]. split; [assumption|].
    cbn [sameStep strictEq] in Hsame. apply Qeq_bool_eq in Hsame.
    assert (Esp : spacing f2 k2 == spacing f1 k1).
    { assert (Hi1 : 0 < 1 / spacing f1 k1) by (apply Qlt_shift_div_l; lra).
      assert (Hi2 : 0 < 1 / spacing f2 k2) by (apply Qlt_shift_div_l; lra).
      destruct Hcase1 as [(_ & E1)|(_ & E1)],
               Hcase2 as [(_ & E2)|(_ & E2)]; try lra.
      assert (E : 1 / spacing f2 k2 == 1 / spacing f1 k1) by lra.
      assert (Ex : 1 / spacing f2 k2 * spacing f2 k2 == 1) by (field; lra).
      assert (Ey : 1 / spacing f1 k1 * spacing f1 k1 == 1) by (field; lra).
      rewrite E in Ex.
      set (i := 1 / spacing f1 k1) in *. nra. }
    rewrite Hs1. subst s2.
    assert (Eq : s1 / spacing f2 k2
                 == inject_Z (Qceiling (m / spacing f1 k1))).
    { subst s1. rewrite Esp. field. lra. }
    rewrite (Qceiling_comp _ _ Eq), Qceiling_Z, Esp. reflexivity.
  - destruct (niceLoop_turn 8 a1 s1' p2 (spacing f2 k2) (Some (Fin p1))
                Ha1 Hpos1 Hsp2 HT2 Hcase2 Hsame)
      as (a2 & s2' & -> & Ha2 & Hs2).
    assert (Eq : s1' / spacing f2 k2 == s1 / spacing f2 k2) by now rewrite Hs1.
    rewrite (Qceiling_comp _ _ Eq) in Hs2. fold s2 in Hs2.
    assert (Hpos2 : 0 < s2').
    { rewrite Hs2. subst s2.
      pose proof (Qle_ceiling (s1 / spacing f2 k2)) as H.
      assert (E : s1 / spacing f2 k2 * spacing f2 k2 == s1) by (field; lra).
      set (C := inject_Z (Qceiling (s1 / spacing f2 k2))) in *.
      set (q := s1 / spacing f2 k2) in *. nra. }
    destruct (niceLoop_settles f2 k2 6 a2 s2'
                (Qceiling (s1 / spacing f2 k2)) (Some (Fin p2)) Ha2 Hpos2
                (inBucket_comp f2 k2 s2 s2' (Qeq_sym _ _ Hs2) Hb3) Hs2)
      as (a' & M & HM & Ha' & HM').
    exists a', M. split; [exact HM|]. split; [assumption | lra].
Qed.

End NiceLoopFacts.

Section NiceEnds.
Local Open Scope Q_scope.

Let ten : Q := inject_Z 10.

(** [niceLoop_two_rounds], with the two stops given as multiples of the
    second spacing. *)
Lemma two_rounds_multiple (f1 f2 : mantissa) (k1 k2 : Z) (a m : Q)
    (n1 n2 : Z) (c : Q) :
  a == 0 -> 0 < m -> inBucket f1 k1 m ->
  Qceiling (m / spacing f1 k1) = n1 ->
  inject_Z n1 * spacing f1 k1 == c * spacing f2 k2 ->
  lower f2 * 100 <= c * c -> c * c < upper f2 * 100 ->
  Qceiling c = n2 ->
  lower f2 * 100 <= inject_Z n2 * inject_Z n2 ->
  inject_Z n2 * inject_Z n2 < upper f2 * 100 ->
  exists a' M,
    niceLoop 10 (ofZ 10) (Fin a) (Fin m) None = Some (Fin a', Fin M) /\
    a' == 0 /\ M == inject_Z n2 * spacing f2 k2.
Proof.
  intros Ha Hm Hb Hn1 Hc Hclo Hchi Hn2 Hnlo Hnhi.
  pose proof (spacing_pos f2 k2) as Hsp2.
  assert (Eq : inject_Z n1 * spacing f1 k1 / spacing f2 k2 == c).
  { rewrite Hc. field. lra. }
  destruct (niceLoop_two_rounds f1 f2 k1 k2 a m Ha Hm Hb)
    as (a' & M & HM & Ha' & HM').
  - rewrite Hn1. now apply (bucket_of_multiple f2 k2 _ c).
  - rewrite Hn1, (Qceiling_comp _ _ Eq), Hn2.
    now apply (bucket_of_multiple f2 k2 _ (inject_Z n2)).
  - rewrite Hn1, (Qceiling_comp _ _ Eq), Hn2 in HM'.
    exists a', M. now repeat split.
Qed.

(** Where the loop of [nice()] ends from a start at zero and a positive
    stop: it returns, the start still at zero and the stop moved up, by
    less than one spacing, to a whole number of spacings, between 7 and
    15 of them, the spacing being 1, 2 or 5 times a power of ten. *)
Lemma niceLoop_friendly (a m : Q) :
  a == 0 -> 0 < m ->
  exists a' M f k n,
    niceLoop 10 (ofZ 10) (Fin a) (Fin m) None = Some (Fin a', Fin M) /\
    a' == 0 /\
    M == inject_Z n * spacing f k /\
    (7 <= n <= 15)%Z /\
    m <= M /\ M < m + spacing f k.
Proof.
  intros Ha Hm.
  destruct (tick_choice a m Ha Hm) as (f1 & k1 & p & Hb & _).
  pose proof (spacing_pos f1 k1) as Hsp.
  pose proof (Qle_ceiling (m / spacing f1 k1)) as Hceil.
  pose proof (Qceiling_lt (m / spacing f1 k1)) as Hceil'.
  assert (Em : m / spacing f1 k1 * spacing f1 k1 == m) by (field; lra).
  assert (Hq : 0 < m / spacing f1 k1) by (apply Qlt_shift_div_l; lra).
  assert (Hq2 : lower f1 * 100 <= m / spacing f1 k1 * (m / spacing f1 k1) /\
                m / spacing f1 k1 * (m / spacing f1 k1) < upper f1 * 100).
  { unfold inBucket in Hb. cbv zeta in Hb. destruct Hb as (H1 & H2).
    assert (E : m / inject_Z 10 * (m / inject_Z 10)
                == m / spacing f1 k1 * (m / spacing f1 k1) * (1 # 100)
                   * (spacing f1 k1 * spacing f1 k1)).
    { change (inject_Z 10) with 10. field. lra. }
    rewrite E in H1, H2.
    assert (HS : 0 < spacing f1 k1 * spacing f1 k1) by nra.
    set (S2 := spacing f1 k1 * spacing f1 k1) in *.
    set (Q2 := m / spacing f1 k1 * (m / spacing f1 k1)) in *.
    split; nra. }
  destruct Hq2 as (Hlo & Hhi).
  remember (Qceiling (m / spacing f1 k1)) as n1 eqn:En1.
  symmetry in En1.
  unfold Zminus in Hceil'. rewrite inject_Z_plus in Hceil'.
  change (inject_Z (- (1))) with (-1) in Hceil'.
  set (q := m / spacing f1 k1) in *.
  assert (Hn1 : (1 <= n1)%Z).
  { destruct (Z_le_gt_dec 1 n1) as [H|H]; [assumption|exfalso].
    assert (inject_Z n1 <= 0) by (change 0 with (inject_Z 0);
                                  rewrite <- Zle_Qle; lia).
    lra. }
  assert (HN1 : 1 <= inject_Z n1)
    by (change 1 with (inject_Z 1); now rewrite <- Zle_Qle).
  (* the number of spacings is bounded by the bounds of the bucket *)
  assert (Hbelow : forall b : Z,
            inject_Z (b * b) < lower f1 * 100 -> (0 <= b)%Z -> (b < n1)%Z).
  { intros b Hb2 Hb0.
    destruct (Z_lt_le_dec b n1) as [H|H]; [assumption|exfalso].
    assert (HN : inject_Z n1 <= inject_Z b) by now rewrite <- Zle_Qle.
    rewrite inject_Z_mult in Hb2.
    set (B := inject_Z b) in *. set (N := inject_Z n1) in *. nra. }
  assert (Habove : forall b : Z,
            upper f1 * 100 <= inject_Z (b * b) -> (0 <= b)%Z ->
            (n1 <= b)%Z).
  { intros b Hb2 Hb0.
    destruct (Z_le_gt_dec n1 b) as [H|H]; [assumption|exfalso].
    assert (HN : inject_Z b <= inject_Z n1 + -1).
    { change (-1) with (inject_Z (-1)).
      rewrite <- inject_Z_plus, <- Zle_Qle. lia. }
    assert (HB : 0 <= inject_Z b)
      by (change 0 with (inject_Z 0); now rewrite <- Zle_Qle).
    rewrite inject_Z_mult in Hb2.
    set (B := inject_Z b) in *. set (N := inject_Z n1) in *.
    assert (HBq : B < q) by lra.
    assert (HB2 : B * B < q * q) by nra.
    lra. }
  (* a stop that stays in its bucket *)
  assert (Hsame : (inject_Z (n1 * n1) < upper f1 * 100) ->
                  (7 <= n1 <= 15)%Z ->
                  exists a' M f k n,
                    niceLoop 10 (ofZ 10) (Fin a) (Fin m) None =
                    Some (Fin a', Fin M) /\
                    a' == 0 /\ M == inject_Z n * spacing f k /\
                    (7 <= n <= 15)%Z /\ m <= M /\ M < m + spacing f k).
  { intros Hup Hrange.
    rewrite inject_Z_mult in Hup.
    assert (Hlow : lower f1 * 100 <= inject_Z n1 * inject_Z n1).
    { set (N := inject_Z n1) in *. nra. }
    destruct (two_rounds_multiple f1 f1 k1 k1 a m n1 n1 (inject_Z n1)
                Ha Hm Hb En1 (Qeq_refl _) Hlow Hup (Qceiling_Z n1) Hlow Hup)
      as (a' & M & HM & Ha' & HM').
    exists a', M, f1, k1, n1. repeat split; try assumption; try lia.
    - rewrite HM'. set (N := inject_Z n1) in *. nra.
    - rewrite HM'. set (N := inject_Z n1) in *. nra. }
  (* a stop that reaches the next bucket, whose spacing is [r] times
     the spacing of the first *)
  assert (Hnext : forall (f2 : mantissa) (k2 n2 : Z) (r c : Q),
            spacing f2 k2 == r * spacing f1 k1 ->
            inject_Z n1 == c * r ->
            inject_Z n1 <= inject_Z n2 * r ->
            inject_Z n2 * r <= inject_Z n1 + -1 + r ->
            lower f2 * 100 <= c * c -> c * c < upper f2 * 100 ->
            Qceiling c = n2 ->
            lower f2 * 100 <= inject_Z n2 * inject_Z n2 ->
            inject_Z n2 * inject_Z n2 < upper f2 * 100 ->
            (7 <= n2 <= 15)%Z ->
            exists a' M f k n,
              niceLoop 10 (ofZ 10) (Fin a) (Fin m) None =
              Some (Fin a', Fin M) /\
              a' == 0 /\ M == inject_Z n * spacing f k /\
              (7 <= n <= 15)%Z /\ m <= M /\ M < m + spacing f k).
  { intros f2 k2 n2 r c Er Ec Hle Hlt H1 H2 H3 H4 H5 H6.
    destruct (two_rounds_multiple f1 f2 k1 k2 a m n1 n2 c
                Ha Hm Hb En1) as (a' & M & HM & Ha' & HM'); try assumption.
    { rewrite Er, Ec. ring. }
    exists a', M, f2, k2, n2. repeat split; try assumption; try lia.
    - rewrite HM', Er.
      set (sp := spacing f1 k1) in *. set (N := inject_Z n1) in *.
      set (N2 := inject_Z n2) in *. nra.
    - rewrite HM', Er.
      set (sp := spacing f1 k1) in *. set (N := inject_Z n1) in *.
      set (N2 := inject_Z n2) in *. nra. }
  pose proof (ten_succ k1) as Hsucc. fold ten in Hsucc.
  destruct f1; cbn [lower upper] in *.
  - (* spacing 1: 8 to 15 of them; 15 reach the bucket of spacing 2 *)
    assert (H8 : (7 < n1)%Z) by (apply Hbelow; [reflexivity | lia]).
    assert (H15 : (n1 <= 15)%Z)
      by (apply Habove; [apply Qle_bool_iff; reflexivity | lia]).
    destruct (Z_le_gt_dec n1 14) as [Hin|Hout].
    + apply Hsame; [|lia].
      apply Qle_lt_trans with (inject_Z (14 * 14)); [|reflexivity].
      rewrite <- Zle_Qle. nia.
    + assert (E15 : n1 = 15%Z) by lia. rewrite E15 in Hnext.
      apply (Hnext Two k1 8%Z 2 (15 # 2));
        try reflexivity; try (apply Qle_bool_iff; reflexivity); try lia.
      unfold spacing. cbn [mantissaValue]. ring.
  - (* spacing 2: 8 to 16 of them; 16 reach the bucket of spacing 5 *)
    assert (H8 : (7 < n1)%Z) by (apply Hbelow; [reflexivity | lia]).
    assert (H16 : (n1 <= 16)%Z)
      by (apply Habove; [apply Qle_bool_iff; reflexivity | lia]).
    destruct (Z_le_gt_dec n1 15) as [Hin|Hout].
    + apply Hsame; [|lia].
      apply Qle_lt_trans with (inject_Z (15 * 15)); [|reflexivity].
      rewrite <- Zle_Qle. nia.
    + assert (E16 : n1 = 16%Z) by lia. rewrite E16 in Hnext.
      apply (Hnext Five k1 7%Z (5 # 2) (32 # 5));
        try reflexivity; try (apply Qle_bool_iff; reflexivity); try lia.
      unfold spacing. cbn [mantissaValue]. ring.
  - (* spacing 5: 7 to 15 of them; 15 reach the next power of ten *)
    assert (H7 : (6 < n1)%Z) by (apply Hbelow; [reflexivity | lia]).
    assert (H15 : (n1 <= 15)%Z)
      by (apply Habove; [apply Qle_bool_iff; reflexivity | lia]).
    destruct (Z_le_gt_dec n1 14) as [Hin|Hout].
    + apply Hsame; [|lia].
      apply Qle_lt_trans with (inject_Z (14 * 14)); [|reflexivity].
      rewrite <- Zle_Qle. nia.
    + assert (E15 : n1 = 15%Z) by lia. rewrite E15 in Hnext.
      apply (Hnext One (k1 + 1)%Z 8%Z 2 (15 # 2));
        try reflexivity; try (apply Qle_bool_iff; reflexivity); try lia.
      unfold spacing. cbn [mantissaValue]. fold ten. rewrite Hsucc. ring.
Qed.

End NiceEnds.

Section NiceFriendly.
Local Open Scope Q_scope.

Variables (r0 r1 : num).

(** [nice()] on a domain from zero to a positive end: the lower end
    stays at zero, the upper end moves up, by less than one spacing, to
    a whole number of spacings. *)
Lemma nice_friendly (m : Q) :
  0 < m ->
  exists a M f k n,
    nice {| d0 := ofZ 0; d1 := Fin m; range0 := r0; range1 := r1 |} =
    {| d0 := Fin a; d1 := Fin M; range0 := r0; range1 := r1 |} /\
    a == 0 /\
    M == inject_Z n * spacing f k /\
    (7 <= n <= 15)%Z /\
    m <= M /\ M < m + spacing f k.
Proof.
  intros Hm. unfold nice. cbn [d0 d1 range0 range1].
  assert (Hasc : lt (Fin m) (ofZ 0) = false).
  { unfold lt, ofZ, Qlt_bool. apply negb_false_iff, Qle_bool_iff.
    change (inject_Z 0) with 0. lra. }
  rewrite Hasc.
  destruct (niceLoop_friendly (inject_Z 0) m (Qeq_refl _) Hm)
    as (a & M & f & k & n & Hloop & Hrest).
  change (ofZ 0) with (Fin (inject_Z 0)). rewrite Hloop.
  exists a, M, f, k, n. split; [reflexivity | exact Hrest].
Qed.

End NiceFriendly.

Section OrderFacts.

(** The comparisons of JavaScript on numbers other than [NaN]. *)

Lemma lt_comparable (x y : num) :
  lt x y = true -> isNaN x = false /\ isNaN y = false.
Proof. destruct x, y; simpl; intros H; split; congruence. Qed.

Lemma le_comparable (x y : num) :
  le x y = true -> isNaN x = false /\ isNaN y = false.
Proof. destruct x, y; simpl; intros H; split; congruence. Qed.

Lemma le_reflexive (x : num) : isNaN x = false -> le x x = true.
Proof.
  destruct x as [| | |q]; simpl; try congruence.
  intros _. apply Qle_bool_iff, Qle_refl.
Qed.

Lemma lt_le (x y : num) : lt x y = true -> le x y = true.
Proof.
  destruct x as [| | |a], y as [| | |b]; simpl; try congruence.
  unfold Qlt_bool. rewrite negb_true_iff. intros H.
  apply Qle_bool_iff, Qlt_le_weak, Qnot_le_lt.
  intros Hle. apply Qle_bool_iff in Hle. congruence.
Qed.

Lemma not_lt_le (x y : num) :
  isNaN x = false -> isNaN y = false -> lt x y = false -> le y x = true.
Proof.
  destruct x as [| | |a], y as [| | |b]; simpl; try congruence.
  unfold Qlt_bool. rewrite negb_false_iff. auto.
Qed.

Lemma le_transitive (x y z : num) :
  le x y = true -> le y z = true -> le x z = true.
Proof.
  destruct x as [| | |a], y as [| | |b], z as [| | |c]; simpl;
    try congruence.
  rewrite !Qle_bool_iff. apply Qle_trans.
Qed.

Lemma fold_maxStep_bound (values : list num) :
  forall m0,
    isNaN m0 = false ->
    exists M,
      fold_left maxStep values (Some m0) = Some M /\
      le m0 M = true /\
      forall v, In v values -> isNaN v = false -> le v M = true.
Proof.
  induction values as [|v rest IH]; intros m0 Hm0; simpl.
  - exists m0. split; [reflexivity|]. split; [now apply le_reflexive|].
    contradiction.
  - destruct (lt m0 v) eqn:E.
    + destruct (lt_comparable _ _ E) as (_ & Hv).
      destruct (IH v Hv) as (M & HM & Hle & Hall).
      exists M. split; [assumption|]. split.
      * eapply le_transitive; [apply lt_le, E | exact Hle].
      * intros w [<-|Hw] Hnan; [assumption | now apply Hall].
    + destruct (IH m0 Hm0) as (M & HM & Hle & Hall).
      exists M. split; [assumption|]. split; [assumption|].
      intros w [<-|Hw] Hnan; [|now apply Hall].
      eapply le_transitive; [|exact Hle]. now apply not_lt_le.
Qed.

(** [d3.max] returns a value that is at or above every value of the list
    other than [NaN], as soon as there is one. *)
Lemma d3max_bound (values : list num) (v : num) :
  In v values -> isNaN v = false ->
  exists M,
    d3max values = Some M /\ le v M = true /\
    forall w, In w values -> isNaN w = false -> le w M = true.
Proof.
  unfold d3max. induction values as [|x rest IH]; [contradiction|].
  intros Hin Hv. cbn [fold_left maxStep]. unfold ge.
  destruct (le x x) eqn:Ex.
  - destruct (le_comparable _ _ Ex) as (Hx & _).
    destruct (fold_maxStep_bound rest x Hx) as (M & HM & Hle & Hall).
    assert (Hbound : forall w, In w (x :: rest) -> isNaN w = false ->
                               le w M = true).
    { intros w [<-|Hw] Hnan; [assumption | now apply Hall]. }
    exists M. split; [assumption|]. split; [now apply Hbound | assumption].
  - assert (Hx : isNaN x = true).
    { destruct (isNaN x) eqn:E; [reflexivity|].
      rewrite le_reflexive in Ex by assumption. discriminate. }
    destruct Hin as [->|Hin]; [congruence|].
    destruct (IH Hin Hv) as (M & HM & Hle & Hall).
    exists M. split; [assumption|]. split; [assumption|].
    intros w [<-|Hw] Hnan; [congruence | now apply Hall].
Qed.

End OrderFacts.

Section NiceScaleFacts.
Local Open Scope Q_scope.

Variables (r0 r1 : num).

(** [nice()] leaves the range alone. *)
Lemma nice_range (s : linear) :
  range0 (nice s) = range0 s /\ range1 (nice s) = range1 s.
Proof.
  unfold nice. destruct (lt (d1 s) (d0 s));
    match goal with
    | |- context [niceLoop ?k ?c ?a ?b ?p] =>
        destruct (niceLoop k c a b p) as [[start stop]|]
    end; split; reflexivity.
Qed.

(** A domain from zero up to a finite end: the lower end stays at zero,
    the upper end moves up or stays. *)
Lemma nice_upward (m : Q) :
  0 <= m ->
  exists a M,
    nice {| d0 := ofZ 0; d1 := Fin m; range0 := r0; range1 := r1 |} =
    {| d0 := Fin a; d1 := Fin M; range0 := r0; range1 := r1 |} /\
    a == 0 /\ m <= M.
Proof.
  intros Hm. unfold nice. cbn [d0 d1 range0 range1].
  assert (Hasc : lt (Fin m) (ofZ 0) = false).
  { unfold lt, ofZ, Qlt_bool. apply negb_false_iff, Qle_bool_iff.
    exact Hm. }
  rewrite Hasc.
  destruct (Qlt_le_dec 0 m) as [Hpos|Hzero].
  - pose proof (niceLoop_expands 10 (inject_Z 0) m None 0 m
                  Hpos (Qle_refl _) (Qle_refl _)) as Hloop.
    change (Fin (inject_Z 0)) with (ofZ 0) in Hloop.
    destruct (niceLoop 10 (ofZ 10) (ofZ 0) (Fin m) None)
      as [[[| | |a'] [| | |s']]|]; try contradiction.
    + destruct Hloop as (_ & Hs' & Ha' & _).
      exists a', s'. split; [reflexivity|]. split; [|assumption].
      apply Ha'. reflexivity.
    + exists (inject_Z 0), m. split; [reflexivity|].
      split; [reflexivity | apply Qle_refl].
  - assert (Hm0 : m == 0) by lra.
    change (ofZ 0) with (Fin (inject_Z 0)).
    rewrite (niceLoop_flat 10 (inject_Z 0) m (Qeq_refl _) Hm0).
    exists (inject_Z 0), m. split; [reflexivity|].
    split; [reflexivity | apply Qle_refl].
Qed.

(** A domain from zero down to a negative end is niced with its ends
    swapped: the first end stays at or above zero, the second stays
    negative. *)
Lemma nice_downward (m : Q) :
  m < 0 ->
  exists a M,
    nice {| d0 := ofZ 0; d1 := Fin m; range0 := r0; range1 := r1 |} =
    {| d0 := Fin a; d1 := Fin M; range0 := r0; range1 := r1 |} /\
    0 <= a /\ M <= m.
Proof.
  intros Hm. unfold nice. cbn [d0 d1 range0 range1].
  assert (Hdesc : lt (Fin m) (ofZ 0) = true).
  { unfold lt, ofZ, Qlt_bool. apply negb_true_iff.
    destruct (Qle_bool (inject_Z 0) m) eqn:E; [|reflexivity].
    apply Qle_bool_iff in E. change (inject_Z 0) with 0 in E. lra. }
  rewrite Hdesc.
  pose proof (niceLoop_expands 10 m (inject_Z 0) None m 0
                Hm (Qle_refl _) (Qle_refl _)) as Hloop.
  change (Fin (inject_Z 0)) with (ofZ 0) in Hloop.
  destruct (niceLoop 10 (ofZ 10) (Fin m) (ofZ 0) None)
    as [[[| | |a'] [| | |s']]|]; try contradiction.
  - destruct Hloop as (Ha' & Hs' & _).
    exists s', a'. split; [reflexivity|]. split; assumption.
  - exists (inject_Z 0), m. split; [reflexivity|].
    split; [apply Qle_refl | apply Qle_refl].
Qed.

(** Domains with an end that is not finite are left as they are. *)
Lemma nice_not_finite (top' : num) :
  isFinite top' = false ->
  nice {| d0 := ofZ 0; d1 := top'; range0 := r0; range1 := r1 |} =
  {| d0 := ofZ 0; d1 := top'; range0 := r0; range1 := r1 |}.
Proof.
  intros H. unfold nice. cbn [d0 d1 range0 range1].
  destruct top' as [| | |q]; [| | |discriminate].
  - change (lt NaN (ofZ 0)) with false. cbn iota.
    assert (E : niceLoop 10 (ofZ 10) (ofZ 0) NaN None = None)
      by (vm_compute; reflexivity).
    now rewrite E.
  - change (lt PInf (ofZ 0)) with false. cbn iota.
    assert (E : niceLoop 10 (ofZ 10) (ofZ 0) PInf None = None)
      by (vm_compute; reflexivity).
    now rewrite E.
  - change (lt NInf (ofZ 0)) with true. cbn iota.
    assert (E : niceLoop 10 (ofZ 10) NInf (ofZ 0) None = None)
      by (vm_compute; reflexivity).
    now rewrite E.
Qed.

End NiceScaleFacts.

Section LinearFacts.
Local Open Scope Q_scope.

Variables (a M r0 r1 : Q).
Hypothesis Ha : a == 0.
Hypothesis HM : 0 <= M.
Hypothesis Hr : r1 <= r0.

Let s : linear :=
  {| d0 := Fin a; d1 := Fin M; range0 := Fin r0; range1 := Fin r1 |}.

(** The share of the way from [a] to [M] at which [v] lies; one half on
    a domain of no extent. *)
Let ratio (v : Q) : Q :=
  if Qeq_bool (M + - a) 0 then 1 # 2 else (v + - a) / (M + - a).

Lemma linearApply_finite (v : Q) :
  linearApply s (Fin v) =
  Some (Fin (r0 * (inject_Z 1 + - ratio v) + r1 * ratio v)).
Proof.
  unfold linearApply, bimap. cbn [isNaN s d0 d1 range0 range1].
  assert (Hasc : lt (Fin M) (Fin a) = false).
  { unfold lt, Qlt_bool. apply negb_false_iff, Qle_bool_iff. lra. }
  rewrite Hasc. unfold normalize, ratio. clear ratio.
  change (sub (Fin M) (Fin a)) with (Fin (M + - a)).
  change (sub (Fin v) (Fin a)) with (Fin (v + - a)).
  cbv iota beta.
  destruct (Qeq_bool (M + - a) 0) eqn:E.
  - reflexivity.
  - rewrite div_finite by now apply Qeq_bool_neq.
    reflexivity.
Qed.

Lemma ratio_monotone (v1 v2 : Q) : v1 <= v2 -> ratio v1 <= ratio v2.
Proof.
  intros Hv. unfold ratio. clear ratio.
  destruct (Qeq_bool (M + - a) 0) eqn:E; [apply Qle_refl|].
  apply Qeq_bool_neq in E.
  unfold Qdiv. apply Qmult_le_compat_r; [lra|].
  apply Qlt_le_weak, Qinv_lt_0_compat. lra.
Qed.

Lemma ratio_unit (v : Q) : 0 <= v -> v <= M -> 0 <= ratio v /\ ratio v <= 1.
Proof.
  intros Hv0 HvM. unfold ratio. clear ratio.
  destruct (Qeq_bool (M + - a) 0) eqn:E; [split; discriminate|].
  apply Qeq_bool_neq in E.
  assert (Hext : 0 < M + - a) by lra.
  split.
  - apply Qle_shift_div_l; [assumption | lra].
  - apply Qle_shift_div_r; [assumption | lra].
Qed.

(** A larger value is drawn at a smaller or equal pixel height. *)
Lemma linearApply_monotone (v1 v2 : Q) :
  v1 <= v2 ->
  exists y1 y2,
    linearApply s (Fin v1) = Some (Fin y1) /\
    linearApply s (Fin v2) = Some (Fin y2) /\
    y2 <= y1.
Proof.
  intros Hv. do 2 eexists.
  split; [apply linearApply_finite|]. split; [apply linearApply_finite|].
  pose proof (ratio_monotone v1 v2 Hv).
  change (inject_Z 1) with 1. nra.
Qed.

(** A value of the domain is drawn between the two ends of the range. *)
Lemma linearApply_within (v : Q) :
  0 <= v -> v <= M ->
  exists y, linearApply s (Fin v) = Some (Fin y) /\ r1 <= y /\ y <= r0.
Proof.
  intros Hv0 HvM. eexists. split; [apply linearApply_finite|].
  destruct (ratio_unit v Hv0 HvM).
  change (inject_Z 1) with 1. split; nra.
Qed.

End LinearFacts.

(** The range of the value scale is inverted: the baseline is below the
    top margin on the screen, so it is the larger pixel height. *)
Lemma range_inverted (height : Z) :
  400 <= height ->
  (inject_Z (top margin) <= inject_Z (height - bottom margin))%Q.
Proof.
  intros Hh. rewrite <- Zle_Qle. cbn [top bottom margin]. lia.
Qed.

(** Under a domain that ends at [+Infinity] every finite value is drawn
    on the baseline. *)
Lemma linearApply_unbounded (r0 r1 v : Q) :
  linearApply {| d0 := ofZ 0; d1 := PInf; range0 := Fin r0; range1 := Fin r1 |}
              (Fin v) =
  Some (Fin (r0 * (inject_Z 1 + - 0) + r1 * 0)).
Proof. reflexivity. Qed.

Lemma nth_error_combine_left {A B : Type} (l1 : list A) :
  forall (l2 : list B) (i : nat) (x : A),
    List.length l2 = List.length l1 ->
    nth_error l1 i = Some x ->
    exists y, nth_error (combine l1 l2) i = Some (x, y).
Proof.
  induction l1 as [|h t IH]; intros l2 i x Hlen Hnth.
  - destruct i; discriminate.
  - destruct l2 as [|b l2]; [discriminate|].
    destruct i as [|i]; simpl in *.
    + injection Hnth as ->. now exists b.
    + apply IH; [lia | assumption].
Qed.

(** The plot area: from the top margin down to the baseline. *)
Lemma plot_extent (height : Z) :
  (inject_Z (height - bottom margin - top margin)
   == inject_Z (height - bottom margin) - inject_Z (top margin))%Q.
Proof.
  unfold Qminus. rewrite <- inject_Z_opp, <- inject_Z_plus.
  apply inject_Z_injective. lia.
Qed.

Lemma plot_pos (height : Z) :
  400 <= height -> (250 <= inject_Z (height - bottom margin - top margin))%Q.
Proof.
  intros Hh. change 250%Q with (inject_Z 250). rewrite <- Zle_Qle.
  cbn [top bottom margin]. lia.
Qed.

(** C4, as the claim states it, fails on a record set whose largest value
    is negative.  With one record of value -5 the domain of the value
    scale is descending, [0, -5]; the values -5 <= 0 both lie in it, and
    the scale sends -5 to the top margin, 70, and 0 to the baseline, 320:
    the pixel height grows with the value. *)
Lemma C4_negative_maximum_reverses_scale :
  let data := [mkDatum "Mole" "Omnivore" (ofZ (-5))] in
  let y := yScale (Z.max (clientHeight smallBox) 400) data in
  data <> [] /\
  (exists lo hi, d0 y = Fin lo /\ d1 y = Fin hi /\ lo == 0 /\ hi == -5) /\
  exists y1 y2,
    linearApply y (ofZ (-5)) = Some (Fin y1) /\
    linearApply y (ofZ 0) = Some (Fin y2) /\
    y1 == 70 /\ y2 == 320 /\ ~ (y2 <= y1)%Q.
Proof.
  cbn zeta. split; [discriminate|]. split.
  - do 2 eexists. vm_compute. repeat split.
  - do 2 eexists. split; [vm_compute; reflexivity|].
    split; [vm_compute; reflexivity|].
    split; [reflexivity|]. split; [reflexivity|].
    intros H. apply Qle_bool_iff in H. vm_compute in H. discriminate H.
Qed.

(** C4 (amended): on a non-empty record set whose largest value is not
    negative, for two finite values [v1 <= v2] of the domain of the value
    scale (at or above its first end, at or below its second), the scale
    is defined and [y(v2) <= y(v1)] within rounding: the pixel height
    does not grow with the value by more than [eps] times the height of
    the plot area. *)
Theorem C4_value_scale_antitone
    (c : container) (data : list AnimalDatum) (v1 v2 : Q) :
  data <> [] ->
  let height := Z.max (clientHeight c) 400 in
  let largest := match d3max (map speed data) with
                 | Some m => m
                 | None => ofZ 0
                 end in
  let y := yScale height data in
  let plot := inject_Z (height - bottom margin - top margin) in
  le (ofZ 0) largest = true ->
  le (d0 y) (Fin v1) = true ->
  (v1 <= v2)%Q ->
  le (Fin v2) (d1 y) = true ->
  exists y1 y2,
    linearApply y (Fin v1) = Some (Fin y1) /\
    linearApply y (Fin v2) = Some (Fin y2) /\
    (y2 <= y1 + plot * eps)%Q.
Proof.
  intros _. cbn zeta. unfold yScale.
  set (top' := match d3max (map speed data) with
               | Some m => m
               | None => ofZ 0
               end).
  set (height := Z.max (clientHeight c) 400).
  assert (Hh : 400 <= height) by (subst height; lia).
  pose proof (range_inverted height Hh) as Hrange.
  pose proof (plot_pos height Hh) as Hplot.
  pose proof eps_pos as Heps.
  assert (Hslack : (0 <= inject_Z (height - bottom margin - top margin) * eps)%Q)
    by nra.
  change (ofZ (height - bottom margin))
    with (Fin (inject_Z (height - bottom margin))).
  change (ofZ (top margin)) with (Fin (inject_Z (top margin))).
  destruct top' as [| | |m]; try discriminate.
  - rewrite nice_not_finite by reflexivity. intros _ _ Hv _.
    do 2 eexists.
    split; [apply linearApply_unbounded|].
    split; [apply linearApply_unbounded|]. lra.
  - intros Hpos. cbn [le ofZ] in Hpos. apply Qle_bool_iff in Hpos.
    change (inject_Z 0) with 0%Q in Hpos.
    destruct (nice_upward (Fin (inject_Z (height - bottom margin)))
                (Fin (inject_Z (top margin))) m Hpos)
      as (a & M & -> & Ha & HM).
    intros _ Hv _.
    destruct (linearApply_monotone a M _ _ Ha ltac:(lra) Hrange v1 v2 Hv)
      as (y1 & y2 & E1 & E2 & Hy).
    exists y1, y2. split; [exact E1|]. split; [exact E2|]. lra.
Qed.

Lemma C4_value_scale_antitone_witness :
  exists y1 y2,
    linearApply (yScale (Z.max (clientHeight smallBox) 400) [cheetah; elephant])
                (Fin 25) = Some (Fin y1) /\
    linearApply (yScale (Z.max (clientHeight smallBox) 400) [cheetah; elephant])
                (Fin 120) = Some (Fin y2) /\
    (y2 <= y1 + inject_Z (Z.max (clientHeight smallBox) 400
                          - bottom margin - top margin) * eps)%Q.
Proof.
  apply (C4_value_scale_antitone smallBox [cheetah; elephant] 25 120).
  - discriminate.
  - reflexivity.
  - reflexivity.
  - discriminate.
  - reflexivity.
Defined.

(** ** The definitions at work *)

Example parseFloat_plain : parseFloat "120" = ofZ 120.
Proof. reflexivity. Qed.

Example parseFloat_prefix : equiv (parseFloat "  12.5e1 km/h") (ofZ 125).
Proof. vm_compute. reflexivity. Qed.

Example parseFloat_fraction : equiv (parseFloat "-.5e-1") (Fin (- (1 # 20))).
Proof. vm_compute. reflexivity. Qed.

Example parseFloat_infinity : parseFloat "-Infinity" = NInf.
Proof. reflexivity. Qed.

Example parseFloat_lone_dot : parseFloat "." = NaN.
Proof. reflexivity. Qed.

Example parseFloat_empty : parseFloat EmptyString = NaN.
Proof. reflexivity. Qed.

Example d3max_skips_NaN : d3max [ofZ 3; NaN; ofZ 7; ofZ 2] = Some (ofZ 7).
Proof. reflexivity. Qed.

Example d3max_of_nothing : d3max [] = None /\ d3max [NaN] = None.
Proof. split; reflexivity. Qed.

Example tickIncrement_twelve :
  tickIncrement (ofZ 0) (ofZ 120) (ofZ 10) = ofZ 10.
Proof. vm_compute. reflexivity. Qed.

Example tickIncrement_below_one :
  equiv (tickIncrement (ofZ 0) (Fin (7 # 10)) (ofZ 10)) (ofZ (-20)).
Proof. vm_compute. reflexivity. Qed.

Example nice_112 :
  let s := nice {| d0 := ofZ 0; d1 := ofZ 112;
                   range0 := ofZ 320; range1 := ofZ 70 |} in
  equiv (d0 s) (ofZ 0) /\ equiv (d1 s) (ofZ 120).
Proof. vm_compute. split; reflexivity. Qed.

Example nice_flat :
  nice {| d0 := ofZ 0; d1 := ofZ 0; range0 := ofZ 320; range1 := ofZ 70 |} =
  {| d0 := ofZ 0; d1 := ofZ 0; range0 := ofZ 320; range1 := ofZ 70 |}.
Proof. vm_compute. reflexivity. Qed.

Example band_of_three :
  let x := scaleBand ["a"; "b"; "a"; "c"] 100 540 (1 # 10) in
  bDomain x = ["a"; "b"; "c"] /\
  bandStep x == 4400 # 31 /\
  bandApply x "z" = None.
Proof. vm_compute. repeat split. Qed.

(** The two rows of the specification's end-to-end example: two records,
    a domain from 0 to 120, a cheetah bar 250 pixels high against 625/12
    for the elephant, in two different colours. *)
Example cheetah_and_elephant :
  loadRows [cheetahRow; elephantRow] = [cheetah; elephant] /\
  exists x1 y1 w1 h1 x2 y2 w2 h2,
    rectsIn (current (draw smallBox [cheetah; elephant])) =
      [Rect x1 y1 w1 (Fin h1) (Some "red");
       Rect x2 y2 w2 (Fin h2) (Some "green")] /\
    h1 == 250 /\ h2 == 625 # 12.
Proof.
  split; [reflexivity|].
  do 8 eexists. split; [vm_compute; reflexivity|].
  split; reflexivity.
Qed.

(* ===================================================================== *)
(** * Further properties *)
(* ===================================================================== *)

(** ** The loader, again *)

Section LoaderMore.

Lemma trimStart_blank_prefix (ws s : string) :
  blank ws = true -> trimStart (ws ++ s) = trimStart s.
Proof.
  induction ws as [|c ws IH]; simpl; [reflexivity|].
  intros H. apply andb_true_iff in H as (Hc & Hws).
  rewrite Hc. now apply IH.
Qed.

Lemma filter_length_all {A : Type} (f : A -> bool) (l : list A) :
  List.length (filter f l) = List.length l <-> forallb f l = true.
Proof.
  induction l as [|a l IH]; simpl; [tauto|].
  pose proof (filter_length_le f l) as Hle.
  destruct (f a); simpl.
  - rewrite <- IH. split; intros H; lia.
  - split; [intros H; lia | discriminate].
Qed.

Lemma maxStep_NaN (acc : option num) : maxStep acc NaN = acc.
Proof. destruct acc as [[| | |q]|]; reflexivity. Qed.

Lemma d3max_skips (before after : list num) :
  d3max (before ++ NaN :: after) = d3max (before ++ after).
Proof.
  unfold d3max. rewrite !fold_left_app. simpl. now rewrite maxStep_NaN.
Qed.

End LoaderMore.

(** X1: every record of the loaded set has a name and a diet that are not
    the empty string: the filter lets none other through. *)
Theorem X1_loaded_records_are_named (data : list Row) (d : AnimalDatum) :
  In d (loadRows data) ->
  name d <> EmptyString /\ diet d <> EmptyString.
Proof.
  intros Hin. apply loadRows_origin in Hin as (row & _ & Hc & <-).
  apply complete_spec in Hc as (Ha & Hd & _).
  apply truthy_spec in Ha as (a & Ea & Hane).
  apply truthy_spec in Hd as (b & Eb & Hbne).
  unfold toDatum; cbn [name diet]. rewrite Ea, Eb. now split.
Qed.

Lemma X1_loaded_records_are_named_witness :
  name cheetah <> EmptyString /\ diet cheetah <> EmptyString.
Proof.
  apply (X1_loaded_records_are_named [namelessRow; cheetahRow] cheetah).
  left. reflexivity.
Defined.

(** X2: the loaded set has as many records as the input has rows exactly
    when every row has its three required fields; otherwise it has
    fewer. *)
Theorem X2_nothing_dropped_iff_all_complete (data : list Row) :
  (List.length (loadRows data) <= List.length data)%nat /\
  (List.length (loadRows data) = List.length data <->
   forallb complete data = true).
Proof.
  unfold loadRows. rewrite length_map. split.
  - apply filter_length_le.
  - apply filter_length_all.
Qed.

(** X3: white space in front of the text of the speed column does not
    change the number read from it. *)
Theorem X3_leading_space_ignored (ws s : string) :
  blank ws = true -> parseFloat (ws ++ s) = parseFloat s.
Proof.
  intros H. unfold parseFloat. now rewrite trimStart_blank_prefix.
Qed.

Lemma X3_leading_space_ignored_witness :
  parseFloat ("  " ++ "25") = parseFloat "25".
Proof. apply (X3_leading_space_ignored "  " "25"). reflexivity. Defined.

(** X4: a record whose value is [NaN] has no part in the value scale: the
    scale is the one built from the other records. *)
Theorem X4_NaN_record_leaves_scale (height : Z)
    (before after : list AnimalDatum) (d : AnimalDatum) :
  speed d = NaN ->
  yScale height (before ++ d :: after) = yScale height (before ++ after).
Proof.
  intros Hd. unfold yScale. rewrite !map_app. cbn [map]. rewrite Hd.
  now rewrite d3max_skips.
Qed.

Lemma X4_NaN_record_leaves_scale_witness :
  yScale 400 ([cheetah] ++ toDatum naRow :: [elephant]) =
  yScale 400 ([cheetah] ++ [elephant]).
Proof.
  apply (X4_NaN_record_leaves_scale 400 [cheetah] [elephant] (toDatum naRow)).
  reflexivity.
Defined.

(** X5: the rectangle drawn for a record whose value is [NaN] has no [y]
    attribute and a height that is [NaN]. *)
Theorem X5_NaN_record_has_broken_bar
    (c : container) (data : list AnimalDatum) (i : nat) (d : AnimalDatum) :
  nth_error data i = Some d ->
  speed d = NaN ->
  exists x width fill,
    nth_error (rectsIn (current (draw c data))) i =
    Some (Rect x None width NaN fill).
Proof.
  intros Hi Hd.
  destruct (nth_error_combine_left data (fills colorScale data) i d
              (fills_length colorScale data) Hi) as (fill & Hfill).
  do 3 eexists. unfold draw.
  rewrite (rects_of_render {| current := Some c; calls := [] |} data c eq_refl).
  rewrite nth_error_map, Hfill. cbn [option_map fst snd].
  unfold rectOf. rewrite Hd. reflexivity.
Qed.

Lemma X5_NaN_record_has_broken_bar_witness :
  exists x width fill,
    nth_error (rectsIn (current (draw smallBox [cheetah; toDatum naRow]))) 1 =
    Some (Rect x None width NaN fill).
Proof.
  apply (X5_NaN_record_has_broken_bar smallBox [cheetah; toDatum naRow] 1
           (toDatum naRow)); reflexivity.
Defined.

(** ** The position scale, again *)

Section BandLayout.
Local Open Scope Q_scope.

Variable width : Z.
Hypothesis Hwidth : (600 <= width)%Z.
Variable data : list AnimalDatum.
Hypothesis Hdata : data <> [].

Let x : band := xScale width data.
Let k : nat := List.length (bDomain x).
Let n : Q := inject_Z (Z.of_nat k).
Let usable : Q := inject_Z (width - left margin - right margin).
Let leftEdge : Q := inject_Z (left margin).
Let rightEdge : Q := inject_Z (width - right margin).

Lemma edges_apart : rightEdge - leftEdge == usable.
Proof. apply (range_extent width data). Qed.

(** The steps and the two outer paddings fill the range. *)
Lemma steps_fill_range : bandStep x * (n + (1 # 10)) == usable.
Proof.
  pose proof (bandStep_value width Hwidth data Hdata) as Hs.
  pose proof (domain_size_pos width data Hdata) as Hn.
  fold x k n usable in Hs. fold x k n in Hn.
  rewrite Hs. field. lra.
Qed.

(** The first band starts one tenth of a step after the left edge. *)
Lemma bandStart_value : bandStart x == leftEdge + bandStep x * (1 # 10).
Proof.
  unfold bandStart.
  cbn [xScale scaleBand bRound r0 r1 paddingInner paddingOuter align x].
  rewrite (range_ascending width Hwidth data).
  change (Qmin 1 (1 # 10)) with (1 # 10).
  fold x k n leftEdge rightEdge.
  pose proof steps_fill_range as Hfill. pose proof edges_apart as Hext.
  set (st := bandStep x) in *. lra.
Qed.

Lemma index_bound (i : nat) :
  (i < k)%nat -> inject_Z (Z.of_nat i) + 1 <= n.
Proof.
  intros Hi. subst n. change 1 with (inject_Z 1).
  rewrite <- inject_Z_plus, <- Zle_Qle. lia.
Qed.

(** The band of index [i] lies inside the range. *)
Lemma band_inside (i : nat) :
  (i < k)%nat ->
  leftEdge <= bandStart x + bandStep x * inject_Z (Z.of_nat i) /\
  bandStart x + bandStep x * inject_Z (Z.of_nat i) + bandwidth x <= rightEdge.
Proof.
  intros Hi.
  pose proof (index_bound i Hi) as Hin.
  pose proof (bandStep_pos width Hwidth data Hdata) as Hpos.
  pose proof (bandwidth_value width data) as Hbw.
  pose proof bandStart_value as Hstart.
  pose proof steps_fill_range as Hfill. pose proof edges_apart as Hext.
  fold x in Hpos, Hbw.
  assert (Hi0 : 0 <= inject_Z (Z.of_nat i)).
  { change 0 with (inject_Z 0). rewrite <- Zle_Qle. lia. }
  set (st := bandStep x) in *. set (bw := bandwidth x) in *.
  set (s0 := bandStart x) in *. set (qi := inject_Z (Z.of_nat i)) in *.
  split; nra.
Qed.

(** Between a band and the next one lies a tenth of a step, which is a
    ninth of a band. *)
Lemma band_gap (i : nat) :
  bandStart x + bandStep x * inject_Z (Z.of_nat (S i))
  - (bandStart x + bandStep x * inject_Z (Z.of_nat i) + bandwidth x)
  == bandwidth x / 9.
Proof.
  pose proof (bandwidth_value width data) as Hbw. fold x in Hbw.
  rewrite Nat2Z.inj_succ. unfold Z.succ. rewrite inject_Z_plus.
  change (inject_Z 1) with 1.
  set (st := bandStep x) in *. set (bw := bandwidth x) in *.
  set (s0 := bandStart x) in *. set (qi := inject_Z (Z.of_nat i)) in *.
  rewrite Hbw. field.
Qed.

End BandLayout.

(** X6: on a non-empty record set every rectangle lies between the left
    margin and the right margin of the surface: the band of each record
    starts at or after [left] and ends at or before [width - right]. *)
Theorem X6_bands_inside_margins
    (c : container) (data : list AnimalDatum) (d : AnimalDatum) :
  In d data ->
  let width := Z.max (clientWidth c) 600 in
  let x := xScale width data in
  exists xd,
    bandApply x (name d) = Some xd /\
    (inject_Z (left margin) <= xd)%Q /\
    (xd + bandwidth x <= inject_Z (width - right margin))%Q.
Proof.
  intros Hin. cbn zeta.
  assert (Hw : 600 <= Z.max (clientWidth c) 600) by lia.
  assert (Hne : data <> []) by (intros ->; contradiction).
  pose proof (domain_of_names (Z.max (clientWidth c) 600) data d Hin) as Hdom.
  destruct (indexOf_In _ _ Hdom) as (i & Hi).
  eexists. split.
  - apply (bandApply_index _ Hw data (name d) i). exact Hi.
  - apply (band_inside _ Hw data Hne). eapply indexOf_lt, Hi.
Qed.

Lemma X6_bands_inside_margins_witness :
  exists xd,
    bandApply (xScale (Z.max (clientWidth largeBox) 600) [cheetah; elephant])
              (name elephant) = Some xd /\
    (inject_Z (left margin) <= xd)%Q /\
    (xd + bandwidth (xScale (Z.max (clientWidth largeBox) 600)
                            [cheetah; elephant])
     <= inject_Z (Z.max (clientWidth largeBox) 600 - right margin))%Q.
Proof.
  apply (X6_bands_inside_margins largeBox [cheetah; elephant] elephant).
  right. left. reflexivity.
Defined.

(** X7: the padding is uniform.  Within rounding, the gap between the
    band of one name of the domain and the band of the next is a ninth
    of the band width (a tenth of the step), and the same gap separates
    the first band from the left margin. *)
Theorem X7_uniform_padding
    (c : container) (data : list AnimalDatum) (a b : string) (i : nat) :
  let width := Z.max (clientWidth c) 600 in
  let x := xScale width data in
  let usable := inject_Z (width - left margin - right margin) in
  indexOf a (bDomain x) = Some i ->
  indexOf b (bDomain x) = Some (S i) ->
  exists xa xb,
    bandApply x a = Some xa /\ bandApply x b = Some xb /\
    near usable (xb - (xa + bandwidth x)) (bandwidth x / 9) /\
    (i = O -> near usable (xa - inject_Z (left margin)) (bandwidth x / 9)).
Proof.
  cbn zeta. intros Ha Hb.
  assert (Hw : 600 <= Z.max (clientWidth c) 600) by lia.
  assert (Hne : data <> []).
  { intros ->. discriminate Ha. }
  assert (Husable : (0 <= inject_Z (Z.max (clientWidth c) 600
                                    - left margin - right margin))%Q).
  { apply Qle_trans with 440%Q; [discriminate | apply (usable_pos _ Hw data)]. }
  do 2 eexists.
  split; [apply (bandApply_index _ Hw data a i Ha)|].
  split; [apply (bandApply_index _ Hw data b (S i) Hb)|].
  split; [apply near_equal; [assumption | apply band_gap]|].
  intros ->. apply near_equal; [assumption|].
  pose proof (bandStart_value _ Hw data Hne) as Hstart.
  pose proof (bandwidth_value (Z.max (clientWidth c) 600) data) as Hbw.
  change (inject_Z (Z.of_nat 0)) with 0%Q.
  set (x := xScale (Z.max (clientWidth c) 600) data) in *.
  set (st := bandStep x) in *. set (bw := bandwidth x) in *.
  set (s0 := bandStart x) in *.
  rewrite Hstart, Hbw. field.
Qed.

Lemma X7_uniform_padding_witness :
  let x := xScale (Z.max (clientWidth smallBox) 600) [cheetah; elephant] in
  let usable :=
    inject_Z (Z.max (clientWidth smallBox) 600 - left margin - right margin) in
  exists xa xb,
    bandApply x "Cheetah" = Some xa /\ bandApply x "Elephant" = Some xb /\
    near usable (xb - (xa + bandwidth x)) (bandwidth x / 9) /\
    (O = O -> near usable (xa - inject_Z (left margin)) (bandwidth x / 9)).
Proof.
  apply (X7_uniform_padding smallBox [cheetah; elephant]
           "Cheetah" "Elephant" 0); reflexivity.
Defined.

(** ** The drawing and the colour scale *)

Section ColourFacts.

(** A value that is in the domain keeps its index when the domain grows. *)
Lemma indexOf_app (d : string) (domain extra : list string) (i : nat) :
  indexOf d domain = Some i -> indexOf d (domain ++ extra) = Some i.
Proof.
  revert i. induction domain as [|v rest IH]; intros i; simpl.
  - discriminate.
  - destruct (v =? d); [trivial|].
    destruct (indexOf d rest) as [j|]; simpl; [|discriminate].
    intros [= <-]. now rewrite (IH j eq_refl).
Qed.

Lemma indexOf_pushNew_stable (d v : string) (domain : list string) (i : nat) :
  indexOf d domain = Some i -> indexOf d (pushNew domain v) = Some i.
Proof.
  intros H. unfold pushNew.
  destruct (indexOf v domain); [assumption | now apply indexOf_app].
Qed.

Lemma indexOf_fresh (d : string) (domain : list string) :
  indexOf d domain = None ->
  indexOf d (domain ++ [d]) = Some (List.length domain).
Proof.
  induction domain as [|v rest IH]; simpl.
  - now rewrite String.eqb_refl.
  - destruct (v =? d); [discriminate|].
    destruct (indexOf d rest); [discriminate|].
    intros _. now rewrite IH.
Qed.

(** After [scale(d)] the value [d] is in the domain. *)
Lemma indexOf_pushNew_self (d : string) (domain : list string) :
  exists i, indexOf d (pushNew domain d) = Some i /\
            (indexOf d domain = None -> i = List.length domain) /\
            (forall j, indexOf d domain = Some j -> i = j).
Proof.
  unfold pushNew. destruct (indexOf d domain) as [j|] eqn:E.
  - exists j. rewrite E. repeat split; [discriminate | now intros ? [= ->]].
  - exists (List.length domain). rewrite (indexOf_fresh d domain E).
    repeat split. discriminate.
Qed.

(** What [scale(d)] returns and leaves behind. *)
Lemma ordinalApply_value (s : ordinal) (d : string) :
  exists i,
    indexOf d (pushNew (oDomain s) d) = Some i /\
    ordinalApply s d =
    (nth_error (oRange s) (i mod List.length (oRange s)),
     {| oDomain := pushNew (oDomain s) d; oRange := oRange s |}).
Proof.
  destruct (indexOf_pushNew_self d (oDomain s)) as (i & Hi & _).
  exists i. split; [assumption|].
  unfold ordinalApply. cbn [oDomain]. now rewrite Hi.
Qed.

(** Once a diet is in the domain, every later record of that diet gets
    the colour of its index. *)
Lemma fills_known (data : list AnimalDatum) :
  forall (s : ordinal) (j : nat) (d : AnimalDatum) (i : nat),
    indexOf (diet d) (oDomain s) = Some i ->
    nth_error data j = Some d ->
    nth_error (fills s data) j =
    Some (nth_error (oRange s) (i mod List.length (oRange s))).
Proof.
  induction data as [|e rest IH]; intros s j d i Hi Hj.
  - destruct j; discriminate.
  - cbn [fills].
    destruct (ordinalApply_value s (diet e)) as (ie & Hie & ->).
    destruct j as [|j]; cbn [nth_error] in *.
    + injection Hj as ->.
      rewrite (indexOf_pushNew_stable _ (diet d) _ _ Hi) in Hie.
      now injection Hie as <-.
    + rewrite (IH {| oDomain := pushNew (oDomain s) (diet e);
                     oRange := oRange s |} j d i);
        [reflexivity | | assumption].
      cbn [oDomain]. now apply indexOf_pushNew_stable.
Qed.

(** Two records of one diet get one colour. *)
Lemma fills_consistent (data : list AnimalDatum) :
  forall (s : ordinal) (i j : nat) (di dj : AnimalDatum),
    (i <= j)%nat ->
    nth_error data i = Some di ->
    nth_error data j = Some dj ->
    diet di = diet dj ->
    nth_error (fills s data) i = nth_error (fills s data) j.
Proof.
  induction data as [|e rest IH]; intros s i j di dj Hij Hi Hj Hdiet.
  - destruct i; discriminate.
  - cbn [fills].
    destruct (ordinalApply_value s (diet e)) as (ie & Hie & ->).
    destruct i as [|i], j as [|j]; cbn [nth_error] in *.
    + reflexivity.
    + injection Hi as ->.
      rewrite (fills_known rest {| oDomain := pushNew (oDomain s) (diet di);
                                   oRange := oRange s |} j dj ie);
        [reflexivity | | assumption].
      cbn [oDomain]. now rewrite <- Hdiet.
    + lia.
    + apply (IH _ i j di dj); [lia | assumption..].
Qed.

(** With a range that is not empty every record gets a colour of the
    range. *)
Lemma fills_in_range (data : list AnimalDatum) :
  forall (s : ordinal) (j : nat) (f : option string),
    oRange s <> [] ->
    nth_error (fills s data) j = Some f ->
    exists colour, f = Some colour /\ In colour (oRange s).
Proof.
  induction data as [|e rest IH]; intros s j f Hne Hj.
  - destruct j; discriminate.
  - cbn [fills] in Hj.
    destruct (ordinalApply_value s (diet e)) as (ie & Hie & E).
    rewrite E in Hj.
    destruct j as [|j]; cbn [nth_error] in Hj.
    + injection Hj as <-.
      assert (Hlt : (ie mod List.length (oRange s) < List.length (oRange s))%nat).
      { apply Nat.mod_upper_bound. destruct (oRange s); [contradiction|].
        discriminate. }
      destruct (nth_error (oRange s) (ie mod List.length (oRange s)))
        as [colour|] eqn:En.
      * exists colour. split; [reflexivity|]. eapply nth_error_In, En.
      * apply nth_error_None in En. lia.
    + exact (IH {| oDomain := pushNew (oDomain s) (diet e);
                   oRange := oRange s |} j f Hne Hj).
Qed.

(** Until a diet from outside the domain shows up the domain does not
    change. *)
Lemma fills_first_newcomer (data : list AnimalDatum) :
  forall (s : ordinal) (j : nat) (d : AnimalDatum),
    nth_error data j = Some d ->
    indexOf (diet d) (oDomain s) = None ->
    (forall i e, (i < j)%nat -> nth_error data i = Some e ->
                 indexOf (diet e) (oDomain s) <> None) ->
    nth_error (fills s data) j =
    Some (nth_error (oRange s)
            (List.length (oDomain s) mod List.length (oRange s))).
Proof.
  induction data as [|e rest IH]; intros s j d Hj Hnew Hold.
  - destruct j; discriminate.
  - cbn [fills].
    destruct (indexOf_pushNew_self (diet e) (oDomain s)) as (ie & Hie & Hfresh & _).
    destruct (ordinalApply_value s (diet e)) as (ie' & Hie' & ->).
    rewrite Hie in Hie'. injection Hie' as <-.
    destruct j as [|j]; cbn [nth_error] in *.
    + injection Hj as ->. now rewrite (Hfresh Hnew).
    + assert (Hseen : indexOf (diet e) (oDomain s) <> None).
      { apply (Hold O e); [lia | reflexivity]. }
      assert (Hsame : pushNew (oDomain s) (diet e) = oDomain s).
      { unfold pushNew. destruct (indexOf (diet e) (oDomain s));
          [reflexivity | contradiction]. }
      rewrite Hsame.
      replace {| oDomain := oDomain s; oRange := oRange s |} with s
        by (destruct s; reflexivity).
      apply (IH s j d Hj Hnew).
      intros i e' Hi He'. apply (Hold (S i) e'); [lia | exact He'].
Qed.

Lemma nth_error_combine_both {A B : Type} (l1 : list A) :
  forall (l2 : list B) (i : nat) (a : A),
    List.length l2 = List.length l1 ->
    nth_error l1 i = Some a ->
    exists b, nth_error l2 i = Some b /\
              nth_error (combine l1 l2) i = Some (a, b).
Proof.
  induction l1 as [|h t IH]; intros l2 i a Hlen Hnth.
  - destruct i; discriminate.
  - destruct l2 as [|b l2]; [discriminate|].
    destruct i as [|i]; simpl in *.
    + injection Hnth as ->. now exists b.
    + apply IH; [lia | assumption].
Qed.

(** The rectangle of the record of index [i], with the colour that the
    scale gave to that record. *)
Lemma rect_at (c : container) (data : list AnimalDatum)
    (i : nat) (d : AnimalDatum) :
  nth_error data i = Some d ->
  exists fill,
    nth_error (fills colorScale data) i = Some fill /\
    nth_error (rectsIn (current (draw c data))) i =
    Some (rectOf (xScale (Z.max (clientWidth c) 600) data)
                 (yScale (Z.max (clientHeight c) 400) data)
                 (Z.max (clientHeight c) 400) d fill).
Proof.
  intros Hi.
  destruct (nth_error_combine_both data (fills colorScale data) i d
              (fills_length colorScale data) Hi) as (fill & Hf & Hfill).
  exists fill. split; [assumption|]. unfold draw.
  rewrite (rects_of_render {| current := Some c; calls := [] |} data c eq_refl).
  now rewrite nth_error_map, Hfill.
Qed.

End ColourFacts.

(** X8: on a mounted container and a non-empty record set the effect
    leaves exactly one [svg], of the size of the surface, that holds one
    rectangle per record, then the bottom axis at the baseline, then the
    left axis at the left margin; the labels of the bottom axis are the
    names of the records, each once. *)
Theorem X8_drawing_structure (c : container) (data : list AnimalDatum) :
  data <> [] ->
  let width := Z.max (clientWidth c) 600 in
  let height := Z.max (clientHeight c) 400 in
  exists box rects labels,
    current (draw c data) = Some box /\
    innerHTML box =
      [Svg width height
         (rects ++ [BottomAxis (height - bottom margin) labels;
                    LeftAxis (left margin) (yScale height data)])] /\
    List.length rects = List.length data /\
    forallb isRect rects = true /\
    NoDup labels /\
    (forall s, In s labels <-> exists d, In d data /\ name d = s).
Proof.
  intros Hne. destruct data as [|d rest]; [contradiction|]. cbn zeta.
  rewrite draw_cons. cbn zeta.
  eexists. exists (appendRects (xScale (Z.max (clientWidth c) 600) (d :: rest))
                     (yScale (Z.max (clientHeight c) 400) (d :: rest))
                     colorScale (Z.max (clientHeight c) 400) (d :: rest) []).
  eexists.
  split; [reflexivity|]. split; [reflexivity|].
  rewrite appendRects_fresh. split; [|split; [|split]].
  - rewrite length_map, length_combine, fills_length. apply Nat.min_id.
  - apply forallb_forall. intros e He.
    apply in_map_iff in He as (df & <- & _). reflexivity.
  - apply ordinalDomain_NoDup.
  - intros s. unfold xScale, scaleBand. cbn [bDomain].
    rewrite ordinalDomain_In, in_map_iff. split.
    + intros (e & He & Hin). now exists e.
    + intros (e & Hin & He). now exists e.
Qed.

Lemma X8_drawing_structure_witness :
  exists box rects labels,
    current (draw largeBox [cheetah; elephant]) = Some box /\
    innerHTML box =
      [Svg (Z.max (clientWidth largeBox) 600) (Z.max (clientHeight largeBox) 400)
         (rects ++ [BottomAxis (Z.max (clientHeight largeBox) 400 - bottom margin)
                               labels;
                    LeftAxis (left margin)
                      (yScale (Z.max (clientHeight largeBox) 400)
                              [cheetah; elephant])])] /\
    List.length rects = List.length [cheetah; elephant] /\
    forallb isRect rects = true /\
    NoDup labels /\
    (forall s, In s labels <->
               exists d, In d [cheetah; elephant] /\ name d = s).
Proof.
  apply (X8_drawing_structure largeBox [cheetah; elephant]). discriminate.
Defined.

(** X9: every rectangle has a fill, and the fill is one of the three
    colours of the scale, whatever the diet of the record is. *)
Theorem X9_every_bar_has_a_colour
    (c : container) (data : list AnimalDatum) (i : nat) (d : AnimalDatum) :
  nth_error data i = Some d ->
  exists x y width height colour,
    nth_error (rectsIn (current (draw c data))) i =
      Some (Rect x y width height (Some colour)) /\
    In colour ["red"; "green"; "blue"].
Proof.
  intros Hi. destruct (rect_at c data i d Hi) as (fill & Hf & Hrect).
  destruct (fills_in_range data colorScale i fill) as (colour & -> & Hin);
    [discriminate | assumption |].
  do 4 eexists. exists colour. split; [exact Hrect | exact Hin].
Qed.

Lemma X9_every_bar_has_a_colour_witness :
  exists x y width height colour,
    nth_error (rectsIn (current (draw smallBox [cheetah; toDatum naRow]))) 1 =
      Some (Rect x y width height (Some colour)) /\
    In colour ["red"; "green"; "blue"].
Proof.
  apply (X9_every_bar_has_a_colour smallBox [cheetah; toDatum naRow] 1
           (toDatum naRow)). reflexivity.
Defined.

(** X10: the three diets of the domain keep their colours whatever the
    other records are: a carnivore is red, a herbivore green, an omnivore
    blue. *)
Theorem X10_known_diets_keep_their_colour
    (c : container) (data : list AnimalDatum) (i : nat) (d : AnimalDatum)
    (colour : string) :
  nth_error data i = Some d ->
  In (diet d, colour)
     [("Carnivore", "red"); ("Herbivore", "green"); ("Omnivore", "blue")] ->
  exists x y width height,
    nth_error (rectsIn (current (draw c data))) i =
      Some (Rect x y width height (Some colour)).
Proof.
  intros Hi Hpair. destruct (rect_at c data i d Hi) as (fill & Hf & Hrect).
  assert (Hfill : fill = Some colour).
  { destruct Hpair as [E|[E|[E|[]]]]; injection E as Ediet <-.
    - rewrite (fills_known data colorScale i d 0) in Hf;
        [now injection Hf as <- | now rewrite <- Ediet | assumption].
    - rewrite (fills_known data colorScale i d 1) in Hf;
        [now injection Hf as <- | now rewrite <- Ediet | assumption].
    - rewrite (fills_known data colorScale i d 2) in Hf;
        [now injection Hf as <- | now rewrite <- Ediet | assumption]. }
  subst fill. do 4 eexists. exact Hrect.
Qed.

Lemma X10_known_diets_keep_their_colour_witness :
  exists x y width height,
    nth_error (rectsIn (current (draw smallBox
                 [mkDatum "Yeti" "Unknown" (ofZ 9); elephant]))) 1 =
      Some (Rect x y width height (Some "green")).
Proof.
  apply (X10_known_diets_keep_their_colour smallBox
           [mkDatum "Yeti" "Unknown" (ofZ 9); elephant] 1 elephant "green").
  - reflexivity.
  - right. left. reflexivity.
Defined.

(** X11: within one drawing two records of the same diet have the same
    fill, also when the diet is none of the three of the domain. *)
Theorem X11_same_diet_same_colour
    (c : container) (data : list AnimalDatum) (i j : nat)
    (di dj : AnimalDatum) :
  nth_error data i = Some di ->
  nth_error data j = Some dj ->
  diet di = diet dj ->
  exists xi yi wi hi xj yj wj hj fill,
    nth_error (rectsIn (current (draw c data))) i =
      Some (Rect xi yi wi hi fill) /\
    nth_error (rectsIn (current (draw c data))) j =
      Some (Rect xj yj wj hj fill).
Proof.
  intros Hi Hj Hdiet.
  destruct (rect_at c data i di Hi) as (fi & Hfi & Hri).
  destruct (rect_at c data j dj Hj) as (fj & Hfj & Hrj).
  assert (E : fi = fj).
  { destruct (Nat.le_ge_cases i j) as [Hle|Hle].
    - pose proof (fills_consistent data colorScale i j di dj Hle Hi Hj Hdiet).
      congruence.
    - pose proof (fills_consistent data colorScale j i dj di Hle Hj Hi
                    (eq_sym Hdiet)).
      congruence. }
  subst fj. do 8 eexists. exists fi. split; [exact Hri | exact Hrj].
Qed.

Lemma X11_same_diet_same_colour_witness :
  let data := [mkDatum "Yeti" "Unknown" (ofZ 9); elephant;
               mkDatum "Nessie" "Unknown" (ofZ 4)] in
  exists xi yi wi hi xj yj wj hj fill,
    nth_error (rectsIn (current (draw smallBox data))) 0 =
      Some (Rect xi yi wi hi fill) /\
    nth_error (rectsIn (current (draw smallBox data))) 2 =
      Some (Rect xj yj wj hj fill).
Proof.
  apply (X11_same_diet_same_colour smallBox
           [mkDatum "Yeti" "Unknown" (ofZ 9); elephant;
            mkDatum "Nessie" "Unknown" (ofZ 4)]
           0 2 (mkDatum "Yeti" "Unknown" (ofZ 9))
           (mkDatum "Nessie" "Unknown" (ofZ 4))); reflexivity.
Defined.

(** X12: a diet outside the domain is given a colour of the three by
    position: the first such diet of the record set is drawn red, the
    colour of the carnivores. *)
Theorem X12_first_unknown_diet_is_red
    (c : container) (data : list AnimalDatum) (j : nat) (d : AnimalDatum) :
  nth_error data j = Some d ->
  ~ In (diet d) ["Carnivore"; "Herbivore"; "Omnivore"] ->
  (forall i e, (i < j)%nat -> nth_error data i = Some e ->
               In (diet e) ["Carnivore"; "Herbivore"; "Omnivore"]) ->
  exists x y width height,
    nth_error (rectsIn (current (draw c data))) j =
      Some (Rect x y width height (Some "red")).
Proof.
  intros Hj Hnew Hold.
  destruct (rect_at c data j d Hj) as (fill & Hf & Hrect).
  rewrite (fills_first_newcomer data colorScale j d Hj) in Hf.
  - injection Hf as <-. do 4 eexists. exact Hrect.
  - destruct (indexOf (diet d) (oDomain colorScale)) as [k|] eqn:E;
      [|reflexivity].
    exfalso. apply Hnew. apply indexOf_nth in E. eapply nth_error_In, E.
  - intros i e Hi He Hnone. apply indexOf_notin in Hnone.
    apply Hnone. now apply (Hold i e).
Qed.

Lemma X12_first_unknown_diet_is_red_witness :
  exists x y width height,
    nth_error (rectsIn (current (draw smallBox
                 [elephant; mkDatum "Yeti" "Unknown" (ofZ 9)]))) 1 =
      Some (Rect x y width height (Some "red")).
Proof.
  apply (X12_first_unknown_diet_is_red smallBox
           [elephant; mkDatum "Yeti" "Unknown" (ofZ 9)] 1
           (mkDatum "Yeti" "Unknown" (ofZ 9))).
  - reflexivity.
  - intros [H|[H|[H|[]]]]; discriminate H.
  - intros [|[|i]] e Hi He; [|lia|lia].
    injection He as <-. right. left. reflexivity.
Defined.

(** ** Rendering again, and the height of the bars *)

Section RenderMore.

Lemma containerWidth_setInner (cur : option container) (l : list element) :
  containerWidth (option_map (setInner l) cur) = containerWidth cur.
Proof. destruct cur; reflexivity. Qed.

Lemma containerHeight_setInner (cur : option container) (l : list element) :
  containerHeight (option_map (setInner l) cur) = containerHeight cur.
Proof. destruct cur; reflexivity. Qed.

Lemma setInner_twice (cur : option container) (l l' : list element) :
  option_map (setInner l') (option_map (setInner l) cur) =
  option_map (setInner l') cur.
Proof. destruct cur; reflexivity. Qed.

(** The container after a render, whatever the record set. *)
Lemma render_current (w : world) (data : list AnimalDatum) :
  exists content,
    current (execState (render data) w) =
    option_map (setInner content) (current w) /\
    (data = [] -> content = []) /\
    forall w', containerWidth (current w') = containerWidth (current w) ->
               containerHeight (current w') = containerHeight (current w) ->
               current (execState (render data) w') =
               option_map (setInner content) (current w').
Proof.
  destruct data as [|d rest].
  - exists []. rewrite render_nil. split; [reflexivity|]. split; [trivial|].
    intros w' _ _. now rewrite render_nil.
  - eexists. rewrite render_cons. cbn zeta. split; [reflexivity|].
    split; [discriminate|].
    intros w' Hw Hh. rewrite render_cons. cbn zeta. now rewrite Hw, Hh.
Qed.

Lemma d3max_In (values : list num) (M : num) :
  d3max values = Some M -> In M values.
Proof.
  unfold d3max.
  assert (H : forall acc,
             fold_left maxStep values acc = Some M ->
             acc = Some M \/ In M values).
  { induction values as [|v rest IH]; intros acc Hfold; simpl in *.
    - now left.
    - destruct (IH _ Hfold) as [Hacc|Hin]; [|now right; right].
      destruct acc as [m|]; simpl in Hacc.
      + destruct (lt m v); [right; left | left]; congruence.
      + destruct (ge v v); [right; left; congruence | discriminate]. }
  intros Hmax. destruct (H None Hmax) as [Hnone|Hin];
    [discriminate | assumption].
Qed.

(** [nice()] looks at the domain only. *)
Lemma nice_domain_only (s s' : linear) :
  d0 s = d0 s' -> d1 s = d1 s' ->
  d0 (nice s) = d0 (nice s') /\ d1 (nice s) = d1 (nice s').
Proof.
  intros H0 H1. unfold nice. rewrite <- H0, <- H1.
  destruct (lt (d1 s) (d0 s));
    match goal with
    | |- context [niceLoop ?k ?c ?a ?b ?p] =>
        destruct (niceLoop k c a b p) as [[start stop]|]
    end; cbn [d0 d1]; auto.
Qed.

(** The domain of the value scale does not depend on the surface. *)
Lemma yScale_domain_fixed (h1 h2 : Z) (data : list AnimalDatum) :
  d0 (yScale h1 data) = d0 (yScale h2 data) /\
  d1 (yScale h1 data) = d1 (yScale h2 data).
Proof. unfold yScale. now apply nice_domain_only. Qed.

Lemma nice_flat_domain (r0 r1 : num) (m : Q) :
  m == 0 ->
  nice {| d0 := ofZ 0; d1 := Fin m; range0 := r0; range1 := r1 |} =
  {| d0 := ofZ 0; d1 := Fin m; range0 := r0; range1 := r1 |}.
Proof.
  intros Hm. unfold nice. cbn [d0 d1 range0 range1].
  assert (Hasc : lt (Fin m) (ofZ 0) = false).
  { unfold lt, ofZ, Qlt_bool. apply negb_false_iff, Qle_bool_iff.
    rewrite Hm. apply Qle_refl. }
  rewrite Hasc. change (ofZ 0) with (Fin (inject_Z 0)).
  now rewrite (niceLoop_flat 10 (inject_Z 0) m (Qeq_refl _) Hm).
Qed.

(** The value scale of a record set that holds a finite value that is not
    negative: either its domain is finite, starts at zero and covers that
    value, or it is left at [0, +Infinity]. *)
Lemma yScale_covering (height : Z) (data : list AnimalDatum)
    (d : AnimalDatum) (v : Q) :
  In d data -> speed d = Fin v -> (0 <= v)%Q ->
  (exists a M,
     yScale height data =
       {| d0 := Fin a; d1 := Fin M;
          range0 := Fin (inject_Z (height - bottom margin));
          range1 := Fin (inject_Z (top margin)) |} /\
     a == 0 /\ (v <= M)%Q) \/
  yScale height data =
    {| d0 := ofZ 0; d1 := PInf;
       range0 := Fin (inject_Z (height - bottom margin));
       range1 := Fin (inject_Z (top margin)) |}.
Proof.
  intros Hd Hv Hv0.
  destruct (d3max_bound (map speed data) (Fin v)) as (M & HM & HvM & _);
    [rewrite <- Hv; now apply in_map | reflexivity |].
  unfold yScale. rewrite HM.
  change (ofZ (height - bottom margin))
    with (Fin (inject_Z (height - bottom margin))).
  change (ofZ (top margin)) with (Fin (inject_Z (top margin))).
  destruct M as [| | |m]; try discriminate.
  - right. now rewrite nice_not_finite.
  - left. apply Qle_bool_iff in HvM.
    destruct (nice_upward (Fin (inject_Z (height - bottom margin)))
                (Fin (inject_Z (top margin))) m ltac:(lra))
      as (a & M & -> & Ha & HmM).
    exists a, M. split; [reflexivity|]. split; [assumption | lra].
Qed.

End RenderMore.
(** ** The value scale and the bars *)

Section BarFacts.
Local Open Scope Q_scope.

(** The pixel height that a linear scale from [a == 0] to [M > 0] gives
    a value, against the share of the value in the domain. *)
Lemma linearApply_share (a M r0 r1 v : Q) :
  a == 0 -> 0 < M ->
  exists yv,
    linearApply {| d0 := Fin a; d1 := Fin M;
                   range0 := Fin r0; range1 := Fin r1 |} (Fin v)
    = Some (Fin yv) /\
    r0 - yv == (r0 - r1) * (v / M).
Proof.
  intros Ha HM.
  rewrite (linearApply_finite a M r0 r1 Ha (Qlt_le_weak _ _ HM)).
  assert (Hext : Qeq_bool (M + - a) 0 = false).
  { destruct (Qeq_bool (M + - a) 0) eqn:E; [|reflexivity].
    apply Qeq_bool_eq in E. lra. }
  rewrite Hext. eexists. split; [reflexivity|].
  change (inject_Z 1) with 1. rewrite Ha. field. lra.
Qed.

End BarFacts.

(** C5, as the claim states it, fails on a record of negative value.
    With the records 120 and -5 on a surface 400 pixels high the domain
    is [0, 120] and the baseline is at 320; the rectangle of the second
    record has its [y] below the baseline and a negative [height], more
    than 10 pixels: the bar does not grow upward. *)
Lemma C5_negative_value_bar_below_baseline :
  let data := [cheetah; mkDatum "Mole" "Omnivore" (ofZ (-5))] in
  let height := Z.max (clientHeight smallBox) 400 in
  data <> [] /\
  exists x y width barHeight fill,
    nth_error (rectsIn (current (draw smallBox data))) 1 =
      Some (Rect x (Some (Fin y)) width (Fin barHeight) fill) /\
    (inject_Z (height - bottom margin) < y)%Q /\
    (barHeight <= -10)%Q.
Proof.
  cbn zeta. split; [discriminate|].
  destruct (rect_at smallBox [cheetah; mkDatum "Mole" "Omnivore" (ofZ (-5))]
              1 (mkDatum "Mole" "Omnivore" (ofZ (-5))) eq_refl)
    as (fill & _ & Hrect).
  do 5 eexists. split.
  - rewrite Hrect. unfold rectOf. cbn [speed]. vm_compute. reflexivity.
  - split; [reflexivity | discriminate].
Qed.

(** C5 (amended): on a non-empty record set the value scale is the linear
    scale of domain [0, d3.max of the values] after [nice()] and of range
    [height - bottom margin, top margin], and the rectangle of each record
    has [y] equal to the scale at its value and [height] equal to
    [height - bottom margin] minus that.

    Niced upward: when the largest value is zero the domain stays [0, 0];
    when it is of ordinary size, [nice()] keeps the lower end at zero and
    moves the upper end up, within rounding, by one tick spacing at most
    to a whole number of tick spacings, between 7 and 15 of them, the
    spacing being 1, 2 or 5 times a power of ten.

    Bars of records whose value is finite and not negative grow upward
    from the baseline: within rounding their [y] lies between the top
    margin and the baseline, and when the domain ends at a finite
    [M > 0] their height is the height of the plot area times
    [value / M]. *)
Theorem C5_value_scale_and_bars (c : container) (data : list AnimalDatum) :
  data <> [] ->
  let height := Z.max (clientHeight c) 400 in
  let baseline := inject_Z (height - bottom margin) in
  let plot := inject_Z (height - bottom margin - top margin) in
  let largest := match d3max (map speed data) with
                 | Some m => m
                 | None => ofZ 0
                 end in
  let y := yScale height data in
  (y = nice {| d0 := ofZ 0; d1 := largest;
               range0 := Fin baseline; range1 := ofZ (top margin) |} /\
   range0 y = Fin baseline /\
   range1 y = ofZ (top margin)) /\
  (forall m,
     largest = Fin m ->
     (m == 0 ->
      exists lo M, d0 y = Fin lo /\ d1 y = Fin M /\ lo == 0 /\ M == 0) /\
     (ordinary m ->
      exists lo M f k n,
        d0 y = Fin lo /\ d1 y = Fin M /\ lo == 0 /\
        (7 <= n <= 15)%Z /\
        near M M (inject_Z n * spacing f k) /\
        (m <= M * (1 + eps))%Q /\
        (M <= m + spacing f k * (1 + eps))%Q)) /\
  (forall i d,
     nth_error data i = Some d ->
     exists x width fill,
       nth_error (rectsIn (current (draw c data))) i =
       Some (Rect x (linearApply y (speed d)) width
                  (sub (Fin baseline) (toNumber (linearApply y (speed d))))
                  fill)) /\
  (forall d v,
     In d data -> speed d = Fin v -> (0 <= v)%Q ->
     exists yv,
       linearApply y (Fin v) = Some (Fin yv) /\
       (inject_Z (top margin) - plot * eps <= yv)%Q /\
       (yv <= baseline + plot * eps)%Q /\
       forall M, d1 y = Fin M -> (0 < M)%Q ->
                 near plot (baseline - yv) (plot * (v / M))).
Proof.
  intros _. cbn zeta.
  set (height := Z.max (clientHeight c) 400).
  assert (Hh : 400 <= height) by (subst height; lia).
  pose proof (range_inverted height Hh) as Hrange.
  pose proof (plot_pos height Hh) as Hplot.
  pose proof (plot_extent height) as Eplot.
  pose proof eps_pos as Heps.
  split; [|split; [|split]].
  - split; [reflexivity|].
    split; [unfold yScale; now rewrite (proj1 (nice_range _))
           |unfold yScale; now rewrite (proj2 (nice_range _))].
  - intros m Hm. unfold yScale. rewrite Hm. split.
    + intros Hm0. rewrite (nice_flat_domain _ _ m Hm0). cbn [d0 d1].
      exists (inject_Z 0), m.
      split; [reflexivity|]. split; [reflexivity|].
      split; [reflexivity | assumption].
    + intros (Hlow & _).
      assert (Hpos : (0 < m)%Q).
      { eapply Qlt_le_trans; [|exact Hlow]. reflexivity. }
      destruct (nice_friendly (ofZ (height - bottom margin))
                  (ofZ (top margin)) m Hpos)
        as (a & M & f & k & n & -> & Ha & HM & Hn & HmM & HMm).
      cbn [d0 d1]. exists a, M, f, k, n.
      pose proof (spacing_pos f k) as Hsp.
      split; [reflexivity|]. split; [reflexivity|].
      split; [assumption|]. split; [assumption|].
      split; [apply near_equal; [lra | assumption]|].
      split; nra.
  - intros i d Hi.
    destruct (nth_error_combine_left data (fills colorScale data) i d
                (fills_length colorScale data) Hi) as (fill & Hfill).
    exists (bandApply (xScale (Z.max (clientWidth c) 600) data) (name d)),
           (bandwidth (xScale (Z.max (clientWidth c) 600) data)), fill.
    unfold draw.
    rewrite (rects_of_render {| current := Some c; calls := [] |} data c eq_refl).
    fold height. rewrite nth_error_map, Hfill. reflexivity.
  - intros d v Hd Hv Hv0.
    set (B := inject_Z (height - bottom margin)) in *.
    set (T := inject_Z (top margin)) in *.
    set (P := inject_Z (height - bottom margin - top margin)) in *.
    assert (Hslack : (0 <= P * eps)%Q) by nra.
    destruct (yScale_covering height data d v Hd Hv Hv0)
      as [(a & M & Hy & Ha & HvM)|Hy]; rewrite Hy; cbn [d1]; fold B T.
    + assert (HM0 : (0 <= M)%Q) by lra.
      destruct (linearApply_within a M B T Ha HM0 Hrange v Hv0 HvM)
        as (yv & Hyv & Hlow & Hhigh).
      exists yv. split; [exact Hyv|].
      split; [lra|]. split; [lra|].
      intros M' [= <-] HMpos.
      destruct (linearApply_share a M B T v Ha HMpos) as (yv' & Hyv' & Hshare).
      rewrite Hyv in Hyv'. injection Hyv' as <-.
      apply near_equal; [lra|].
      rewrite Hshare, Eplot. reflexivity.
    + eexists. split; [apply linearApply_unbounded|].
      change (inject_Z 1) with 1%Q.
      split; [lra|]. split; [lra|].
      intros M' [=].
Qed.

Lemma C5_value_scale_and_bars_witness :
  let height := Z.max (clientHeight smallBox) 400 in
  let y := yScale height [cheetah; elephant] in
  let plot := inject_Z (height - bottom margin - top margin) in
  (exists lo M f k n,
     d0 y = Fin lo /\ d1 y = Fin M /\ lo == 0 /\
     (7 <= n <= 15)%Z /\
     near M M (inject_Z n * spacing f k) /\
     (120 <= M * (1 + eps))%Q /\
     (M <= 120 + spacing f k * (1 + eps))%Q) /\
  (exists yv,
     linearApply y (Fin 25) = Some (Fin yv) /\
     (inject_Z (top margin) - plot * eps <= yv)%Q /\
     (yv <= inject_Z (height - bottom margin) + plot * eps)%Q /\
     forall M, d1 y = Fin M -> (0 < M)%Q ->
               near plot (inject_Z (height - bottom margin) - yv)
                    (plot * (25 / M))).
Proof.
  pose proof (C5_value_scale_and_bars smallBox [cheetah; elephant]) as H.
  cbv zeta in H.
  destruct H as (_ & Hnice & _ & Hbars); [discriminate|].
  cbv zeta. split.
  - apply (proj2 (Hnice 120%Q eq_refl)). split; discriminate.
  - apply (Hbars elephant 25%Q).
    + right. left. reflexivity.
    + reflexivity.
    + discriminate.
Defined.

(** X13: the effect is idempotent on the container: a second render on
    the same record set leaves exactly the content that the first one
    left, on a mounted container and on a missing one. *)
Theorem X13_render_twice_same_content (w : world) (data : list AnimalDatum) :
  current (execState (render data ;; render data)%monad w) =
  current (execState (render data) w).
Proof.
  rewrite execState_seq.
  destruct (render_current w data) as (content & Hc & _ & Hsame).
  rewrite (Hsame (execState (render data) w)).
  - rewrite Hc. apply setInner_twice.
  - rewrite Hc. apply containerWidth_setInner.
  - rewrite Hc. apply containerHeight_setInner.
Qed.

(** X15: when the record set becomes empty the chart goes away: a render
    on the empty set after a render on any set leaves the container
    without children. *)
Theorem X15_empty_set_removes_chart (w : world) (data : list AnimalDatum) :
  current (execState (render data ;; render [])%monad w) =
  option_map (setInner []) (current w).
Proof.
  rewrite execState_seq, render_nil. cbn [current].
  destruct (render_current w data) as (content & -> & _).
  apply setInner_twice.
Qed.

(** X16: the height of a bar is proportional to the value.  For a record
    of finite value [v >= 0], when the domain of the value scale ends at a
    finite [M > 0], the height of its rectangle is, within rounding, the
    height of the plot area, [height - bottom - top], times [v / M]. *)
Theorem X16_bar_height_proportional
    (c : container) (data : list AnimalDatum) (i : nat) (d : AnimalDatum)
    (v M : Q) :
  nth_error data i = Some d ->
  speed d = Fin v ->
  (0 <= v)%Q ->
  let height := Z.max (clientHeight c) 400 in
  let plot := inject_Z (height - bottom margin - top margin) in
  d1 (yScale height data) = Fin M ->
  (0 < M)%Q ->
  exists x y width barHeight fill,
    nth_error (rectsIn (current (draw c data))) i =
      Some (Rect x y width (Fin barHeight) fill) /\
    near plot barHeight (plot * (v / M)).
Proof.
  intros Hi Hv Hv0. cbn zeta. intros HM HMpos.
  destruct (rect_at c data i d Hi) as (fill & _ & Hrect).
  set (height := Z.max (clientHeight c) 400) in *.
  assert (Hh : 400 <= height) by (subst height; lia).
  pose proof (plot_pos height Hh) as Hplot.
  destruct (yScale_covering height data d v (nth_error_In _ _ Hi) Hv Hv0)
    as [(a & M' & Hy & Ha & HvM)|Hy]; rewrite Hy in HM; cbn [d1] in HM;
    [|discriminate].
  injection HM as ->.
  unfold rectOf in Hrect. rewrite Hy, Hv in Hrect.
  destruct (linearApply_share a M (inject_Z (height - bottom margin))
              (inject_Z (top margin)) v Ha HMpos) as (yv & Hyv & Hshare).
  rewrite Hyv in Hrect. cbn [toNumber sub add neg] in Hrect.
  do 5 eexists. split; [exact Hrect|].
  apply near_equal; [lra|].
  rewrite (plot_extent height), <- Hshare. reflexivity.
Qed.

Lemma X16_bar_height_proportional_witness :
  let plot := inject_Z (Z.max (clientHeight smallBox) 400
                        - bottom margin - top margin) in
  exists x y width barHeight fill,
    nth_error (rectsIn (current (draw smallBox [cheetah; elephant]))) 1 =
      Some (Rect x y width (Fin barHeight) fill) /\
    near plot barHeight (plot * (25 / 120)).
Proof.
  apply (X16_bar_height_proportional smallBox [cheetah; elephant] 1
           elephant 25 120).
  - reflexivity.
  - reflexivity.
  - discriminate.
  - vm_compute. reflexivity.
  - reflexivity.
Defined.

(** X17: the bars are ordered like the values: of two records with finite
    values [0 <= v1 <= v2], the second has the rectangle that is at least
    as high, within rounding. *)
Theorem X17_larger_value_taller_bar
    (c : container) (data : list AnimalDatum) (i j : nat)
    (di dj : AnimalDatum) (vi vj : Q) :
  nth_error data i = Some di -> speed di = Fin vi ->
  nth_error data j = Some dj -> speed dj = Fin vj ->
  (0 <= vi)%Q -> (vi <= vj)%Q ->
  let plot := inject_Z (Z.max (clientHeight c) 400
                        - bottom margin - top margin) in
  exists xi yi wi hi fi xj yj wj hj fj,
    nth_error (rectsIn (current (draw c data))) i =
      Some (Rect xi yi wi (Fin hi) fi) /\
    nth_error (rectsIn (current (draw c data))) j =
      Some (Rect xj yj wj (Fin hj) fj) /\
    (hi <= hj + plot * eps)%Q.
Proof.
  intros Hi Hvi Hj Hvj Hv0 Hle. cbn zeta.
  destruct (rect_at c data i di Hi) as (fi & _ & Hri).
  destruct (rect_at c data j dj Hj) as (fj & _ & Hrj).
  set (height := Z.max (clientHeight c) 400) in *.
  assert (Hh : 400 <= height) by (subst height; lia).
  pose proof (range_inverted height Hh) as Hrange.
  pose proof (plot_pos height Hh) as Hplot.
  pose proof eps_pos as Heps.
  assert (Hslack : (0 <= inject_Z (height - bottom margin - top margin) * eps)%Q)
    by nra.
  unfold rectOf in Hri, Hrj. rewrite Hvi in Hri. rewrite Hvj in Hrj.
  destruct (yScale_covering height data di vi (nth_error_In _ _ Hi) Hvi Hv0)
    as [(a & M & Hy & Ha & HvM)|Hy]; rewrite Hy in Hri, Hrj.
  - destruct (linearApply_monotone a M _ _ Ha ltac:(lra) Hrange vi vj Hle)
      as (y1 & y2 & E1 & E2 & Hy12).
    rewrite E1 in Hri. rewrite E2 in Hrj. cbn [toNumber sub add neg] in Hri, Hrj.
    do 10 eexists. split; [exact Hri|]. split; [exact Hrj|]. lra.
  - rewrite linearApply_unbounded in Hri, Hrj.
    cbn [toNumber sub add neg] in Hri, Hrj.
    do 10 eexists. split; [exact Hri|]. split; [exact Hrj|]. lra.
Qed.

Lemma X17_larger_value_taller_bar_witness :
  exists xi yi wi hi fi xj yj wj hj fj,
    nth_error (rectsIn (current (draw smallBox [cheetah; elephant]))) 1 =
      Some (Rect xi yi wi (Fin hi) fi) /\
    nth_error (rectsIn (current (draw smallBox [cheetah; elephant]))) 0 =
      Some (Rect xj yj wj (Fin hj) fj) /\
    (hi <= hj + inject_Z (Z.max (clientHeight smallBox) 400
                          - bottom margin - top margin) * eps)%Q.
Proof.
  apply (X17_larger_value_taller_bar smallBox [cheetah; elephant] 1 0
           elephant cheetah 25 120); solve [reflexivity | discriminate].
Defined.

(** X18: resizing rescales the bars in proportion.  The rectangle of a
    record of finite value [v >= 0] takes a share [t] of the height of the
    plot area, [height - bottom - top], and within rounding the share is
    the same in every container. *)
Theorem X18_bar_share_independent_of_container
    (data : list AnimalDatum) (i : nat) (d : AnimalDatum) (v : Q) :
  nth_error data i = Some d ->
  speed d = Fin v ->
  (0 <= v)%Q ->
  exists t,
    (0 <= t <= 1)%Q /\
    forall c : container,
    exists x y width barHeight fill,
      nth_error (rectsIn (current (draw c data))) i =
        Some (Rect x y width (Fin barHeight) fill) /\
      let plot := inject_Z (Z.max (clientHeight c) 400
                            - bottom margin - top margin) in
      near plot barHeight (plot * t).
Proof.
  intros Hi Hv Hv0.
  pose proof (nth_error_In _ _ Hi) as Hin.
  pose proof plot_extent as Eplot.
  assert (Hplot : forall c : container,
            (0 <= inject_Z (Z.max (clientHeight c) 400
                            - bottom margin - top margin))%Q).
  { intros c. apply Qle_trans with 250%Q; [discriminate|].
    apply plot_pos. lia. }
  destruct (yScale_covering 400 data d v Hin Hv Hv0)
    as [(a0 & M0 & Hy0 & Ha0 & HvM0)|Hy0].
  - exists (if Qeq_bool (M0 + - a0) 0 then 1 # 2
            else (v + - a0) / (M0 + - a0))%Q.
    split; [apply (ratio_unit a0 M0 Ha0 ltac:(lra) v Hv0 HvM0)|].
    intros c. destruct (rect_at c data i d Hi) as (fill & _ & Hrect).
    set (height := Z.max (clientHeight c) 400) in *.
    destruct (yScale_domain_fixed height 400 data) as (E0 & E1).
    rewrite Hy0 in E0, E1. cbn [d0 d1] in E0, E1.
    destruct (yScale_covering height data d v Hin Hv Hv0)
      as [(a & M & Hy & Ha & HvM)|Hy];
      rewrite Hy in E0, E1; cbn [d0 d1] in E0, E1; [|discriminate].
    injection E0 as ->. injection E1 as ->.
    unfold rectOf in Hrect. rewrite Hy, Hv in Hrect.
    rewrite (linearApply_finite a0 M0 _ _ Ha0 ltac:(lra)) in Hrect.
    cbn [toNumber sub add neg] in Hrect.
    do 5 eexists. split; [exact Hrect|].
    cbv zeta. apply near_equal; [apply Hplot|].
    rewrite Eplot. change (inject_Z 1) with 1%Q.
    set (t := (if Qeq_bool (M0 + - a0) 0 then 1 # 2
               else (v + - a0) / (M0 + - a0))%Q).
    ring.
  - exists 0%Q. split; [split; [apply Qle_refl | discriminate]|].
    intros c. destruct (rect_at c data i d Hi) as (fill & _ & Hrect).
    set (height := Z.max (clientHeight c) 400) in *.
    destruct (yScale_domain_fixed height 400 data) as (E0 & E1).
    rewrite Hy0 in E0, E1. cbn [d0 d1] in E0, E1.
    destruct (yScale_covering height data d v Hin Hv Hv0)
      as [(a & M & Hy & Ha & HvM)|Hy];
      rewrite Hy in E0, E1; cbn [d0 d1] in E0, E1; [discriminate|].
    unfold rectOf in Hrect. rewrite Hy, Hv in Hrect.
    rewrite linearApply_unbounded in Hrect.
    cbn [toNumber sub add neg] in Hrect.
    do 5 eexists. split; [exact Hrect|].
    cbv zeta. apply near_equal; [apply Hplot|].
    rewrite Eplot. change (inject_Z 1) with 1%Q. ring.
Qed.

Lemma X18_bar_share_independent_of_container_witness :
  exists t,
    (0 <= t <= 1)%Q /\
    forall c : container,
    exists x y width barHeight fill,
      nth_error (rectsIn (current (draw c [cheetah; elephant]))) 1 =
        Some (Rect x y width (Fin barHeight) fill) /\
      let plot := inject_Z (Z.max (clientHeight c) 400
                            - bottom margin - top margin) in
      near plot barHeight (plot * t).
Proof.
  apply (X18_bar_share_independent_of_container [cheetah; elephant] 1
           elephant 25); solve [reflexivity | discriminate].
Defined.

(** X19: when every value is zero the domain has no extent, [0, 0], and
    each bar is drawn half as high as the plot area. *)
Theorem X19_all_zero_bars_at_half_height
    (c : container) (data : list AnimalDatum) (i : nat) (d : AnimalDatum) :
  nth_error data i = Some d ->
  Forall (fun e => exists q, speed e = Fin q /\ q == 0) data ->
  let height := Z.max (clientHeight c) 400 in
  (exists lo hi,
     d0 (yScale height data) = Fin lo /\ d1 (yScale height data) = Fin hi /\
     lo == 0 /\ hi == 0) /\
  exists x y width barHeight fill,
    nth_error (rectsIn (current (draw c data))) i =
      Some (Rect x y width (Fin barHeight) fill) /\
    barHeight == inject_Z (height - bottom margin - top margin) / 2.
Proof.
  intros Hi Hzero. cbn zeta.
  rewrite Forall_forall in Hzero.
  destruct (Hzero d (nth_error_In _ _ Hi)) as (v & Hv & Hv0).
  destruct (rect_at c data i d Hi) as (fill & _ & Hrect).
  set (height := Z.max (clientHeight c) 400) in *.
  destruct (d3max_bound (map speed data) (Fin v)) as (M & HM & _ & _);
    [rewrite <- Hv; apply in_map; eapply nth_error_In, Hi | reflexivity |].
  pose proof (d3max_In _ _ HM) as HMin.
  apply in_map_iff in HMin as (e & He & Hein).
  destruct (Hzero e Hein) as (m & Hm & Hm0). rewrite Hm in He. subst M.
  assert (Hy : yScale height data =
               {| d0 := Fin (inject_Z 0); d1 := Fin m;
                  range0 := Fin (inject_Z (height - bottom margin));
                  range1 := Fin (inject_Z (top margin)) |}).
  { unfold yScale. rewrite HM. now apply nice_flat_domain. }
  split.
  { rewrite Hy. cbn [d0 d1]. exists (inject_Z 0), m.
    split; [reflexivity|]. split; [reflexivity|].
    split; [reflexivity | assumption]. }
  unfold rectOf in Hrect. rewrite Hy, Hv in Hrect.
  rewrite (linearApply_finite (inject_Z 0) m _ _ (Qeq_refl _)) in Hrect
    by (rewrite Hm0; apply Qle_refl).
  assert (Hflat : Qeq_bool (m + - inject_Z 0) 0 = true).
  { apply Qeq_eq_bool. rewrite Hm0. reflexivity. }
  rewrite Hflat in Hrect. cbn [toNumber sub add neg] in Hrect.
  do 5 eexists. split; [exact Hrect|].
  rewrite (plot_extent height). change (inject_Z 1) with 1%Q. field.
Qed.

Lemma X19_all_zero_bars_at_half_height_witness :
  let data := [mkDatum "Sloth" "Herbivore" (ofZ 0);
               mkDatum "Snail" "Herbivore" (parseFloat "0.0")] in
  let height := Z.max (clientHeight smallBox) 400 in
  (exists lo hi,
     d0 (yScale height data) = Fin lo /\ d1 (yScale height data) = Fin hi /\
     lo == 0 /\ hi == 0) /\
  exists x y width barHeight fill,
    nth_error (rectsIn (current (draw smallBox data))) 1 =
      Some (Rect x y width (Fin barHeight) fill) /\
    barHeight == inject_Z (height - bottom margin - top margin) / 2.
Proof.
  apply (X19_all_zero_bars_at_half_height smallBox
           [mkDatum "Sloth" "Herbivore" (ofZ 0);
            mkDatum "Snail" "Herbivore" (parseFloat "0.0")] 1
           (mkDatum "Snail" "Herbivore" (parseFloat "0.0"))).
  - reflexivity.
  - repeat constructor; eexists; (split; [reflexivity | reflexivity]).
Defined.

(** ** Strings, the schema and the card *)

Section StringFacts.

Lemma trimStart_length (s : string) :
  (String.length (trimStart s) <= String.length s)%nat.
Proof.
  induction s as [|c r IH]; simpl; [lia|].
  destruct (isStrWhiteSpace c); simpl; lia.
Qed.

Lemma trimStart_clean (s : string) : startsClean (trimStart s) = true.
Proof.
  induction s as [|c r IH]; simpl; [reflexivity|].
  destruct (isStrWhiteSpace c) eqn:E; [assumption|]. simpl. now rewrite E.
Qed.

Lemma trimStart_of_clean (s : string) :
  startsClean s = true -> trimStart s = s.
Proof.
  destruct s as [|c r]; simpl; [reflexivity|].
  intros H. apply negb_true_iff in H. now rewrite H.
Qed.

Lemma trimStart_blank (s : string) :
  trimStart s = EmptyString <-> blank s = true.
Proof.
  induction s as [|c r IH]; simpl; [tauto|].
  destruct (isStrWhiteSpace c); simpl; [assumption|].
  split; discriminate.
Qed.

Lemma trimEnd_length (s : string) :
  (String.length (trimEnd s) <= String.length s)%nat.
Proof.
  induction s as [|c r IH]; simpl; [lia|].
  destruct (trimEnd r) as [|c' r'].
  - destruct (isStrWhiteSpace c); simpl; lia.
  - simpl in *. lia.
Qed.

Lemma trimEnd_blank (s : string) :
  trimEnd s = EmptyString <-> blank s = true.
Proof.
  induction s as [|c r IH]; simpl; [tauto|].
  destruct (trimEnd r) as [|c' r'].
  - destruct (isStrWhiteSpace c); simpl.
    + split; [intros _; now apply IH | reflexivity].
    + split; discriminate.
  - split; [discriminate|]. intros H.
    apply andb_true_iff in H as (_ & H). apply IH in H. discriminate.
Qed.

Lemma trimEnd_clean (s : string) : endsClean (trimEnd s) = true.
Proof.
  induction s as [|c r IH]; simpl; [reflexivity|].
  destruct (trimEnd r) as [|c' r'] eqn:E.
  - destruct (isStrWhiteSpace c) eqn:Ec; simpl; [reflexivity | now rewrite Ec].
  - simpl in *. exact IH.
Qed.

Lemma trimEnd_of_clean (s : string) :
  endsClean s = true -> trimEnd s = s.
Proof.
  induction s as [|c r IH]; [reflexivity|].
  intros H. cbn [trimEnd]. destruct r as [|c' r'].
  - simpl in *. apply negb_true_iff in H. now rewrite H.
  - rewrite IH by exact H. reflexivity.
Qed.

(** Trimming the end leaves the first character in place. *)
Lemma trimEnd_keeps_start (s : string) :
  startsClean s = true -> startsClean (trimEnd s) = true.
Proof.
  destruct s as [|c r]; [reflexivity|].
  cbn [trimEnd startsClean]. intros H.
  destruct (trimEnd r).
  - apply negb_true_iff in H. rewrite H. simpl. now rewrite H.
  - simpl. exact H.
Qed.

Lemma trim_blank (s : string) : trim s = EmptyString <-> blank s = true.
Proof.
  unfold trim. rewrite trimEnd_blank. split.
  - intros H. apply trimStart_blank.
    destruct (trimStart s) as [|c r] eqn:E; [reflexivity|].
    pose proof (trimStart_clean s) as Hc. rewrite E in Hc. simpl in *.
    apply andb_true_iff in H as (H & _). rewrite H in Hc. discriminate.
  - intros H. apply trimStart_blank in H. now rewrite H.
Qed.

Lemma trim_clean (s : string) :
  startsClean (trim s) = true /\ endsClean (trim s) = true.
Proof.
  unfold trim. split.
  - apply trimEnd_keeps_start, trimStart_clean.
  - apply trimEnd_clean.
Qed.

Lemma trim_of_clean (s : string) :
  startsClean s = true -> endsClean s = true -> trim s = s.
Proof.
  intros Hs He. unfold trim.
  now rewrite (trimStart_of_clean s Hs), (trimEnd_of_clean s He).
Qed.

Lemma trim_idempotent (s : string) : trim (trim s) = trim s.
Proof. destruct (trim_clean s). now apply trim_of_clean. Qed.

Lemma trim_length (s : string) :
  (String.length (trim s) <= String.length s)%nat.
Proof.
  unfold trim. pose proof (trimEnd_length (trimStart s)).
  pose proof (trimStart_length s). lia.
Qed.

Lemma substring_length_le (n : nat) (s : string) :
  (String.length (substring 0 n s) <= n)%nat.
Proof.
  revert s. induction n as [|n IH]; intros s.
  - destruct s; simpl; lia.
  - destruct s as [|c r]; simpl; [lia|]. specialize (IH r). lia.
Qed.

Lemma append_length (a b : string) :
  String.length (a ++ b) = (String.length a + String.length b)%nat.
Proof. induction a as [|c a IH]; simpl; [reflexivity | now rewrite IH]. Qed.

Lemma empty_length (s : string) :
  (String.length s <? 1)%nat = true <-> s = EmptyString.
Proof.
  destruct s; simpl; split; try reflexivity; discriminate.
Qed.

End StringFacts.

Section SchemaFacts.
Import Schema.

Lemma trim_canonical (s : string) :
  blank s = false -> canonical (trim s).
Proof.
  intros Hb. destruct (trim_clean s) as (Hs & He).
  repeat split; try assumption.
  intros E. apply trim_blank in E. congruence.
Qed.

Lemma emptyToNull_Some (s : string) :
  emptyToNull (Some s) = if blank s then None else Some (trim s).
Proof.
  unfold emptyToNull. destruct (String.eqb_spec s EmptyString) as [->|Hne].
  - reflexivity.
  - cbn [orb]. destruct (String.eqb_spec (trim s) EmptyString) as [E|E].
    + apply trim_blank in E. now rewrite E.
    + destruct (blank s) eqn:Hb; [|reflexivity].
      apply trim_blank in Hb. contradiction.
Qed.

Lemma canonical_not_blank (t : string) : canonical t -> blank t = false.
Proof.
  intros (Hne & Hs & _). destruct t as [|c r]; [contradiction|].
  simpl in *. apply negb_true_iff in Hs. now rewrite Hs.
Qed.

Lemma emptyToNull_canonical (v : option string) (t : string) :
  emptyToNull v = Some t -> canonical t.
Proof.
  destruct v as [s|]; [|discriminate].
  rewrite emptyToNull_Some. destruct (blank s) eqn:Hb; [discriminate|].
  intros [= <-]. now apply trim_canonical.
Qed.

Lemma parseKingdom_member (s k : string) :
  parseKingdom s = Some k -> k = s /\ In k kingdoms.
Proof.
  unfold parseKingdom. destruct (existsb (String.eqb s) kingdoms) eqn:E;
    [|discriminate].
  intros [= <-]. split; [reflexivity|].
  apply existsb_exists in E as (k & Hin & Hk).
  apply String.eqb_eq in Hk. now subst.
Qed.

Lemma parsePopulation_accepts (x : num) (r : option Z) :
  parsePopulation (Some x) = Some r <->
  exists z, 1 <= z /\ equiv x (ofZ z) /\ r = Some z.
Proof.
  unfold parsePopulation. split.
  - destruct x as [| | |q];
      [intros H; vm_compute in H; discriminate H .. |].
    cbn [isNaN isInteger gt ge lt le ofZ].
    destruct (Qeq_bool (inject_Z (Qfloor q)) q) eqn:Eint;
      [|discriminate].
    destruct (Qlt_bool (inject_Z 0) q); [|discriminate].
    destruct (Qle_bool (inject_Z 1) q) eqn:Ege; [|discriminate].
    cbn [andb]. intros [= <-]. exists (Qfloor q).
    apply Qeq_bool_eq in Eint. apply Qle_bool_iff in Ege.
    split; [|split; [|reflexivity]].
    + rewrite Zle_Qle. now rewrite Eint.
    + cbn. now symmetry.
  - intros (z & Hz & Hx & ->).
    destruct x as [| | |q]; try contradiction. cbn in Hx.
    cbn [isNaN isInteger gt ge lt le ofZ].
    assert (Hfloor : Qfloor q = z).
    { rewrite (Qfloor_comp q (inject_Z z) Hx). apply Qfloor_Z. }
    rewrite Hfloor.
    assert (H1 : Qeq_bool (inject_Z z) q = true).
    { apply Qeq_eq_bool. now symmetry. }
    assert (Hq1 : (inject_Z 1 <= q)%Q).
    { rewrite Hx. now rewrite <- Zle_Qle. }
    assert (H2 : Qlt_bool (inject_Z 0) q = true).
    { unfold Qlt_bool. apply negb_true_iff.
      destruct (Qle_bool q (inject_Z 0)) eqn:E; [|reflexivity].
      apply Qle_bool_iff in E. change (inject_Z 0) with 0%Q in E.
      change (inject_Z 1) with 1%Q in Hq1. lra. }
    assert (H3 : Qle_bool (inject_Z 1) q = true) by now apply Qle_bool_iff.
    now rewrite H1, H2, H3.
Qed.

Lemma parseScientificName_Some (s t : string) :
  parseScientificName s = Some t -> t = trim s /\ canonical t.
Proof.
  unfold parseScientificName. cbn zeta.
  destruct (String.length (trim s) <? 1)%nat eqn:E; [discriminate|].
  rewrite trim_idempotent. intros [= <-]. split; [reflexivity|].
  apply trim_canonical. destruct (blank s) eqn:Hb; [|reflexivity].
  apply trim_blank in Hb. apply empty_length in Hb. congruence.
Qed.

End SchemaFacts.

(** X20: the transform of the nullable text fields gives [null] exactly
    for [null] and for texts made of white space only; every other text
    comes out trimmed, hence not empty and without white space at either
    end; and the transform changes nothing when applied to its own
    output. *)
Theorem X20_emptyToNull_normalises (v : option string) :
  (Schema.emptyToNull v = None <->
   forall s, v = Some s -> blank s = true) /\
  (forall t, Schema.emptyToNull v = Some t ->
             canonical t /\ exists s, v = Some s /\ t = trim s) /\
  Schema.emptyToNull (Schema.emptyToNull v) = Schema.emptyToNull v.
Proof.
  destruct v as [s|].
  - rewrite emptyToNull_Some. destruct (blank s) eqn:Hb.
    + split; [|split].
      * split; [now intros _ ? [= <-] | reflexivity].
      * discriminate.
      * reflexivity.
    + split; [|split].
      * split; [discriminate|]. intros H. specialize (H s eq_refl). congruence.
      * intros t [= <-]. split; [now apply trim_canonical|]. now exists s.
      * rewrite emptyToNull_Some.
        rewrite (canonical_not_blank _ (trim_canonical s Hb)).
        now rewrite trim_idempotent.
  - split; [|split].
    + split; [discriminate | reflexivity].
    + discriminate.
    + reflexivity.
Qed.

(** X21: the scientific name is refused exactly when it is made of white
    space only (the empty string included); otherwise the form yields it
    trimmed, not empty and without white space at either end. *)
Theorem X21_scientific_name_required (s : string) :
  (Schema.parseScientificName s = None <-> blank s = true) /\
  (forall t, Schema.parseScientificName s = Some t ->
             t = trim s /\ canonical t).
Proof.
  unfold Schema.parseScientificName. cbn zeta.
  destruct (String.length (trim s) <? 1)%nat eqn:E.
  - apply empty_length in E. apply trim_blank in E.
    split; [tauto | discriminate].
  - assert (Hb : blank s = false).
    { destruct (blank s) eqn:Hb; [|reflexivity].
      apply trim_blank in Hb. apply empty_length in Hb. congruence. }
    rewrite trim_idempotent. split.
    + split; [discriminate | congruence].
    + intros t [= <-]. split; [reflexivity | now apply trim_canonical].
Qed.

(** X22: the population field accepts [null] and the whole numbers from 1
    on, and nothing else: not [NaN], not an infinity, not zero or a
    negative number, not a fraction. *)
Theorem X22_population_whole_and_positive :
  Schema.parsePopulation None = Some None /\
  (forall x r,
     Schema.parsePopulation (Some x) = Some r <->
     exists z, 1 <= z /\ equiv x (ofZ z) /\ r = Some z) /\
  Schema.parsePopulation (Some NaN) = None /\
  Schema.parsePopulation (Some PInf) = None /\
  Schema.parsePopulation (Some (ofZ 0)) = None /\
  Schema.parsePopulation (Some (Fin (3 # 2))) = None.
Proof.
  split; [reflexivity|]. split; [apply parsePopulation_accepts|].
  repeat split; reflexivity.
Qed.

(** X23: whatever the form holds, the values that the schema hands to
    [onSubmit] have a scientific name that is the trimmed input and is
    not empty, a kingdom of the enumeration, a population that is [null]
    or at least 1, and optional texts that are [null] or trimmed and not
    empty. *)
Theorem X23_schema_output_invariant
    (isUrl : string -> bool) (raw : Schema.RawForm)
    (input : SpeciesCard.FormData) :
  Schema.parseSpecies isUrl raw = Some input ->
  SpeciesCard.f_scientific_name input = trim (Schema.r_scientific_name raw) /\
  canonical (SpeciesCard.f_scientific_name input) /\
  SpeciesCard.f_kingdom input = Schema.r_kingdom raw /\
  In (SpeciesCard.f_kingdom input) Schema.kingdoms /\
  (forall z, SpeciesCard.f_total_population input = Some z -> 1 <= z) /\
  (forall t,
     In (Some t) [SpeciesCard.f_common_name input;
                  SpeciesCard.f_image input;
                  SpeciesCard.f_description input] ->
     canonical t).
Proof.
  unfold Schema.parseSpecies.
  destruct (Schema.parseScientificName (Schema.r_scientific_name raw))
    as [sn|] eqn:Esn; [|discriminate].
  destruct (Schema.parseKingdom (Schema.r_kingdom raw)) as [k|] eqn:Ek;
    [|discriminate].
  destruct (Schema.parsePopulation (Schema.r_total_population raw))
    as [pop|] eqn:Epop; [|discriminate].
  destruct (Schema.parseImage isUrl (Schema.r_image raw)) as [img|] eqn:Eimg;
    [|discriminate].
  intros [= <-]. cbn.
  destruct (parseScientificName_Some _ _ Esn) as (Hsn & Hcanon).
  destruct (parseKingdom_member _ _ Ek) as (Hk & Hin).
  repeat (split; [assumption|]). split.
  - intros z Hz. subst pop.
    destruct (Schema.r_total_population raw) as [x|]; [|discriminate].
    apply parsePopulation_accepts in Epop as (z' & Hz' & _ & [= ->]).
    exact Hz'.
  - intros t [H|[H|[H|[]]]].
    + now apply (emptyToNull_canonical (Schema.r_common_name raw)).
    + subst img. unfold Schema.parseImage in Eimg.
      destruct (Schema.r_image raw) as [s|].
      * destruct (isUrl s); [|discriminate]. injection Eimg as Eimg.
        now apply (emptyToNull_canonical (Some s)).
      * discriminate.
    + now apply (emptyToNull_canonical (Schema.r_description raw)).
Qed.

Lemma X23_schema_output_invariant_witness :
  SpeciesCard.f_scientific_name edited = trim (Schema.r_scientific_name typed) /\
  canonical (SpeciesCard.f_scientific_name edited) /\
  SpeciesCard.f_kingdom edited = Schema.r_kingdom typed /\
  In (SpeciesCard.f_kingdom edited) Schema.kingdoms /\
  (forall z, SpeciesCard.f_total_population edited = Some z -> 1 <= z) /\
  (forall t,
     In (Some t) [SpeciesCard.f_common_name edited;
                  SpeciesCard.f_image edited;
                  SpeciesCard.f_description edited] ->
     canonical t).
Proof.
  apply (X23_schema_output_invariant looksLikeUrl typed edited).
  vm_compute. reflexivity.
Defined.

Module SessionFacts.
Import SpeciesCard CardSession.

Section Facts.

Variable store : Type.
Variable update : store -> Z -> FormData -> store * option string.
Variable isUrl : string -> bool.
Variable species : Species.
Variable userId : string.


Lemma clickEdit_state (c : card store) :
  execState (clickEdit store species userId) c =
  {| isOpenOne := isOpenOne c; isOpenTwo := negb (isOpenTwo c);
     showFormDialog := (author species =? userId);
     formValues := formValues c; refreshes := refreshes c;
     toasts := toasts c; db := db c |}.
Proof. reflexivity. Qed.

Lemma close_state (c : card store) :
  execState (setIsOpenTwo store false) c =
  {| isOpenOne := isOpenOne c; isOpenTwo := false;
     showFormDialog := showFormDialog c;
     formValues := formValues c; refreshes := refreshes c;
     toasts := toasts c; db := db c |}.
Proof. reflexivity. Qed.

(** What holds of the card of a user who is not the author, as long as
    the store and the toasts are those of the start: an open dialog shows
    the denial. *)
Let locked (s : store) (c : card store) : Prop :=
  db c = s /\ toasts c = [] /\ refreshes c = 0%nat /\
  (isOpenTwo c = true -> showFormDialog c = false).

Lemma step_keeps_locked (s : store) (a : action) (c c' : card store) :
  author species <> userId ->
  locked s c -> step store update isUrl species userId a c = Some c' -> locked s c'.
Proof.
  intros Hother (Hdb & Htoast & Hrefresh & Hview) Hstep.
  assert (Hno : (author species =? userId) = false).
  { now apply String.eqb_neq. }
  destruct a as [|b raw|]; cbn [step] in Hstep.
  - injection Hstep as <-. rewrite clickEdit_state, Hno.
    repeat split; assumption || reflexivity.
  - unfold dialogTwo in Hstep.
    destruct (isOpenTwo c) eqn:Eopen.
    + rewrite (Hview eq_refl) in Hstep.
      destruct b; cbn in Hstep; try discriminate.
      injection Hstep as <-.
      repeat split; try assumption. discriminate.
    + destruct b; discriminate.
  - injection Hstep as <-. rewrite close_state.
    repeat split; try assumption. discriminate.
Qed.

Lemma run_keeps_locked (s : store) (actions : list action) :
  author species <> userId ->
  forall c c', locked s c -> run store update isUrl species userId actions c = Some c' -> locked s c'.
Proof.
  intros Hother. induction actions as [|a rest IH]; intros c c' Hc Hrun.
  - injection Hrun as <-. assumption.
  - cbn [run] in Hrun. destruct (step store update isUrl species userId a c) as [c1|] eqn:E; [|discriminate].
    apply (IH c1 c'); [|assumption].
    now apply (step_keeps_locked s a c c1).
Qed.

Lemma locked_mounted (s : store) : locked s (mounted store species s).
Proof. repeat split. discriminate. Qed.

Lemma locked_view (s : store) (c : card store) :
  locked s c ->
  db c = s /\ toasts c = [] /\ refreshes c = 0%nat /\ dialogTwo c <> EditForm.
Proof.
  intros (Hdb & Ht & Hr & Hview). repeat split; try assumption.
  unfold dialogTwo. destruct (isOpenTwo c); [|discriminate].
  rewrite (Hview eq_refl). discriminate.
Qed.

End Facts.

End SessionFacts.

(** X24: a user who is not the author of the species cannot change the
    store through the card.  Whatever such a user does with the edit
    dialog from the moment the card mounts (clicking "Edit", pressing a
    button that is on the screen, dismissing the dialog), the edit form is
    never shown, the store is the one of the start, no toast is shown and
    the route is not refreshed. *)
Theorem X24_other_users_never_update
    (store : Type) (update : store -> Z -> SpeciesCard.FormData -> store * option string)
    (isUrl : string -> bool) (species : SpeciesCard.Species) (userId : string)
    (s : store) (actions : list (CardSession.action)) (c : SpeciesCard.card store) :
  SpeciesCard.author species <> userId ->
  CardSession.run store update isUrl species userId actions
    (CardSession.mounted store species s) = Some c ->
  SpeciesCard.db c = s /\
  SpeciesCard.toasts c = [] /\
  SpeciesCard.refreshes c = 0%nat /\
  SpeciesCard.dialogTwo c <> SpeciesCard.EditForm.
Proof.
  intros Hother Hrun.
  apply (SessionFacts.locked_view store s c).
  apply (SessionFacts.run_keeps_locked store update isUrl species userId s
           actions Hother (CardSession.mounted store species s) c);
    [apply SessionFacts.locked_mounted | exact Hrun].
Qed.

Lemma X24_other_users_never_update_witness :
  exists c,
    CardSession.run table tableUpdate looksLikeUrl guineaPig "user-2"
      [CardSession.ClickEdit;
       CardSession.PressButton SpeciesCard.CloseButton typed;
       CardSession.ClickEdit; CardSession.Dismiss]
      (CardSession.mounted table guineaPig [(7, edited)]) = Some c /\
    SpeciesCard.db c = [(7, edited)] /\
    SpeciesCard.toasts c = [] /\
    SpeciesCard.refreshes c = 0%nat /\
    SpeciesCard.dialogTwo c <> SpeciesCard.EditForm.
Proof.
  eexists. split; [reflexivity|].
  apply (X24_other_users_never_update table tableUpdate looksLikeUrl guineaPig
           "user-2" [(7, edited)]
           [CardSession.ClickEdit;
            CardSession.PressButton SpeciesCard.CloseButton typed;
            CardSession.ClickEdit; CardSession.Dismiss]).
  - discriminate.
  - reflexivity.
Defined.

(** X25: the author reaches the store in two steps.  From the mounted
    card, clicking "Edit" and pressing "Edit Species" on values that pass
    the schema sends the parsed values to the row of the species; on
    success the dialog is closed, the form is back at the default values
    and the route is refreshed once; on an error the form stays on the
    screen. *)
Theorem X25_author_edits_in_two_steps
    (store : Type) (update : store -> Z -> SpeciesCard.FormData -> store * option string)
    (isUrl : string -> bool) (species : SpeciesCard.Species) (userId : string)
    (s s' : store) (raw : Schema.RawForm) (input : SpeciesCard.FormData)
    (error : option string) :
  SpeciesCard.author species = userId ->
  Schema.parseSpecies isUrl raw = Some input ->
  update s (SpeciesCard.id species) input = (s', error) ->
  exists c,
    CardSession.run store update isUrl species userId
      [CardSession.ClickEdit;
       CardSession.PressButton SpeciesCard.SubmitButton raw]
      (CardSession.mounted store species s) = Some c /\
    SpeciesCard.db c = s' /\
    match error with
    | None =>
        SpeciesCard.dialogTwo c = SpeciesCard.Closed /\
        SpeciesCard.formValues c = SpeciesCard.defaultValues species /\
        SpeciesCard.refreshes c = 1%nat
    | Some _ =>
        SpeciesCard.dialogTwo c = SpeciesCard.EditForm /\
        SpeciesCard.refreshes c = 0%nat
    end.
Proof.
  intros Hauthor Hparse Hupdate.
  assert (Hyes : (SpeciesCard.author species =? userId) = true)
    by now apply String.eqb_eq.
  cbn [CardSession.run CardSession.step].
  rewrite SessionFacts.clickEdit_state, Hyes.
  unfold SpeciesCard.dialogTwo at 1.
  cbn [SpeciesCard.isOpenTwo SpeciesCard.showFormDialog CardSession.mounted
       negb CardSession.hasControl SpeciesCard.controls existsb orb].
  unfold CardSession.pressButton, CardSession.handleSubmit. rewrite Hparse.
  destruct error as [message|].
  - rewrite (CardFacts.onSubmit_error store update species _ input s' message)
      by exact Hupdate.
    eexists. split; [reflexivity|]. repeat split.
  - rewrite (CardFacts.onSubmit_success store update species _ input s')
      by exact Hupdate.
    eexists. split; [reflexivity|]. repeat split.
Qed.

Lemma X25_author_edits_in_two_steps_witness :
  exists c,
    CardSession.run table tableUpdate looksLikeUrl guineaPig "user-1"
      [CardSession.ClickEdit;
       CardSession.PressButton SpeciesCard.SubmitButton typed]
      (CardSession.mounted table guineaPig [(7, SpeciesCard.defaultValues guineaPig)])
      = Some c /\
    SpeciesCard.db c = [(7, edited)] /\
    SpeciesCard.dialogTwo c = SpeciesCard.Closed /\
    SpeciesCard.formValues c = SpeciesCard.defaultValues guineaPig /\
    SpeciesCard.refreshes c = 1%nat.
Proof.
  apply (X25_author_edits_in_two_steps table tableUpdate looksLikeUrl guineaPig
           "user-1" [(7, SpeciesCard.defaultValues guineaPig)] [(7, edited)]
           typed edited None); reflexivity.
Defined.

(** X26: the paragraph of the card is empty when there is no description
    or an empty one; otherwise it is at most the first 150 characters of
    the description, trimmed, followed by three dots, also when nothing
    was cut off; it is never longer than 153 characters. *)
Theorem X26_blurb_shape (description : option string) :
  (String.length (CardView.blurb description) <= 153)%nat /\
  (CardView.blurb description = EmptyString <->
   description = None \/ description = Some EmptyString) /\
  (forall d, description = Some d -> d <> EmptyString ->
     exists body,
       CardView.blurb description = body ++ "..." /\
       body = trim (slice0 150 d) /\
       (String.length body <= Nat.min 150 (String.length d))%nat).
Proof.
  assert (Hbody : forall d,
            (String.length (trim (slice0 150 d)) <= 150)%nat).
  { intros d. pose proof (trim_length (slice0 150 d)).
    pose proof (substring_length_le 150 d). unfold slice0 in *. lia. }
  assert (Hsub : forall n d,
            (String.length (substring 0 n d) <= String.length d)%nat).
  { induction n as [|n IH]; intros d; destruct d as [|c r]; simpl; try lia.
    specialize (IH r). lia. }
  destruct description as [d|]; cbn [CardView.blurb].
  - destruct (String.eqb_spec d EmptyString) as [->|Hne].
    + split; [simpl; lia|]. split; [intuition|]. intros d [= <-] H.
      contradiction.
    + split; [|split].
      * rewrite append_length. specialize (Hbody d). simpl. lia.
      * split.
        -- intros E. apply (f_equal String.length) in E.
           rewrite append_length in E. simpl in E. lia.
        -- intros [H|[= H]]; [discriminate | contradiction].
      * intros d' [= <-] _. eexists. split; [reflexivity|].
        split; [reflexivity|].
        pose proof (trim_length (slice0 150 d)). specialize (Hsub 150%nat d).
        specialize (Hbody d). unfold slice0 in *. lia.
  - split; [simpl; lia|]. split; [intuition|]. discriminate.
Qed.

Section MaxFacts.

Lemma all_NaN_or_not (values : list num) :
  (forall v, In v values -> isNaN v = true) \/
  (exists v, In v values /\ isNaN v = false).
Proof.
  induction values as [|x rest [IH|(v & Hv & Hnan)]].
  - left. intros v [].
  - destruct (isNaN x) eqn:E.
    + left. intros v [<-|Hv]; [assumption | now apply IH].
    + right. exists x. split; [now left | assumption].
  - right. exists v. split; [now right | assumption].
Qed.

Lemma d3max_all_NaN (values : list num) :
  (forall v, In v values -> isNaN v = true) -> d3max values = None.
Proof.
  unfold d3max. induction values as [|x rest IH]; intros Hall;
    [reflexivity|].
  cbn [fold_left].
  assert (Hx : x = NaN).
  { specialize (Hall x (or_introl eq_refl)). destruct x; try discriminate.
    reflexivity. }
  subst x. rewrite maxStep_NaN. apply IH.
  intros v Hv. apply Hall. now right.
Qed.

End MaxFacts.

(** X27: the upper end that the value scale starts from, [d3.max] of the
    speeds, is the greatest of the speeds that are not [NaN]: it is one of
    them and none of them is above it.  It is [undefined], so that the
    fallback 0 is used, exactly when every speed is [NaN]. *)
Theorem X27_d3max_is_greatest (values : list num) :
  (d3max values = None <-> forall v, In v values -> isNaN v = true) /\
  (forall M, d3max values = Some M ->
     In M values /\ isNaN M = false /\
     forall v, In v values -> isNaN v = false -> le v M = true).
Proof.
  destruct (all_NaN_or_not values) as [Hall|(v & Hv & Hnan)].
  - rewrite (d3max_all_NaN values Hall). split; [tauto | discriminate].
  - destruct (d3max_bound values v Hv Hnan) as (M & HM & HvM & Hbound).
    rewrite HM. split.
    + split; [discriminate|]. intros Hall.
      rewrite (Hall v Hv) in Hnan. discriminate.
    + intros M' [= <-]. split; [now apply d3max_In|].
      split; [|assumption]. now apply (le_comparable v M).
Qed.
